(** * Template review server: analysis, validation and enhancement of prompt templates

    A shallow embedding of the TypeScript sources
      - [validators/rules.ts]      (module [Rules])
      - [analyzers/structure.ts]   (module [Structure])
      - [analyzers/content.ts]     (module [Content])
      - [analyzers/patterns.ts]    (module [Patterns])
      - [enhancers/optimizer.ts]   (module [Optimizer])
      - the dispatch of [index.ts] (module [Server])
    together with the fragment of the JavaScript string and regular
    expression semantics these files rely on (modules [Js] and [Re]). *)

From Stdlib Require Import Floats Uint63.
From Stdlib Require Import String Ascii.
From Stdlib Require DecimalString.
From Stdlib Require Import List NArith ZArith Bool Lia PeanoNat.
Import ListNotations.

Set Implicit Arguments.
Set Warnings "-inexact-float".

(* ================================================================== *)
(** ** JavaScript strings *)
(* ================================================================== *)

Module Js.

(** A JavaScript string is a sequence of UTF-16 code units. *)
Definition str := list N.

(** ASCII literals. *)
Definition u (s : string) : str := map N_of_ascii (list_ascii_of_string s).

Definition LF : str := [10%N].
Definition DQ : str := [34%N].

Section Units.
Open Scope N_scope.

Definition isLower (c : N) : bool := (97 <=? c) && (c <=? 122).
Definition isUpper (c : N) : bool := (65 <=? c) && (c <=? 90).
Definition isDigit (c : N) : bool := (48 <=? c) && (c <=? 57).

(** [\w] and the word characters of [\b] (no [u] flag). *)
Definition isWordChar (c : N) : bool :=
  isLower c || isUpper c || isDigit c || (c =? 95).

(** LineTerminator: LF, CR, LS, PS. *)
Definition isLineTerminator (c : N) : bool :=
  (c =? 10) || (c =? 13) || (c =? 8232) || (c =? 8233).

(** WhiteSpace and LineTerminator: the units of [\s] and the ones [trim] strips. *)
Definition isWhiteSpace (c : N) : bool :=
  (c =? 9) || (c =? 11) || (c =? 12) || (c =? 32) || (c =? 160) ||
  (c =? 5760) || ((8192 <=? c) && (c <=? 8202)) || (c =? 8239) ||
  (c =? 8287) || (c =? 12288) || (c =? 65279) || isLineTerminator c.

(** Case mapping of one unit.  The ASCII range is exact; the Unicode case
    tables are not carried, and units outside ASCII are left as they are. *)
Definition lowerUnit (c : N) : N := if isUpper c then c + 32 else c.
Definition upperUnit (c : N) : N := if isLower c then c - 32 else c.

End Units.

Definition toLowerCase (s : str) : str := map lowerUnit s.
Definition toUpperCase (s : str) : str := map upperUnit s.

Fixpoint str_eqb (a b : str) : bool :=
  match a, b with
  | [], [] => true
  | x :: a', y :: b' => N.eqb x y && str_eqb a' b'
  | _, _ => false
  end.

Fixpoint trimStart (s : str) : str :=
  match s with
  | [] => []
  | c :: r => if isWhiteSpace c then trimStart r else s
  end.

Definition trimEnd (s : str) : str := rev (trimStart (rev s)).
Definition trim (s : str) : str := trimEnd (trimStart s).

Fixpoint startsWith (p s : str) : bool :=
  match p, s with
  | [], _ => true
  | a :: p', b :: s' => N.eqb a b && startsWith p' s'
  | _ :: _, [] => false
  end.

(** [s.indexOf(p)], counting from [i] at the head of [s]. *)
Fixpoint indexOfFrom (p s : str) (i : nat) : option nat :=
  if startsWith p s then Some i
  else match s with
       | [] => None
       | _ :: s' => indexOfFrom p s' (S i)
       end.

Definition indexOf (s p : str) : option nat := indexOfFrom p s 0.

Definition includes (s p : str) : bool :=
  match indexOf s p with Some _ => true | None => false end.

(** [s.substring(a, b)] for [a <= b]. *)
Definition substring (s : str) (a b : nat) : str := firstn (b - a) (skipn a s).

(** [s.replace(pat, rep)] with a string pattern: the first occurrence only.
    [rep] is taken literally, which is what JavaScript does when it holds
    no [$]. *)
Definition replaceStr (s pat rep : str) : str :=
  match indexOf s pat with
  | None => s
  | Some i => firstn i s ++ rep ++ skipn (i + length pat) s
  end.

(** [s.split(sep)] for a one-unit separator. *)
Fixpoint splitUnit (sep : N) (s : str) : list str :=
  match s with
  | [] => [[]]
  | c :: r =>
      if N.eqb c sep then [] :: splitUnit sep r
      else match splitUnit sep r with
           | h :: t => (c :: h) :: t
           | [] => [[c]]
           end
  end.

Definition splitLines (s : str) : list str := splitUnit 10%N s.

Fixpoint join (sep : str) (l : list str) : str :=
  match l with
  | [] => []
  | [x] => x
  | x :: r => x ++ sep ++ join sep r
  end.

(** [s.lastIndexOf(c, from)] for a one-unit needle: the greatest index
    [<= from] holding [c], or -1. *)
Fixpoint lastIndexOfUnit (c : N) (s : str) (i : nat) (from : nat) (acc : Z) : Z :=
  match s with
  | [] => acc
  | x :: r =>
      if (from <? i)%nat then acc
      else lastIndexOfUnit c r (S i) from (if N.eqb x c then Z.of_nat i else acc)
  end.

(** Insertion-ordered sets of strings, as [Set<string>]. *)
Definition setHas (x : str) (s : list str) : bool := existsb (str_eqb x) s.
Definition setAdd (x : str) (s : list str) : list str :=
  if setHas x s then s else s ++ [x].
Definition setOf (l : list str) : list str := fold_left (fun s x => setAdd x s) l [].

(** Insertion-ordered maps with string keys, as [Map<string, V>]. *)
Fixpoint mapGet {V} (k : str) (m : list (str * V)) : option V :=
  match m with
  | [] => None
  | (k', v) :: r => if str_eqb k k' then Some v else mapGet k r
  end.

Fixpoint mapSet {V} (k : str) (v : V) (m : list (str * V)) : list (str * V) :=
  match m with
  | [] => [(k, v)]
  | (k', v') :: r => if str_eqb k k' then (k', v) :: r else (k', v') :: mapSet k v r
  end.

(** Abrupt completions. *)
Inductive exn := TypeError (what : string).

Inductive completion (A : Type) :=
| Return (a : A)
| Throw (e : exn).

Arguments Return {A} a.
Arguments Throw {A} e.

Definition bind {A B} (x : completion A) (f : A -> completion B) : completion B :=
  match x with
  | Return a => f a
  | Throw e => Throw e
  end.

(** [l.map(f)] where [f] may throw. *)
Fixpoint mapM {A B} (f : A -> completion B) (l : list A) : completion (list B) :=
  match l with
  | [] => Return []
  | x :: r => bind (f x) (fun y => bind (mapM f r) (fun ys => Return (y :: ys)))
  end.

End Js.

(* ================================================================== *)
(** ** Regular expressions *)
(* ================================================================== *)

Module Re.
Import Js.

Inductive citem :=
| One (c : N)            (* a single unit *)
| Range (lo hi : N)      (* lo-hi *)
| Word                   (* \w *)
| Space.                 (* \s *)

Inductive regex :=
| Eps
| Chr (c : N)                    (* a pattern character *)
| Dot                            (* .  *)
| Cls (items : list citem)       (* [...]  *)
| NCls (items : list citem)      (* [^...] *)
| Seq (a b : regex)
| Alt (a b : regex)
| Star (r : regex)               (* r*  *)
| StarLazy (r : regex)           (* r*? *)
| Grp (i : nat) (r : regex)      (* the i-th capturing group *)
| Bol                            (* ^  *)
| Eol                            (* $  *)
| WordB.                         (* \b *)

Definition Plus (r : regex) : regex := Seq r (Star r).          (* r+ *)
Definition Opt (r : regex) : regex := Alt r Eps.                (* r? *)
Fixpoint AtLeast (n : nat) (r : regex) : regex :=               (* r{n,} *)
  match n with
  | O => Star r
  | S n' => Seq r (AtLeast n' r)
  end.
Fixpoint Lit (s : str) : regex :=
  match s with
  | [] => Eps
  | c :: r => Seq (Chr c) (Lit r)
  end.
Definition L (s : string) : regex := Lit (u s).

Record flags := { global : bool; ignoreCase : bool; multiline : bool }.

Record RegExp := { source : regex; flag : flags }.

Definition no_flags := {| global := false; ignoreCase := false; multiline := false |}.
Definition fl_g := {| global := true; ignoreCase := false; multiline := false |}.
Definition fl_i := {| global := false; ignoreCase := true; multiline := false |}.
Definition fl_m := {| global := false; ignoreCase := false; multiline := true |}.
Definition fl_im := {| global := false; ignoreCase := true; multiline := true |}.
Definition fl_gm := {| global := true; ignoreCase := false; multiline := true |}.
Definition fl_gim := {| global := true; ignoreCase := true; multiline := true |}.

(** The matcher walks the input with a cursor: the units already passed
    (nearest first) and the units still ahead. *)
Record cursor := { before : str; after : str }.

Definition pos (z : cursor) : nat := length (before z).

Definition cursorAt (s : str) (i : nat) : cursor :=
  {| before := rev (firstn i s); after := skipn i s |}.

(** Captures: group number and the span it matched, latest first. *)
Definition caps := list (nat * (nat * nat)).

Fixpoint capGet (i : nat) (c : caps) : option (nat * nat) :=
  match c with
  | [] => None
  | (j, sp) :: r => if Nat.eqb i j then Some sp else capGet i r
  end.

Definition inItem (x : N) (it : citem) : bool :=
  match it with
  | One c => N.eqb x c
  | Range lo hi => N.leb lo x && N.leb x hi
  | Word => isWordChar x
  | Space => isWhiteSpace x
  end.

Definition inClass (x : N) (items : list citem) : bool := existsb (inItem x) items.

(** Canonicalize (no [u] flag): with [i], units are compared after upper-casing.
    A unit outside ASCII never canonicalizes to an ASCII one, so against the
    ASCII pattern characters of this program the comparison is exact.  No
    pattern of the program combines [i] with a character class. *)
Definition chrMatches (f : flags) (a x : N) : bool :=
  if ignoreCase f then N.eqb (upperUnit a) (upperUnit x) else N.eqb a x.

Definition atBol (f : flags) (z : cursor) : bool :=
  match before z with
  | [] => true
  | p :: _ => multiline f && isLineTerminator p
  end.

Definition atEol (f : flags) (z : cursor) : bool :=
  match after z with
  | [] => true
  | n :: _ => multiline f && isLineTerminator n
  end.

Definition wordBefore (z : cursor) : bool :=
  match before z with [] => false | p :: _ => isWordChar p end.
Definition wordAfter (z : cursor) : bool :=
  match after z with [] => false | n :: _ => isWordChar n end.

Definition atWordB (z : cursor) : bool := xorb (wordBefore z) (wordAfter z).

(** One unit of input accepted by [ok]. *)
Definition step {R} (ok : N -> bool) (z : cursor) (k : cursor -> option R) : option R :=
  match after z with
  | [] => None
  | x :: r => if ok x then k {| before := x :: before z; after := r |} else None
  end.

Section Matcher.
Variable f : flags.
Variable R : Type.

Definition cont := cursor -> caps -> option R.
Definition matcher := cursor -> caps -> cont -> option R.

(** RepeatMatcher with min 0 and no upper bound: an iteration that consumes
    nothing is rejected.  [n] bounds the iterations; the units ahead plus
    one are always enough. *)
Fixpoint repeat (greedy : bool) (body : matcher) (k : cont) (n : nat)
    (z : cursor) (c : caps) : option R :=
  match n with
  | O => k z c
  | S n' =>
      let again (_ : unit) :=
        body z c (fun z' c' =>
          if (length (after z') <? length (after z))%nat
          then repeat greedy body k n' z' c' else None) in
      if greedy then
        match again tt with
        | Some r => Some r
        | None => k z c
        end
      else
        match k z c with
        | Some r => Some r
        | None => again tt
        end
  end.

Fixpoint m (r : regex) : matcher :=
  match r with
  | Eps => fun z c k => k z c
  | Chr a => fun z c k => step (chrMatches f a) z (fun z' => k z' c)
  | Dot => fun z c k => step (fun x => negb (isLineTerminator x)) z (fun z' => k z' c)
  | Cls items => fun z c k => step (fun x => inClass x items) z (fun z' => k z' c)
  | NCls items => fun z c k => step (fun x => negb (inClass x items)) z (fun z' => k z' c)
  | Seq a b => fun z c k => m a z c (fun z' c' => m b z' c' k)
  | Alt a b => fun z c k =>
      match m a z c k with
      | Some r => Some r
      | None => m b z c k
      end
  | Star a => fun z c k => repeat true (m a) k (S (length (after z))) z c
  | StarLazy a => fun z c k => repeat false (m a) k (S (length (after z))) z c
  | Grp i a => fun z c k => m a z c (fun z' c' => k z' ((i, (pos z, pos z')) :: c'))
  | Bol => fun z c k => if atBol f z then k z c else None
  | Eol => fun z c k => if atEol f z then k z c else None
  | WordB => fun z c k => if atWordB z then k z c else None
  end.

End Matcher.

(** A match: where it starts, where it ends, and its captures. *)
Record MatchResult := { index : nat; endIndex : nat; captures : caps }.

(** The pattern tried at the cursor itself. *)
Definition matchAt (re : RegExp) (z : cursor) : option (cursor * caps) :=
  m (flag re) (source re) z [] (fun z' c' => Some (z', c')).

(** The leftmost match at or after the cursor. *)
Fixpoint scan (re : RegExp) (bef aft : str) : option (nat * cursor * caps) :=
  match matchAt re {| before := bef; after := aft |} with
  | Some (z', c) => Some (length bef, z', c)
  | None =>
      match aft with
      | [] => None
      | x :: aft' => scan re (x :: bef) aft'
      end
  end.

Definition result (r : nat * cursor * caps) : MatchResult :=
  let '(i, z, c) := r in {| index := i; endIndex := pos z; captures := c |}.

(** RegExpBuiltinExec: the match, and the value [lastIndex] is left with.
    Without [g] the search starts at 0 and [lastIndex] is not written. *)
Definition exec (re : RegExp) (s : str) (lastIndex : nat) : option MatchResult * nat :=
  let start := if global (flag re) then lastIndex else 0 in
  if (length s <? start)%nat then (None, if global (flag re) then 0 else lastIndex)
  else
    match scan re (rev (firstn start s)) (skipn start s) with
    | None => (None, if global (flag re) then 0 else lastIndex)
    | Some r =>
        (Some (result r), if global (flag re) then endIndex (result r) else lastIndex)
    end.

(** [re.test(s)] on a regular expression whose [lastIndex] is 0. *)
Definition test (re : RegExp) (s : str) : bool :=
  match fst (exec re s 0) with Some _ => true | None => false end.

(** [s.match(re)] without [g]: the first match. *)
Definition matchFirst (re : RegExp) (s : str) : option MatchResult :=
  fst (exec re s 0).

(** All matches, as the [g] loops of [match] and [replace] find them: the
    search resumes where the last match ended, one unit further after an
    empty match. *)
Fixpoint findAllFrom (re : RegExp) (n : nat) (bef aft : str) : list MatchResult :=
  match n with
  | O => []
  | S n' =>
      match scan re bef aft with
      | None => []
      | Some r =>
          let '(i, z, _) := r in
          result r ::
            (if Nat.eqb (pos z) i then
               match after z with
               | [] => []
               | x :: aft' => findAllFrom re n' (x :: before z) aft'
               end
             else findAllFrom re n' (before z) (after z))
      end
  end.

Definition findAll (re : RegExp) (s : str) : list MatchResult :=
  findAllFrom re (length s + 2) [] s.

Definition matched (s : str) (r : MatchResult) : str :=
  substring s (index r) (endIndex r).

(** The text of capture [i]; [None] is JavaScript's [undefined]. *)
Definition group (s : str) (r : MatchResult) (i : nat) : option str :=
  match capGet i (captures r) with
  | Some (a, b) => Some (substring s a b)
  | None => None
  end.

(** [s.match(re)] with [g]: the matched texts ([[]] stands for [null]). *)
Definition matchAll (re : RegExp) (s : str) : list str :=
  map (matched s) (findAll re s).

Fixpoint rebuild (s : str) (rep : MatchResult -> str) (ms : list MatchResult)
    (from : nat) : str :=
  match ms with
  | [] => skipn from s
  | r :: rest => substring s from (index r) ++ rep r ++ rebuild s rep rest (endIndex r)
  end.

(** [s.replace(re, rep)]: every match with [g], the first one without. *)
Definition replace (re : RegExp) (s : str) (rep : MatchResult -> str) : str :=
  if global (flag re) then rebuild s rep (findAll re s) 0
  else match matchFirst re s with
       | None => s
       | Some r => rebuild s rep [r] 0
       end.

(** [s.split(re)] for a pattern without capturing groups. *)
Fixpoint splitFrom (re : RegExp) (s : str) (n : nat) (p q : nat) : list str :=
  match n with
  | O => [substring s p (length s)]
  | S n' =>
      if (length s <=? q)%nat then [substring s p (length s)]
      else
        match matchAt re (cursorAt s q) with
        | None => splitFrom re s n' p (S q)
        | Some (z, _) =>
            let e := Nat.min (pos z) (length s) in
            if Nat.eqb e p then splitFrom re s n' p (S q)
            else substring s p q :: splitFrom re s n' e e
        end
  end.

Definition split (re : RegExp) (s : str) : list str :=
  match s with
  | [] => match matchAt re (cursorAt s 0) with Some _ => [] | None => [s] end
  | _ => splitFrom re s (2 * length s + 2) 0 0
  end.

End Re.

(* ================================================================== *)
(** ** validators/rules.ts *)
(* ================================================================== *)

Module Rules.
Import Js Re.

Inductive Severity := error | warning.

Record ValidationViolation := {
  rule : str;
  message : str;
  severity : Severity
}.

Record ValidationResult := {
  isValid : bool;
  violations : list ValidationViolation
}.

Definition push {A} (l : list A) (x : A) : list A := l ++ [x].

(** [templateSchema.parse]: zod's [z.string().min(1, msg)] rejects exactly the
    strings of length 0, raising a [ZodError] with one issue that carries
    [msg]; the argument is a string by its type. *)
Record ZodIssue := { issueMessage : str }.

Inductive parseOutcome :=
| Parsed
| ZodError (issues : list ZodIssue).

Definition templateSchema_parse (content : str) : parseOutcome :=
  if (1 <=? length content)%nat then Parsed
  else ZodError [ {| issueMessage := u "Template content cannot be empty" |} ].

(** /^ROLE:/im and its siblings *)
Definition re_role := {| source := Seq Bol (L "ROLE:"); flag := fl_im |}.
Definition re_context := {| source := Seq Bol (L "CONTEXT:"); flag := fl_im |}.
Definition re_task := {| source := Seq Bol (L "TASK:"); flag := fl_im |}.
Definition re_format :=
  {| source := Seq Bol (Seq (Grp 1 (Alt (L "FORMAT") (L "OUTPUT"))) (Chr 58));
     flag := fl_im |}.

(** (ROLE|CONTEXT|TASK|FORMAT|OUTPUT) *)
Definition labels : regex :=
  Alt (L "ROLE") (Alt (L "CONTEXT") (Alt (L "TASK") (Alt (L "FORMAT") (L "OUTPUT")))).

(** /^(ROLE|CONTEXT|TASK|FORMAT|OUTPUT):/i *)
Definition re_label_line :=
  {| source := Seq Bol (Seq (Grp 1 labels) (Chr 58)); flag := fl_i |}.

Definition sectionOrder : list str :=
  [u "ROLE"; u "CONTEXT"; u "TASK"; u "FORMAT"; u "OUTPUT"].

(** [a.indexOf(x)] on an array of strings. *)
Fixpoint arrayIndexOf (a : list str) (x : str) (i : Z) : Z :=
  match a with
  | [] => (-1)%Z
  | y :: r => if str_eqb y x then i else arrayIndexOf r x (i + 1)%Z
  end.

(** The callback of [.map] in the section-order check: [match[1].toUpperCase()]
    or [null]. *)
Definition lineSection (line : str) : completion (option str) :=
  match matchFirst re_label_line line with
  | None => Return None
  | Some mt =>
      match group line mt 1 with
      | Some g => Return (Some (toUpperCase g))
      | None => Throw (TypeError "match[1] is undefined")
      end
  end.

Fixpoint keepSome {A} (l : list (option A)) : list A :=
  match l with
  | [] => []
  | Some x :: r => x :: keepSome r
  | None :: r => keepSome r
  end.

(** The [forEach] over the found sections, threading [lastIndex]. *)
Fixpoint orderLoop (found : list str) (lastIndex : Z)
    (violations : list ValidationViolation) : list ValidationViolation :=
  match found with
  | [] => violations
  | section :: rest =>
      let currentIndex := arrayIndexOf sectionOrder section 0 in
      let violations :=
        if (currentIndex <? lastIndex)%Z then
          push violations
            {| rule := u "section-order";
               message := u "Section " ++ section ++
                          u " is out of order. Expected order: " ++
                          join (u ", ") sectionOrder;
               severity := warning |}
        else violations in
      orderLoop rest currentIndex violations
  end.

Definition validateStructure (content : str) (violations : list ValidationViolation)
    : completion (list ValidationViolation) :=
  let role := test re_role content in
  let context := test re_context content in
  let task := test re_task content in
  let format := test re_format content in
  let violations :=
    if negb role then
      push violations {| rule := u "required-sections";
                         message := u "Missing ROLE section";
                         severity := error |}
    else violations in
  let violations :=
    if negb context then
      push violations {| rule := u "required-sections";
                         message := u "Missing CONTEXT section";
                         severity := error |}
    else violations in
  let violations :=
    if negb task then
      push violations {| rule := u "required-sections";
                         message := u "Missing TASK section";
                         severity := error |}
    else violations in
  let violations :=
    if negb format then
      push violations {| rule := u "required-sections";
                         message := u "Missing FORMAT/OUTPUT section";
                         severity := warning |}
    else violations in
  bind (mapM lineSection (splitLines content)) (fun mapped =>
  let foundSections := keepSome mapped in
  Return (orderLoop foundSections (-1)%Z violations)).

(** /[.!?]+/ *)
Definition re_sentence_end :=
  {| source := Plus (Cls [One 46; One 33; One 63]); flag := no_flags |}.

(** /\([^()]*\([^()]*\)[^()]*\)/ *)
Definition re_nestedParens :=
  {| source :=
       Seq (Chr 40) (Seq (Star (NCls [One 40; One 41]))
      (Seq (Chr 40) (Seq (Star (NCls [One 40; One 41]))
      (Seq (Chr 41) (Seq (Star (NCls [One 40; One 41])) (Chr 41))))));
     flag := no_flags |}.

Definition ambiguousTerms : list str :=
  [u "maybe"; u "probably"; u "possibly"; u "might"; u "could"; u "should"; u "would"].

(** new RegExp(`\\b${term}\\b`, 'i'); the terms hold letters only, so the
    pattern text of a term is the term taken literally. *)
Definition re_term (term : str) :=
  {| source := Seq WordB (Seq (Lit term) WordB); flag := fl_i |}.

Definition ambiguousViolation (term : str) : ValidationViolation :=
  {| rule := u "ambiguous-language";
     message := u "Avoid ambiguous terms like " ++ DQ ++ term ++ DQ;
     severity := warning |}.

Fixpoint sentenceLoop (sentences : list str) (violations : list ValidationViolation)
    : list ValidationViolation :=
  match sentences with
  | [] => violations
  | sentence :: rest =>
      sentenceLoop rest
        (if (150 <? length (trim sentence))%nat then
           push violations
             {| rule := u "sentence-length";
                message := u "Sentence exceeds recommended length of 150 characters";
                severity := warning |}
         else violations)
  end.

Fixpoint termLoop (content : str) (terms : list str)
    (violations : list ValidationViolation) : list ValidationViolation :=
  match terms with
  | [] => violations
  | term :: rest =>
      termLoop content rest
        (if test (re_term term) content then push violations (ambiguousViolation term)
         else violations)
  end.

Definition validateContent (content : str) (violations : list ValidationViolation)
    : list ValidationViolation :=
  let sentences := split re_sentence_end content in
  let violations := sentenceLoop sentences violations in
  let violations :=
    if test re_nestedParens content then
      push violations
        {| rule := u "nested-instructions";
           message := u "Avoid nested parentheses in instructions";
           severity := warning |}
    else violations in
  termLoop content ambiguousTerms violations.

(** /{{[^}]+}}/g *)
Definition re_braces :=
  {| source := Seq (L "{{") (Seq (Plus (NCls [One 125])) (L "}}")); flag := fl_g |}.

(** /[[]\w-]+]/g : the class [[[]] holds the opening bracket alone and ends
    at the first closing bracket; after it come one [\w], one hyphen, the
    closing bracket that the [+] repeats, and one more closing bracket. *)
Definition re_brackets :=
  {| source :=
       Seq (Cls [One 91])
           (Seq (Cls [Word]) (Seq (Chr 45) (Seq (Plus (Chr 93)) (Chr 93))));
     flag := fl_g |}.

(** /\${[\w-]+}/g *)
Definition re_dollar :=
  {| source := Seq (Chr 36) (Seq (Chr 123) (Seq (Plus (Cls [Word; One 45])) (Chr 125)));
     flag := fl_g |}.

Definition variableFormats : list RegExp := [re_braces; re_brackets; re_dollar].

(** /^{{[\w-]+}}$/ *)
Definition re_canonical :=
  {| source := Seq Bol (Seq (L "{{") (Seq (Plus (Cls [Word; One 45])) (Seq (L "}}") Eol)));
     flag := no_flags |}.

Fixpoint variableLoop (variables : list str) (violations : list ValidationViolation)
    : list ValidationViolation :=
  match variables with
  | [] => violations
  | variable :: rest =>
      variableLoop rest
        (if negb (test re_canonical variable) then
           push violations
             {| rule := u "variable-naming";
                message := u "Invalid variable format: " ++ variable ++
                           u ". Use alphanumeric characters and hyphens only";
                severity := error |}
         else violations)
  end.

Definition validateVariables (content : str) (violations : list ValidationViolation)
    : list ValidationViolation :=
  let foundFormats :=
    filter (fun count => (0 <? count)%nat)
           (map (fun format => length (matchAll format content)) variableFormats) in
  let violations :=
    if (1 <? length foundFormats)%nat then
      push violations
        {| rule := u "variable-format";
           message := u "Inconsistent variable formats detected. Use {{variableName}} format consistently";
           severity := error |}
    else violations in
  let variables := matchAll re_braces content in
  let uniqueVars := setOf (map toLowerCase variables) in
  let violations := variableLoop variables violations in
  if Nat.eqb (length uniqueVars) 0 && (500 <? length content)%nat then
    push violations
      {| rule := u "variable-usage";
         message := u "Consider using variables for dynamic content in longer templates";
         severity := warning |}
  else violations.

(** The bullet class as the file has it: hyphen, asterisk and the three
    units U+00E2, U+20AC, U+00A2. *)
Definition bulletClass : list citem := [One 45; One 42; One 226; One 8364; One 162].

(** /^[-*...]\s/gm *)
Definition re_bullet :=
  {| source := Seq Bol (Seq (Cls bulletClass) (Cls [Space])); flag := fl_gm |}.

(** /^(ROLE|CONTEXT|TASK|FORMAT|OUTPUT):/gim *)
Definition re_headers :=
  {| source := Seq Bol (Seq (Grp 1 labels) (Chr 58)); flag := fl_gim |}.

(** /\n{3,}/g *)
Definition re_blank_run := {| source := AtLeast 3 (Chr 10); flag := fl_g |}.

(** /[ \t]+$/m *)
Definition re_trailing :=
  {| source := Seq (Plus (Cls [One 32; One 9])) Eol; flag := fl_m |}.

Definition validateFormat (content : str) (violations : list ValidationViolation)
    : list ValidationViolation :=
  let bulletStyles := setOf (map (firstn 1) (matchAll re_bullet content)) in
  let violations :=
    if (1 <? length bulletStyles)%nat then
      push violations
        {| rule := u "bullet-consistency";
           message := u "Use consistent bullet point style throughout the template";
           severity := warning |}
    else violations in
  let sectionHeaders := matchAll re_headers content in
  let inconsistentCase :=
    existsb (fun header => negb (str_eqb header (toUpperCase header))) sectionHeaders in
  let violations :=
    if inconsistentCase then
      push violations
        {| rule := u "section-case";
           message := u "Use consistent uppercase for section headers (ROLE:, CONTEXT:, etc.)";
           severity := warning |}
    else violations in
  let sectionSpacing := matchAll re_blank_run content in
  let violations :=
    match sectionSpacing with
    | _ :: _ =>
        push violations
          {| rule := u "section-spacing";
             message := u "Use exactly one blank line between sections";
             severity := warning |}
    | [] => violations
    end in
  if test re_trailing content then
    push violations
      {| rule := u "trailing-whitespace";
         message := u "Remove trailing whitespace";
         severity := warning |}
  else violations.

Definition validateTemplate (content : str) : completion ValidationResult :=
  let violations : list ValidationViolation := [] in
  bind
    (match templateSchema_parse content with
     | Parsed => Return violations
     | ZodError issues =>
         match nth_error issues 0 with
         | Some i =>
             Return (push violations
                       {| rule := u "schema"; message := issueMessage i; severity := error |})
         | None => Throw (TypeError "error.issues[0] is undefined")
         end
     end)
    (fun violations =>
  bind (validateStructure content violations) (fun violations =>
  let violations := validateContent content violations in
  let violations := validateVariables content violations in
  let violations := validateFormat content violations in
  Return {| isValid := Nat.eqb (length violations) 0; violations := violations |})).

End Rules.

(* ================================================================== *)
(** ** analyzers/structure.ts *)
(* ================================================================== *)

Module Structure.
Import Js Re.

(** JavaScript numbers are binary64 floats. *)
Definition num (n : nat) : float := PrimFloat.of_uint63 (Uint63.of_Z (Z.of_nat n)).

(** [Math.min] and [Math.max] on numbers that are not NaN. *)
Definition mathMin (a b : float) : float := if PrimFloat.ltb b a then b else a.
Definition mathMax (a b : float) : float := if PrimFloat.ltb a b then b else a.

Record StructureFlags := {
  hasRole : bool;
  hasContext : bool;
  hasTask : bool;
  hasResponseFormat : bool
}.

Record Quality := {
  clarity : float;
  conciseness : float;
  consistency : float
}.

Record TemplateAnalysis := {
  structure : StructureFlags;
  quality : Quality;
  suggestions : list str
}.

(** The two named keys of [TemplateMetadata]; its other keys are never read. *)
Record TemplateMetadata := {
  type : option str;
  version : option str
}.

(** /[.!?]+/ *)
Definition re_sentence_end :=
  {| source := Plus (Cls [One 46; One 33; One 63]); flag := no_flags |}.

(** /\([^()]*\)/g *)
Definition re_paren_group :=
  {| source := Seq (Chr 40) (Seq (Star (NCls [One 40; One 41])) (Chr 41)); flag := fl_g |}.

(** /^[A-Z]+:/m *)
Definition re_marker :=
  {| source := Seq Bol (Seq (Plus (Cls [Range 65 90])) (Chr 58)); flag := fl_m |}.

Definition sumLengths (l : list str) : nat :=
  fold_left (fun sum s => sum + length s) l 0.

Section Scores.
Open Scope float_scope.

Definition calculateClarity (content : str) : float :=
  let score := 1.0 in
  let sentences := split re_sentence_end content in
  let avgSentenceLength := num (sumLengths sentences) / num (length sentences) in
  let score := if PrimFloat.ltb 100 avgSentenceLength then score - 0.2 else score in
  let score := if PrimFloat.ltb 150 avgSentenceLength then score - 0.3 else score in
  let nestedCount := length (matchAll re_paren_group content) in
  let score := score - num nestedCount * 0.1 in
  let hasMarkers := test re_marker content in
  let score := if hasMarkers then score + 0.2 else score in
  mathMax 0 (mathMin 1 score).

(** /\s+/ *)
Definition re_spaces := {| source := Plus (Cls [Space]); flag := no_flags |}.

(** [words.forEach(word => wordFreq.set(word, (wordFreq.get(word) || 0) + 1))] *)
Definition countWords (words : list str) : list (str * nat) :=
  fold_left
    (fun wordFreq word =>
       mapSet word (match mapGet word wordFreq with Some n => n | None => 0 end + 1)%nat
              wordFreq)
    words [].

Definition calculateConciseness (content : str) : float :=
  let score := 1.0 in
  let words := split re_spaces (toLowerCase content) in
  let wordFreq := countWords words in
  let repetitiveWords :=
    length (filter (fun freq => (3 <? freq)%nat) (map snd wordFreq)) in
  let score := score - num repetitiveWords * 0.1 in
  let score := if (500 <? length content)%nat then score - 0.2 else score in
  let score := if (1000 <? length content)%nat then score - 0.3 else score in
  mathMax 0 (mathMin 1 score).

(** /\b(is|are|am)\b/g and /\b(was|were)\b/g *)
Definition re_presentTense :=
  {| source := Seq WordB (Seq (Grp 1 (Alt (L "is") (Alt (L "are") (L "am")))) WordB);
     flag := fl_g |}.
Definition re_pastTense :=
  {| source := Seq WordB (Seq (Grp 1 (Alt (L "was") (L "were"))) WordB); flag := fl_g |}.

(** /^[-*...]/gm, the class as the file has it: hyphen, asterisk and the
    three units U+00E2, U+20AC, U+00A2. *)
Definition re_bullet :=
  {| source := Seq Bol (Cls [One 45; One 42; One 226; One 8364; One 162]); flag := fl_gm |}.

Definition calculateConsistency (content : str) : float :=
  let score := 1.0 in
  let presentCount := length (matchAll re_presentTense content) in
  let pastCount := length (matchAll re_pastTense content) in
  let score :=
    if (0 <? presentCount)%nat && (0 <? pastCount)%nat then score - 0.2 else score in
  let bulletStyles := setOf (matchAll re_bullet content) in
  let score := if (1 <? length bulletStyles)%nat then score - 0.2 else score in
  mathMax 0 (mathMin 1 score).

End Scores.

(** /{{[^}]+}}/g *)
Definition re_braces :=
  {| source := Seq (L "{{") (Seq (Plus (NCls [One 125])) (L "}}")); flag := fl_g |}.

Definition analyzeTemplate (content : str) (metadata : option TemplateMetadata)
    : TemplateAnalysis :=
  let structure :=
    {| hasRole := includes (toLowerCase content) (u "role:");
       hasContext := includes (toLowerCase content) (u "context:");
       hasTask := includes (toLowerCase content) (u "task:");
       hasResponseFormat :=
         includes (toLowerCase content) (u "format:") ||
         includes (toLowerCase content) (u "output:") |} in
  let quality :=
    {| clarity := calculateClarity content;
       conciseness := calculateConciseness content;
       consistency := calculateConsistency content |} in
  let suggestions : list str := [] in
  let suggestions :=
    if negb (hasRole structure) then
      suggestions ++ [u "Add a clear role definition using " ++ DQ ++ u "ROLE:" ++ DQ ++ u " section"]
    else suggestions in
  let suggestions :=
    if negb (hasContext structure) then
      suggestions ++ [u "Include context information using " ++ DQ ++ u "CONTEXT:" ++ DQ ++ u " section"]
    else suggestions in
  let suggestions :=
    if negb (hasTask structure) then
      suggestions ++ [u "Specify the task using " ++ DQ ++ u "TASK:" ++ DQ ++ u " section"]
    else suggestions in
  let suggestions :=
    if negb (hasResponseFormat structure) then
      suggestions ++ [u "Define expected response format using " ++ DQ ++ u "FORMAT:" ++ DQ ++
                      u " or " ++ DQ ++ u "OUTPUT:" ++ DQ ++ u " section"]
    else suggestions in
  let variables := matchAll re_braces content in
  let suggestions :=
    match variables with
    | [] =>
        suggestions ++
        [u "Consider using template variables (e.g., {{variableName}}) for dynamic content"]
    | _ :: _ => suggestions
    end in
  let suggestions :=
    match metadata with
    | Some md =>
        match type md with
        | Some t =>
            if str_eqb t (u "conversation") then
              suggestions ++
              [u "For conversation templates, consider adding turn-taking markers or conversation flow indicators"]
            else suggestions
        | None => suggestions
        end
    | None => suggestions
    end in
  {| structure := structure; quality := quality; suggestions := suggestions |}.

End Structure.

(* ================================================================== *)
(** ** types.ts *)
(* ================================================================== *)

Module Types.
Import Js.

(** [details] is a [Record<string, any>]; each analyzer fills it with its own
    fields, which is the parameter [D]. *)
Record AnalysisResult (D : Type) := {
  score : Z;
  issues : list str;
  suggestions : list str;
  details : D
}.

Inductive Severity := error | warning | info.

Record PatternMatch := {
  pattern : str;
  line : nat;
  column : Z;
  severity : Severity;
  message : str
}.

End Types.

(* ================================================================== *)
(** ** analyzers/content.ts *)
(* ================================================================== *)

Module Content.
Import Js Re Types.

Record ContentDetails := {
  avgWordsPerSentence : float;
  complexWordCount : nat
}.

(** /[.!?]+/ and /\s+/ *)
Definition re_sentence_end :=
  {| source := Plus (Cls [One 46; One 33; One 63]); flag := no_flags |}.
Definition re_spaces := {| source := Plus (Cls [Space]); flag := no_flags |}.

(** /\b\w{15,}\b/g *)
Definition re_complexWord :=
  {| source := Seq WordB (Seq (AtLeast 15 (Cls [Word])) WordB); flag := fl_g |}.

Definition vagueTerms : list str := [u "etc"; u "and so on"; u "things"; u "stuff"].

Fixpoint vagueLoop (content : str) (terms : list str) (acc : list str * list str)
    : list str * list str :=
  match terms with
  | [] => acc
  | term :: rest =>
      vagueLoop content rest
        (if includes (toLowerCase content) term then
           (fst acc ++ [u "Contains vague term: " ++ DQ ++ term ++ DQ],
            snd acc ++ [u "Be more specific and explicit"])
         else acc)
  end.

Definition analyzeContent (content : str) : AnalysisResult ContentDetails :=
  let issues : list str := [] in
  let suggestions : list str := [] in
  let '(issues, suggestions) :=
    if includes (toLowerCase content) (u "you must") ||
       includes (toLowerCase content) (u "you should")
    then (issues ++ [u "Tone is too prescriptive"],
          suggestions ++ [u "Consider using more collaborative language"])
    else (issues, suggestions) in
  let avgWordsPerSentence :=
    (Structure.num
       (fold_left (fun a b => (a + b)%nat)
          (map (fun s => length (split re_spaces (trim s))) (split re_sentence_end content)) 0%nat)
     / Structure.num (length (split re_sentence_end content)))%float in
  let '(issues, suggestions) :=
    if PrimFloat.ltb 25 avgWordsPerSentence
    then (issues ++ [u "Sentences are too long"],
          suggestions ++ [u "Break down long sentences into smaller, clearer statements"])
    else (issues, suggestions) in
  let complexWords := matchAll re_complexWord content in
  let '(issues, suggestions) :=
    if (0 <? length complexWords)%nat
    then (issues ++ [u "Contains complex or technical jargon"],
          suggestions ++ [u "Consider using simpler, more accessible language"])
    else (issues, suggestions) in
  let '(issues, suggestions) := vagueLoop content vagueTerms (issues, suggestions) in
  {| score := Z.max 0 (100 - Z.of_nat (length issues) * 10);
     issues := issues;
     suggestions := suggestions;
     details := {| avgWordsPerSentence := avgWordsPerSentence;
                   complexWordCount := length complexWords |} |}.

End Content.

(* ================================================================== *)
(** ** analyzers/patterns.ts *)
(* ================================================================== *)

Module Patterns.
Import Js Re Types.

(** One entry of the catalogues: the regular expression, the text
    [pattern.toString()] gives for it, its severity and its message. *)
Record PatternRule := {
  rx : RegExp;
  text : str;
  sev : Severity;
  msg : str
}.

Definition severityName (s : Severity) : str :=
  match s with
  | error => u "error"
  | warning => u "warning"
  | info => u "info"
  end.

Definition ANTI_PATTERNS : list PatternRule :=
  [ {| rx := {| source := Seq (L "{{") (Seq (StarLazy Dot) (L "}}")); flag := fl_g |};
       text := u "/\{\{.*?\}\}/g";
       sev := error;
       msg := u "Mustache-style templating syntax detected - use proper TypeScript string interpolation" |};
    {| rx := {| source := Seq (Chr 36) (Seq (Chr 123) (Seq (Plus (NCls [One 125])) (Chr 125)));
                flag := fl_g |};
       text := u "/\$\{[^}]+\}/g";
       sev := warning;
       msg := u "String interpolation should be used sparingly in templates" |};
    {| rx := {| source := Seq WordB (Seq (Grp 1 (Alt (L "var") (L "let"))) WordB);
                flag := fl_g |};
       text := u "/\b(var|let)\b/g";
       sev := warning;
       msg := u "Prefer const for template variables unless reassignment is necessary" |};
    {| rx := {| source := Seq WordB (Seq (Grp 1 (L "any")) WordB); flag := fl_g |};
       text := u "/\b(any)\b/g";
       sev := error;
       msg := u "Avoid using " ++ DQ ++ u "any" ++ DQ ++
              u " type - specify proper types for template variables" |};
    {| rx := {| source :=
                  Seq WordB (Seq (L "console.")
                 (Seq (Grp 1 (Alt (L "log") (Alt (L "warn") (L "error")))) WordB));
                flag := fl_g |};
       text := u "/\bconsole\.(log|warn|error)\b/g";
       sev := warning;
       msg := u "Remove debug console statements from template" |} ].

Definition FORMATTING_PATTERNS : list PatternRule :=
  [ {| rx := {| source :=
                  Seq Bol (Seq (Star (Cls [Space])) (Seq (Chr 10)
                 (Seq (Star (Cls [Space])) (Seq (Chr 10)
                 (Seq (Star (Cls [Space])) (Chr 10))))));
                flag := fl_gm |};
       text := u "/^\s*\n\s*\n\s*\n/gm";
       sev := warning;
       msg := u "Multiple consecutive blank lines detected" |};
    {| rx := {| source := Chr 9; flag := fl_g |};
       text := u "/\t/g";
       sev := warning;
       msg := u "Use spaces for indentation instead of tabs" |};
    {| rx := {| source := Seq (Plus (Cls [Space])) Eol; flag := fl_gm |};
       text := u "/\s+$/gm";
       sev := info;
       msg := u "Trailing whitespace detected" |};
    {| rx := {| source := Seq (NCls [One 10]) (Seq (Opt (Chr 10)) Eol); flag := no_flags |};
       text := u "/[^\n]\n?$/";
       sev := info;
       msg := u "File should end with a newline" |} ].

(** What the loops accumulate. *)
Record Acc := {
  accIssues : list str;
  accSuggestions : list str;
  accMatches : list PatternMatch
}.

(** The body of [while ((match = pattern.pattern.exec(content)) !== null)]. *)
Definition record (content : str) (p : PatternRule) (suggest : PatternRule -> str)
    (mt : MatchResult) (a : Acc) : Acc :=
  let lines := splitLines (firstn (index mt) content) in
  let matches :=
    accMatches a ++
    [ {| pattern := text p;
         line := length lines;
         column := (Z.of_nat (index mt) - lastIndexOfUnit 10%N content 0 (index mt) (-1))%Z;
         severity := sev p;
         message := msg p |} ] in
  if negb (setHas (msg p) (accIssues a)) then
    {| accIssues := accIssues a ++ [msg p];
       accSuggestions := accSuggestions a ++ [suggest p];
       accMatches := matches |}
  else
    {| accIssues := accIssues a; accSuggestions := accSuggestions a; accMatches := matches |}.

(** The [while] loop over one pattern.  [lastIndex] is the field of the
    pattern's regular expression object, which [exec] reads and writes;
    [n] bounds the iterations, and [None] means that the loop is still
    running after [n] of them. *)
Fixpoint execLoop (n : nat) (content : str) (p : PatternRule)
    (suggest : PatternRule -> str) (lastIndex : nat) (a : Acc) : option Acc :=
  match n with
  | O => None
  | S n' =>
      match exec (rx p) content lastIndex with
      | (None, _) => Some a
      | (Some mt, lastIndex') =>
          execLoop n' content p suggest lastIndex' (record content p suggest mt a)
      end
  end.

(** [for (const pattern of catalogue)]; every regular expression object
    enters with [lastIndex] 0, where a loop that came to its end leaves it. *)
Fixpoint forPatterns (n : nat) (content : str) (catalogue : list PatternRule)
    (suggest : PatternRule -> str) (a : Acc) : option Acc :=
  match catalogue with
  | [] => Some a
  | p :: rest =>
      match execLoop n content p suggest 0 a with
      | None => None
      | Some a' => forPatterns n content rest suggest a'
      end
  end.

Definition countSeverity (s : Severity) (ms : list PatternMatch) : Z :=
  Z.of_nat (length (filter (fun mt =>
    match severity mt, s with
    | error, error | warning, warning | info, info => true
    | _, _ => false
    end) ms)).

Record PatternDetails := { patternMatches : list PatternMatch }.

Definition analyzePatterns (n : nat) (content : str)
    : option (AnalysisResult PatternDetails) :=
  let a := {| accIssues := []; accSuggestions := []; accMatches := [] |} in
  match forPatterns n content ANTI_PATTERNS
          (fun p => u "Fix " ++ severityName (sev p) ++ u ": " ++ msg p) a with
  | None => None
  | Some a =>
      match forPatterns n content FORMATTING_PATTERNS
              (fun p => u "Fix formatting: " ++ msg p) a with
      | None => None
      | Some a =>
          let matches := accMatches a in
          Some {| score := Z.max 0 (100 - countSeverity error matches * 15
                                        - countSeverity warning matches * 5
                                        - countSeverity info matches * 2);
                  issues := accIssues a;
                  suggestions := accSuggestions a;
                  details := {| patternMatches := matches |} |}
      end
  end.

End Patterns.

(* ================================================================== *)
(** ** enhancers/optimizer.ts *)
(* ================================================================== *)

Module Optimizer.
Import Js Re.

Record EnhancementResult := {
  enhancedContent : str;
  changes : list str;
  originalContent : str
}.

Record Sections := {
  role : bool;
  context : bool;
  task : bool;
  format : bool
}.

(** (ROLE|CONTEXT|TASK|FORMAT|OUTPUT) *)
Definition labels : regex :=
  Alt (L "ROLE") (Alt (L "CONTEXT") (Alt (L "TASK") (Alt (L "FORMAT") (L "OUTPUT")))).

Definition identifySections (content : str) : Sections :=
  {| role := test {| source := Seq Bol (L "ROLE:"); flag := fl_im |} content;
     context := test {| source := Seq Bol (L "CONTEXT:"); flag := fl_im |} content;
     task := test {| source := Seq Bol (L "TASK:"); flag := fl_im |} content;
     format :=
       test {| source := Seq Bol (Seq (Grp 1 (Alt (L "FORMAT") (L "OUTPUT"))) (Chr 58));
               flag := fl_im |} content |}.

Definition inferRole (content : str) : str :=
  let text := toLowerCase content in
  if includes text (u "review") || includes text (u "analyze") then
    u "reviewing and analyzing content"
  else if includes text (u "create") || includes text (u "generate") then
    u "creating and generating content"
  else if includes text (u "improve") || includes text (u "enhance") then
    u "improving and enhancing content"
  else if includes text (u "explain") || includes text (u "teach") then
    u "explaining concepts and teaching"
  else u "assisting with the specified task".

(** new RegExp(`(^${section}.*?\n)`, 'm'); the section text passed by the one
    caller, [ROLE:], holds no pattern syntax. *)
Definition insertAfterSection (content section insertion : str) : str :=
  let regex :=
    {| source := Grp 1 (Seq Bol (Seq (Lit section) (Seq (StarLazy Dot) (Chr 10))));
       flag := fl_m |} in
  match matchFirst regex content with
  | Some _ =>
      replace regex content
        (fun mt => match group content mt 1 with Some g => g | None => [] end
                   ++ LF ++ insertion)
  | None => content
  end.

Definition addMissingSections (content : str) (sections : Sections) (changes : list str)
    : completion (str * list str) :=
  let enhanced := content in
  if negb (role sections) && negb (context sections) && negb (task sections)
     && negb (format sections) then
    let lines := splitLines (trim content) in
    match nth_error lines 0 with
    | None => Throw (TypeError "lines[0] is undefined")
    | Some line0 =>
        let enhanced :=
          u "ROLE: You are an AI assistant tasked with " ++ inferRole line0 ++ LF ++ LF ++
          u "CONTEXT: " ++ join (u " ") (firstn (Nat.min 3 (length lines)) lines) ++ LF ++ LF ++
          u "TASK: " ++ join (u " ") (skipn (Nat.min 3 (length lines)) lines) ++ LF ++ LF ++
          u "FORMAT: Provide your response in a clear, structured manner." in
        Return
          (enhanced,
           changes ++ [u "Added basic template structure (ROLE, CONTEXT, TASK, FORMAT sections)"])
    end
  else
    let '(enhanced, changes) :=
      if negb (role sections) then
        (u "ROLE: You are an AI assistant tasked with " ++ inferRole content ++ LF ++ LF ++
         enhanced,
         changes ++ [u "Added missing ROLE section"])
      else (enhanced, changes) in
    let '(enhanced, changes) :=
      if negb (context sections) then
        let insertion :=
          u "CONTEXT: Working with the following information and requirements." ++ LF ++ LF in
        (insertAfterSection enhanced (u "ROLE:") insertion,
         changes ++ [u "Added missing CONTEXT section"])
      else (enhanced, changes) in
    let '(enhanced, changes) :=
      if negb (task sections) then
        (trim enhanced ++ LF ++ LF ++ u "TASK: Complete the following objectives." ++ LF,
         changes ++ [u "Added missing TASK section"])
      else (enhanced, changes) in
    let '(enhanced, changes) :=
      if negb (format sections) then
        (trim enhanced ++ LF ++ LF ++
         u "FORMAT: Provide your response in a clear, structured manner." ++ LF,
         changes ++ [u "Added missing FORMAT section"])
      else (enhanced, changes) in
    Return (enhanced, changes).

(** /{{[^}]+}}|\[[\w-]+]|\${[\w-]+}/g *)
Definition re_variables :=
  {| source :=
       Alt (Seq (L "{{") (Seq (Plus (NCls [One 125])) (L "}}")))
      (Alt (Seq (Chr 91) (Seq (Plus (Cls [Word; One 45])) (Chr 93)))
           (Seq (Chr 36) (Seq (Chr 123) (Seq (Plus (Cls [Word; One 45])) (Chr 125)))));
     flag := fl_g |}.

(** /[{}\[\]$]/g and /\s+/g *)
Definition re_delims :=
  {| source := Cls [One 123; One 125; One 91; One 93; One 36]; flag := fl_g |}.
Definition re_spaces_g := {| source := Plus (Cls [Space]); flag := fl_g |}.

Definition cleanName (variable : str) : str :=
  replace re_spaces_g (trim (replace re_delims variable (fun _ => []))) (fun _ => u "_").

Definition normalizedVar (variable : str) : str :=
  u "{{" ++ cleanName variable ++ u "}}".

(** The [forEach] over the variables found, threading [enhanced] and the
    [normalized] map. *)
Fixpoint normalizeLoop (variables : list str) (enhanced : str)
    (normalized : list (str * str)) : str * list (str * str) :=
  match variables with
  | [] => (enhanced, normalized)
  | variable :: rest =>
      if negb (str_eqb variable (normalizedVar variable)) then
        normalizeLoop rest
          (replaceStr enhanced variable (normalizedVar variable))
          (mapSet variable (normalizedVar variable) normalized)
      else normalizeLoop rest enhanced normalized
  end.

(** U+2192, the arrow of the change log. *)
Definition ARROW : str := [8594%N].

Definition formatTemplateVariables (content : str) (changes : list str)
    : str * list str :=
  let variables := matchAll re_variables content in
  if Nat.eqb (length variables) 0 then (content, changes)
  else
    let '(enhanced, normalized) := normalizeLoop variables content [] in
    let changes :=
      if (0 <? length normalized)%nat then
        changes ++
        [u "Normalized variable format to {{variableName}} style: " ++
         join (u ", ")
              (map (fun e => fst e ++ u " " ++ ARROW ++ u " " ++ snd e) normalized)]
      else changes in
    (enhanced, changes).

(** /^(role|context|task|format|output):/gim *)
Definition re_headers :=
  {| source :=
       Seq Bol (Seq (Grp 1 (Alt (L "role") (Alt (L "context") (Alt (L "task")
                                (Alt (L "format") (L "output")))))) (Chr 58));
     flag := fl_gim |}.

(** /([^\n])\n(ROLE|CONTEXT|TASK|FORMAT|OUTPUT):/g *)
Definition re_tight :=
  {| source := Seq (Grp 1 (NCls [One 10])) (Seq (Chr 10) (Seq (Grp 2 labels) (Chr 58)));
     flag := fl_g |}.

(** /^[-*•]/m and /^[-*•]\s*/gm *)
Definition bulletClass : list citem := [One 45; One 42; One 8226].
Definition re_hasBullets := {| source := Seq Bol (Cls bulletClass); flag := fl_m |}.
Definition re_bullets :=
  {| source := Seq Bol (Seq (Cls bulletClass) (Star (Cls [Space]))); flag := fl_gm |}.

(** /[ \t]+$/gm *)
Definition re_trailing :=
  {| source := Seq (Plus (Cls [One 32; One 9])) Eol; flag := fl_gm |}.

Definition capture (s : str) (mt : MatchResult) (i : nat) : str :=
  match group s mt i with Some g => g | None => [] end.

Definition improveFormatting (content : str) (changes : list str) : str * list str :=
  let enhanced := content in
  let enhanced := replace re_headers enhanced (fun mt => toUpperCase (matched enhanced mt)) in
  let enhanced :=
    replace re_tight enhanced
      (fun mt => capture enhanced mt 1 ++ LF ++ LF ++ capture enhanced mt 2 ++ u ":") in
  let hasBullets := test re_hasBullets enhanced in
  let '(enhanced, changes) :=
    if hasBullets then
      (replace re_bullets enhanced (fun _ => u "- "),
       changes ++ [u "Standardized bullet point format to " ++ DQ ++ u "-" ++ DQ])
    else (enhanced, changes) in
  let trimmed := replace re_trailing enhanced (fun _ => []) in
  if negb (str_eqb trimmed enhanced) then
    (trimmed, changes ++ [u "Removed trailing whitespace"])
  else (enhanced, changes).

(** /^(ROLE|CONTEXT|TASK|FORMAT|OUTPUT):/i *)
Definition re_label_line :=
  {| source := Seq Bol (Seq (Grp 1 labels) (Chr 58)); flag := fl_i |}.

(** The callback of [lines.filter], threading the two sets. *)
Fixpoint filterLoop (lines : list str) (uniqueLines duplicates : list str)
    : list str * list str :=
  match lines with
  | [] => ([], duplicates)
  | line :: rest =>
      let normalized := toLowerCase (trim line) in
      if Nat.eqb (length normalized) 0 || test re_label_line normalized then
        let '(kept, duplicates) := filterLoop rest uniqueLines duplicates in
        (line :: kept, duplicates)
      else if setHas normalized uniqueLines then
        filterLoop rest uniqueLines (setAdd normalized duplicates)
      else
        let '(kept, duplicates) :=
          filterLoop rest (setAdd normalized uniqueLines) duplicates in
        (line :: kept, duplicates)
  end.

(** Number to string, for the count in the change log. *)
Definition numberToString (n : nat) : str :=
  u (DecimalString.NilEmpty.string_of_uint (Nat.to_uint n)).

Definition removeRedundancies (content : str) (changes : list str) : str * list str :=
  let enhanced := content in
  let lines := splitLines enhanced in
  let '(filtered, duplicates) := filterLoop lines [] [] in
  if (0 <? length duplicates)%nat then
    (join LF filtered,
     changes ++ [u "Removed " ++ numberToString (length duplicates) ++
                 u " duplicate instruction(s)"])
  else (enhanced, changes).

Definition enhanceTemplate (content : str) : completion EnhancementResult :=
  let originalContent := content in
  let enhancedContent := content in
  let changes : list str := [] in
  let sections := identifySections content in
  bind (addMissingSections enhancedContent sections changes) (fun '(enhancedContent, changes) =>
  let '(enhancedContent, changes) := formatTemplateVariables enhancedContent changes in
  let '(enhancedContent, changes) := improveFormatting enhancedContent changes in
  let '(enhancedContent, changes) := removeRedundancies enhancedContent changes in
  Return {| enhancedContent := enhancedContent;
            changes := changes;
            originalContent := originalContent |}).

End Optimizer.

(* ================================================================== *)
(** ** index.ts: the three operations *)
(* ================================================================== *)

Module Server.
Import Js.

(** The result of [analyze_template]: the structure analysis spread, with
    the content and pattern analyses under [content] and [patterns]. *)
Record Analysis := {
  structureAnalysis : Structure.TemplateAnalysis;
  content : Types.AnalysisResult Content.ContentDetails;
  patterns : Types.AnalysisResult Patterns.PatternDetails
}.

(** [n] bounds the iterations of each loop of the pattern analysis; [None]
    means that one of them is still running. *)
Definition analyze (n : nat) (template : str) : option Analysis :=
  let structureAnalysis := Structure.analyzeTemplate template None in
  let contentAnalysis := Content.analyzeContent template in
  match Patterns.analyzePatterns n template with
  | None => None
  | Some patternAnalysis =>
      Some {| structureAnalysis := structureAnalysis;
              content := contentAnalysis;
              patterns := patternAnalysis |}
  end.

Definition enhance (template : str) : completion Optimizer.EnhancementResult :=
  Optimizer.enhanceTemplate template.

Definition validate (template : str) : completion Rules.ValidationResult :=
  Rules.validateTemplate template.

End Server.

(* ================================================================== *)
(** ** index.ts: main *)
(* ================================================================== *)

Module Main.
Import Js.

(** The [template] field of the parsed input, as far as [main] looks at it. *)
Inductive Template :=
| Missing             (* absent, or a falsy value that is not a string *)
| NotAString          (* a truthy value that is not a string *)
| Text (s : str).

(** Standard input after [JSON.parse]. *)
Inductive Input :=
| Unreadable (message : str)   (* parsing, or reading the field, threw this message *)
| Object (template : Template).

Inductive Result :=
| Analyzed (a : Server.Analysis)
| Enhanced (r : Optimizer.EnhancementResult)
| Validated (r : Rules.ValidationResult).

(** What the process leaves: the result written to standard output, or a
    line on standard error with exit code 1. *)
Inductive Outcome :=
| Written (r : Result)
| Failed (stderr : str).

Definition mcpError (message : str) : Outcome :=
  Failed (u "MCP Error: " ++ message ++ LF).

Definition thrown (e : exn) : str :=
  match e with TypeError what => u what end.

(** [n] bounds the loops of the pattern analysis, as in [Server.analyze]. *)
Definition main (n : nat) (mode : option str) (input : Input) : option Outcome :=
  match mode with
  | None | Some [] =>
      Some (Failed (u "Error: No command provided. Expected one of: analyze_template, enhance_template, validate_template" ++ LF))
  | Some mode =>
      match input with
      | Unreadable message => Some (mcpError message)
      | Object Missing | Object NotAString | Object (Text []) =>
          Some (mcpError (u "Invalid input: expected JSON with a " ++ DQ ++
                          u "template" ++ DQ ++ u " field"))
      | Object (Text template) =>
          if str_eqb mode (u "analyze_template") then
            match Server.analyze n template with
            | None => None
            | Some a => Some (Written (Analyzed a))
            end
          else if str_eqb mode (u "enhance_template") then
            match Server.enhance template with
            | Return r => Some (Written (Enhanced r))
            | Throw e => Some (mcpError (thrown e))
            end
          else if str_eqb mode (u "validate_template") then
            match Server.validate template with
            | Return r => Some (Written (Validated r))
            | Throw e => Some (mcpError (thrown e))
            end
          else Some (mcpError (u "Unknown command: " ++ mode))
      end
  end.

End Main.

(* ================================================================== *)
(** ** What the specification says, in its own words *)
(* ================================================================== *)

Module Spec.
Import Js Re.

Definition endsWithWordChar (s : str) : bool :=
  match rev s with
  | [] => false
  | c :: _ => isWordChar c
  end.

Definition beginsWithWordChar (s : str) : bool :=
  match s with
  | [] => false
  | c :: _ => isWordChar c
  end.

Definition isLetter (c : N) : bool := isLower c || isUpper c.

(** [term] occurs in [t] as a whole word, in any mix of cases: no word
    character touches the occurrence on either side. *)
Definition wholeWord (term t : str) : Prop :=
  exists pre mid post,
    t = pre ++ mid ++ post /\
    toUpperCase mid = toUpperCase term /\
    endsWithWordChar pre = false /\
    beginsWithWordChar post = false.

(** An [ambiguous-language] warning whose message mentions [term]. *)
Definition ambiguousWarningAbout (term : str) (v : Rules.ValidationViolation) : bool :=
  str_eqb (Rules.rule v) (u "ambiguous-language") &&
  match Rules.severity v with Rules.warning => true | Rules.error => false end &&
  includes (Rules.message v) term.

Definition hasRule (r : str) (v : Rules.ValidationViolation) : bool :=
  str_eqb (Rules.rule v) r.

(** The ambiguous terms that occur in [t] as the validator looks for them. *)
Definition foundTerms (t : str) : list str :=
  filter (fun term => test (Rules.re_term term) t) Rules.ambiguousTerms.

(** The section labels of [t], line by line, as the validator finds them. *)
Definition foundSections (t : str) : completion (list str) :=
  bind (mapM Rules.lineSection (splitLines t))
       (fun mapped => Return (Rules.keepSome mapped)).

(** *** An already-normalized template *)

Definition allSectionsPresent (t : str) : bool :=
  let s := Optimizer.identifySections t in
  Optimizer.role s && Optimizer.context s && Optimizer.task s && Optimizer.format s.

Definition labelsUppercase (t : str) : bool :=
  forallb (fun h => str_eqb h (toUpperCase h)) (matchAll Rules.re_headers t).

(** Every line that starts with a label comes right after an empty line. *)
Fixpoint labelsAfterBlank (prev : option str) (lines : list str) : bool :=
  match lines with
  | [] => true
  | line :: rest =>
      (if test Rules.re_label_line line
       then match prev with Some [] => true | _ => false end
       else true)
      && labelsAfterBlank (Some line) rest
  end.

(** Every variable token, of any of the three syntaxes, is a canonical
    double-brace one. *)
Definition onlyCanonicalVariables (t : str) : bool :=
  forallb (test Rules.re_canonical) (matchAll Optimizer.re_variables t).

(** Every bullet is a hyphen followed by one space. *)
Definition bulletsAreHyphens (t : str) : bool :=
  forallb (fun b => str_eqb b (u "- ")) (matchAll Optimizer.re_bullets t).

Definition noTrailingWhitespace (t : str) : bool := negb (test Rules.re_trailing t).

Definition noDuplicateLines (t : str) : bool :=
  Nat.eqb (length (snd (Optimizer.filterLoop (splitLines t) [] []))) 0.

Definition alreadyNormalized (t : str) : bool :=
  allSectionsPresent t && labelsUppercase t && labelsAfterBlank None (splitLines t) &&
  onlyCanonicalVariables t && bulletsAreHyphens t && noTrailingWhitespace t &&
  noDuplicateLines t.

(** *** The inputs of the examples *)

Definition summarize : str := u "Please summarize this document.".

Definition summarizeEnhanced : str :=
  u "ROLE: You are an AI assistant tasked with assisting with the specified task" ++ LF ++ LF ++
  u "CONTEXT: Please summarize this document." ++ LF ++ LF ++
  u "TASK:" ++ LF ++ LF ++
  u "FORMAT: Provide your response in a clear, structured manner.".

Definition structureAdded : str :=
  u "Added basic template structure (ROLE, CONTEXT, TASK, FORMAT sections)".

Definition bracesAndBrackets : str := u "{{a}} [b]".

Definition roleMidLine : str := u "my role: helper".

Definition threeFlatGroups : str := u "Do (a) then (b) then (c)".

Definition normalizedWithBullet : str :=
  u "Summary template" ++ LF ++ LF ++
  u "ROLE: a" ++ LF ++ LF ++
  u "CONTEXT: b" ++ LF ++ LF ++
  u "TASK: c" ++ LF ++
  u "- d" ++ LF ++ LF ++
  u "FORMAT: e".

(** What the structure analysis suggests for the empty template: the four
    sections and the use of variables. *)
Definition emptySuggestions : list str :=
  [ u "Add a clear role definition using " ++ DQ ++ u "ROLE:" ++ DQ ++ u " section";
    u "Include context information using " ++ DQ ++ u "CONTEXT:" ++ DQ ++ u " section";
    u "Specify the task using " ++ DQ ++ u "TASK:" ++ DQ ++ u " section";
    u "Define expected response format using " ++ DQ ++ u "FORMAT:" ++ DQ ++
      u " or " ++ DQ ++ u "OUTPUT:" ++ DQ ++ u " section";
    u "Consider using template variables (e.g., {{variableName}}) for dynamic content" ].

Definition bulletsStandardized : str :=
  u "Standardized bullet point format to " ++ DQ ++ u "-" ++ DQ.

End Spec.

(* ================================================================== *)
(** ** Proof devices *)
(* ================================================================== *)

Module Device.
Import Js Re.

(** A literal consumes exactly a copy of itself, up to case under [i]. *)
Fixpoint litAdvance (f : flags) (s : str) (z : cursor) : option cursor :=
  match s with
  | [] => Some z
  | a :: s' =>
      match after z with
      | [] => None
      | x :: r =>
          if chrMatches f a x
          then litAdvance f s' {| before := x :: before z; after := r |}
          else None
      end
  end.

(** The texts a pattern can consume, whatever stands around them: the
    assertions consume nothing. *)
Fixpoint denote (f : flags) (r : regex) (w : str) : Prop :=
  match r with
  | Eps => w = []
  | Chr a => exists x, w = [x] /\ chrMatches f a x = true
  | Dot => exists x, w = [x] /\ isLineTerminator x = false
  | Cls items => exists x, w = [x] /\ inClass x items = true
  | NCls items => exists x, w = [x] /\ inClass x items = false
  | Seq a b => exists w1 w2, w = w1 ++ w2 /\ denote f a w1 /\ denote f b w2
  | Alt a b => denote f a w \/ denote f b w
  | Star a => exists ws, w = concat ws /\ Forall (denote f a) ws
  | StarLazy a => exists ws, w = concat ws /\ Forall (denote f a) ws
  | Grp _ a => denote f a w
  | Bol => w = []
  | Eol => w = []
  | WordB => w = []
  end.

(** A pattern that cannot match the empty text, by its shape. *)
Fixpoint nonEmpty (r : regex) : bool :=
  match r with
  | Chr _ | Dot | Cls _ | NCls _ => true
  | Seq a b => nonEmpty a || nonEmpty b
  | Alt a b => nonEmpty a && nonEmpty b
  | Grp _ a => nonEmpty a
  | Eps | Star _ | StarLazy _ | Bol | Eol | WordB => false
  end.

(** [z'] is [z] moved over the text [w]. *)
Definition moved (z : cursor) (w : str) (z' : cursor) : Prop :=
  after z = w ++ after z' /\ before z' = rev w ++ before z.

(** A space or a tab, the units of the class [[ \t]]. *)
Definition isBlank (c : N) : bool := inClass c [One 32; One 9].

(** The text starts with blanks that run up to a line terminator or to
    the end. *)
Fixpoint blankToEol (s : str) : bool :=
  match s with
  | [] => true
  | c :: r => if isLineTerminator c then true else if isBlank c then blankToEol r else false
  end.

(** The text without the blanks that run up to a line terminator or to the
    end. *)
Fixpoint stripped (s : str) : str :=
  match s with
  | [] => []
  | c :: r => if isBlank c && blankToEol r then stripped r else c :: stripped r
  end.

Fixpoint takeBlanks (s : str) : str :=
  match s with
  | [] => []
  | c :: r => if isBlank c then c :: takeBlanks r else []
  end.

Fixpoint dropBlanks (s : str) : str :=
  match s with
  | [] => []
  | c :: r => if isBlank c then dropBlanks r else s
  end.

(** The continuation of the run of blanks: the end of a line. *)
Definition atLineEnd (z : cursor) (c : caps) : option (cursor * caps) :=
  if atEol fl_gm z then Some (z, c) else None.

(** The text is at its end or starts with a line terminator. *)
Definition eolHead (s : str) : Prop :=
  s = [] \/ exists l rest, s = l :: rest /\ isLineTerminator l = true.

(** Every run of white space turned into one underscore; [inRun] tells that
    the unit before was white space. *)
Fixpoint underscored (inRun : bool) (s : str) : str :=
  match s with
  | [] => []
  | c :: r =>
      if isWhiteSpace c
      then (if inRun then underscored true r else 95%N :: underscored true r)
      else c :: underscored false r
  end.

Fixpoint takeWhite (s : str) : str :=
  match s with
  | [] => []
  | c :: r => if isWhiteSpace c then c :: takeWhite r else []
  end.

Fixpoint dropWhite (s : str) : str :=
  match s with
  | [] => []
  | c :: r => if isWhiteSpace c then dropWhite r else s
  end.

End Device.

(* ================================================================== *)
(** ** Further notions used to state properties of the code *)
(* ================================================================== *)

Module Laws.
Import Js Re.

(** The entry validate opens its list with, for the input of length 0. *)
Definition schemaEntries (t : str) : list Rules.ValidationViolation :=
  match t with
  | [] => [ {| Rules.rule := u "schema";
               Rules.message := u "Template content cannot be empty";
               Rules.severity := Rules.error |} ]
  | _ :: _ => []
  end.

(** The rule names of the validator, each with the severities it is
    raised with. *)
Definition ruleTable : list (str * Rules.Severity) :=
  [ (u "schema", Rules.error);
    (u "required-sections", Rules.error);
    (u "required-sections", Rules.warning);
    (u "section-order", Rules.warning);
    (u "sentence-length", Rules.warning);
    (u "nested-instructions", Rules.warning);
    (u "ambiguous-language", Rules.warning);
    (u "variable-format", Rules.error);
    (u "variable-naming", Rules.error);
    (u "variable-usage", Rules.warning);
    (u "bullet-consistency", Rules.warning);
    (u "section-case", Rules.warning);
    (u "section-spacing", Rules.warning);
    (u "trailing-whitespace", Rules.warning) ].

(** The position of a section label in the canonical order. *)
Definition rank (section : str) : Z := Rules.arrayIndexOf Rules.sectionOrder section 0.

(** How many elements are smaller than the one just before them. *)
Fixpoint descents (l : list Z) : nat :=
  match l with
  | [] => 0
  | x :: r =>
      match r with
      | [] => 0
      | y :: _ => (if (y <? x)%Z then 1 else 0) + descents r
      end
  end.

(** The entries for missing sections, as [validateStructure] pushes them. *)
Definition requiredEntries (content : str) : list Rules.ValidationViolation :=
  (if test Rules.re_role content then []
   else [ {| Rules.rule := u "required-sections"; Rules.message := u "Missing ROLE section";
             Rules.severity := Rules.error |} ]) ++
  (if test Rules.re_context content then []
   else [ {| Rules.rule := u "required-sections"; Rules.message := u "Missing CONTEXT section";
             Rules.severity := Rules.error |} ]) ++
  (if test Rules.re_task content then []
   else [ {| Rules.rule := u "required-sections"; Rules.message := u "Missing TASK section";
             Rules.severity := Rules.error |} ]) ++
  (if test Rules.re_format content then []
   else [ {| Rules.rule := u "required-sections"; Rules.message := u "Missing FORMAT/OUTPUT section";
             Rules.severity := Rules.warning |} ]).

(** The rule names of each check. *)
Definition requiredTable : list (str * Rules.Severity) :=
  [ (u "required-sections", Rules.error); (u "required-sections", Rules.warning) ].
Definition orderTable : list (str * Rules.Severity) :=
  [ (u "section-order", Rules.warning) ].
Definition contentTable : list (str * Rules.Severity) :=
  [ (u "sentence-length", Rules.warning);
    (u "nested-instructions", Rules.warning);
    (u "ambiguous-language", Rules.warning) ].
Definition variableTable : list (str * Rules.Severity) :=
  [ (u "variable-format", Rules.error);
    (u "variable-naming", Rules.error);
    (u "variable-usage", Rules.warning) ].
Definition formatTable : list (str * Rules.Severity) :=
  [ (u "bullet-consistency", Rules.warning);
    (u "section-case", Rules.warning);
    (u "section-spacing", Rules.warning);
    (u "trailing-whitespace", Rules.warning) ].

Definition inTable (tbl : list (str * Rules.Severity)) (v : Rules.ValidationViolation) : Prop :=
  In (Rules.rule v, Rules.severity v) tbl.

(** No entry of the table carries the rule [tag]. *)
Definition tableAvoids (tag : str) (tbl : list (str * Rules.Severity)) : bool :=
  forallb (fun e => negb (str_eqb (fst e) tag)) tbl.

(** The rules that are raised with error severity. *)
Definition errorRules : list str :=
  [ u "schema"; u "required-sections"; u "variable-format"; u "variable-naming" ].

(** What the loops of the pattern analysis keep true of their accumulator:
    no issue twice, one suggestion per issue, every recorded match under
    its issue, at a line from 1 and a column from 0. *)
Definition wellFormed (a : Patterns.Acc) : Prop :=
  NoDup (Patterns.accIssues a) /\
  length (Patterns.accIssues a) = length (Patterns.accSuggestions a) /\
  Forall (fun mt => In (Types.message mt) (Patterns.accIssues a) /\
                    1 <= Types.line mt /\ (0 <= Types.column mt)%Z)
         (Patterns.accMatches a).

(** The content ends in a unit other than a line feed, or in such a unit
    followed by one line feed. *)
Definition endsOpen (s : str) : Prop :=
  exists pre x, x <> 10%N /\ (s = pre ++ [x] \/ s = pre ++ [x; 10%N]).

(** The last formatting pattern, /[^\n]\n?$/, the one without [g]. *)
Definition lastPattern : Patterns.PatternRule :=
  {| Patterns.rx := {| source := Seq (NCls [One 10]) (Seq (Opt (Chr 10)) Eol);
                       flag := no_flags |};
     Patterns.text := u "/[^\n]\n?$/";
     Patterns.sev := Types.info;
     Patterns.msg := u "File should end with a newline" |}.

(** Every catalogue pattern with [g] consumes at least one unit per match. *)
Definition advancing (p : Patterns.PatternRule) : Prop :=
  global (flag (Patterns.rx p)) = true /\
  Device.nonEmpty (source (Patterns.rx p)) = true.

(** What the duplicate filter compares, and the lines it always keeps:
    the blank ones and the ones that start with a section label. *)
Definition normalize (line : str) : str := toLowerCase (trim line).

Definition exempt (line : str) : bool :=
  Nat.eqb (length (normalize line)) 0 || test Optimizer.re_label_line (normalize line).

(** [l] is [l'] with some elements left out. *)
Inductive subseq {A : Type} : list A -> list A -> Prop :=
| subseq_nil : subseq [] []
| subseq_keep x l l' : subseq l l' -> subseq (x :: l) (x :: l')
| subseq_drop x l l' : subseq l l' -> subseq l (x :: l').

(** The error the validator raises for one malformed double-brace token. *)
Definition namingEntry (variable : str) : Rules.ValidationViolation :=
  {| Rules.rule := u "variable-naming";
     Rules.message := u "Invalid variable format: " ++ variable ++
                      u ". Use alphanumeric characters and hyphens only";
     Rules.severity := Rules.error |}.

(** The double-brace tokens of [t] that the canonical pattern rejects. *)
Definition malformedTokens (t : str) : list str :=
  filter (fun v => negb (test Rules.re_canonical v)) (matchAll Rules.re_braces t).

(** A space or a tab stands right before a line terminator or at the very
    end of [t]. *)
Definition hasTrailingBlank (t : str) : Prop :=
  exists pre c post,
    t = pre ++ c :: post /\
    (c = 32%N \/ c = 9%N) /\
    (post = [] \/ exists l rest, post = l :: rest /\ isLineTerminator l = true).


(** The units the enhancer deletes from a variable token: [{}[]$]. *)
Definition isDelimiter (c : N) : bool :=
  inClass c [One 123; One 125; One 91; One 93; One 36].

(** A unit of a variable name: [[\w-]]. *)
Definition nameUnit (c : N) : bool := inClass c [Word; One 45].

(** The name of a token: the delimiters deleted, the ends trimmed, and every
    run of white space turned into one underscore. *)
Definition plainName (variable : str) : str :=
  Device.underscored false (trim (filter (fun c => negb (isDelimiter c)) variable)).

(** The sentence the structure pass writes for a missing ROLE, and the text
    it inserts for a missing CONTEXT. *)
Definition roleLine (content : str) : str :=
  u "ROLE: You are an AI assistant tasked with " ++ Optimizer.inferRole content.

Definition contextText : str :=
  u "CONTEXT: Working with the following information and requirements.".

(** The text starts and ends with a unit that [trim] keeps. *)
Definition plainEnds (p : str) : Prop :=
  (exists x r, p = x :: r /\ isWhiteSpace x = false) /\
  (exists y r, rev p = y :: r /\ isWhiteSpace y = false).

Definition prefixed (p e : str) : Prop := exists rest, e = p ++ rest.

End Laws.

(* ================================================================== *)
(** ** Facts about the matcher *)
(* ================================================================== *)

Module ReFacts.
Import Js Re Device.

(** [c'] holds every capture of [c], below the ones added since. *)
Definition extends (c c' : caps) : Prop := exists l, c' = l ++ c.

Lemma extends_refl c : extends c c.
Proof. exists []. reflexivity. Qed.

Lemma extends_trans c1 c2 c3 : extends c1 c2 -> extends c2 c3 -> extends c1 c3.
Proof.
  intros [l1 ->] [l2 ->]. exists (l2 ++ l1). now rewrite app_assoc.
Qed.

Lemma extends_cons x c c' : extends (x :: c) c' -> extends c c'.
Proof.
  intros [l ->]. exists (l ++ [x]). now rewrite <- app_assoc.
Qed.

Lemma capGet_extends i sp c c' :
  extends ((i, sp) :: c) c' -> capGet i c' <> None.
Proof.
  intros [l ->]. induction l as [|[j sp'] l IH]; simpl.
  - rewrite Nat.eqb_refl. discriminate.
  - destruct (Nat.eqb i j); [discriminate | exact IH].
Qed.

Lemma step_some R (ok : N -> bool) z (k : cursor -> option R) res :
  step ok z k = Some res ->
  exists x r, after z = x :: r /\ ok x = true /\
              k {| before := x :: before z; after := r |} = Some res.
Proof.
  unfold step. destruct (after z) as [|x r]; [discriminate|].
  destruct (ok x) eqn:E; [|discriminate].
  intros H. exists x, r. auto.
Qed.

(** Whatever a matcher returns, its continuation returned, on captures that
    extend the ones the matcher was given. *)
Definition sound R (body : matcher R) : Prop :=
  forall z c k res,
    body z c k = Some res ->
    exists z' c', k z' c' = Some res /\ extends c c'.

Lemma repeat_sound R g (body : matcher R) :
  sound body ->
  forall k n z c res,
    repeat g body k n z c = Some res ->
    exists z' c', k z' c' = Some res /\ extends c c'.
Proof.
  intros Hb k n. induction n as [|n IH]; simpl; intros z c res H.
  - exists z, c. split; [exact H | apply extends_refl].
  - assert (Hagain :
      body z c (fun z' c' =>
        if (length (after z') <? length (after z))%nat
        then repeat g body k n z' c' else None) = Some res ->
      exists z' c', k z' c' = Some res /\ extends c c').
    { intros E. apply Hb in E. destruct E as (z1 & c1 & Hk & Hext).
      destruct (length (after z1) <? length (after z))%nat; [|discriminate].
      apply IH in Hk. destruct Hk as (z2 & c2 & Hk2 & Hext2).
      exists z2, c2. split; [exact Hk2 | eapply extends_trans; eassumption]. }
    destruct g.
    + destruct (body z c _).
      * apply Hagain. exact H.
      * exists z, c. split; [exact H | apply extends_refl].
    + destruct (k z c) eqn:E.
      * inversion H; subst. exists z, c. split; [exact E | apply extends_refl].
      * apply Hagain. exact H.
Qed.

Lemma m_sound f R (r : regex) : sound (m f (R := R) r).
Proof.
  induction r; intros z cs k res H; pose proof H as H0; simpl in H.
  - exists z, cs. split; [exact H | apply extends_refl].
  - apply step_some in H. destruct H as (x & r & _ & _ & H).
    eexists _, cs. split; [exact H | apply extends_refl].
  - apply step_some in H. destruct H as (x & r & _ & _ & H).
    eexists _, cs. split; [exact H | apply extends_refl].
  - apply step_some in H. destruct H as (x & r & _ & _ & H).
    eexists _, cs. split; [exact H | apply extends_refl].
  - apply step_some in H. destruct H as (x & r & _ & _ & H).
    eexists _, cs. split; [exact H | apply extends_refl].
  - apply IHr1 in H. destruct H as (z1 & c1 & H & E1).
    apply IHr2 in H. destruct H as (z2 & c2 & H & E2).
    exists z2, c2. split; [exact H | eapply extends_trans; eassumption].
  - destruct (m f r1 z cs k) eqn:E.
    + inversion H; subst. apply IHr1 in E. exact E.
    + apply IHr2 in H. exact H.
  - change (repeat true (m f r) k (S (length (after z))) z cs = Some res) in H0.
    eapply repeat_sound; eassumption.
  - change (repeat false (m f r) k (S (length (after z))) z cs = Some res) in H0.
    eapply repeat_sound; eassumption.
  - apply IHr in H. destruct H as (z1 & c1 & H & E1).
    eexists z1, _. split; [exact H|].
    destruct E1 as [l ->]. exists ((i, (pos z, pos z1)) :: l). reflexivity.
  - destruct (atBol f z); [|discriminate].
    exists z, cs. split; [exact H | apply extends_refl].
  - destruct (atEol f z); [|discriminate].
    exists z, cs. split; [exact H | apply extends_refl].
  - destruct (atWordB z); [|discriminate].
    exists z, cs. split; [exact H | apply extends_refl].
Qed.

(** A match found by [scan] is a match of the pattern at some cursor. *)
Lemma scan_some re bef aft i z c :
  scan re bef aft = Some (i, z, c) ->
  exists bef' aft',
    matchAt re {| before := bef'; after := aft' |} = Some (z, c) /\
    rev bef' ++ aft' = rev bef ++ aft /\ i = length bef'.
Proof.
  revert bef. induction aft as [|x aft IH]; intros bef; simpl.
  - destruct (matchAt re _) as [[z' c']|] eqn:E; [|discriminate].
    intros H. inversion H; subst. exists bef, []. auto.
  - destruct (matchAt re _) as [[z' c']|] eqn:E.
    + intros H. inversion H; subst. exists bef, (x :: aft). auto.
    + intros H. apply IH in H. destruct H as (bef' & aft' & Hm & Hs & Hi).
      exists bef', aft'. split; [exact Hm|]. split; [|exact Hi].
      rewrite Hs. simpl. now rewrite <- app_assoc.
Qed.

(** [scan] misses no position. *)
Lemma scan_complete re pre : forall bef post,
  matchAt re {| before := rev pre ++ bef; after := post |} <> None ->
  scan re bef (pre ++ post) <> None.
Proof.
  induction pre as [|x pre IH]; intros bef post H.
  - simpl in H. destruct post; simpl;
      destruct (matchAt re _) as [[z' c']|]; congruence.
  - simpl.
    destruct (matchAt re {| before := bef; after := x :: pre ++ post |})
      as [[z' c']|]; [discriminate|].
    apply IH. simpl in H. now rewrite <- app_assoc in H.
Qed.

Lemma m_Lit f R (s : str) : forall z c (k : cont R),
  m f (Lit s) z c k =
  match litAdvance f s z with
  | Some z' => k z' c
  | None => None
  end.
Proof.
  induction s as [|a s IH]; intros z c k; simpl.
  - reflexivity.
  - unfold step. destruct (after z) as [|x r]; [reflexivity|].
    destruct (chrMatches f a x); [|reflexivity].
    apply IH.
Qed.

End ReFacts.

(* ================================================================== *)
(** ** Facts about strings *)
(* ================================================================== *)

Module JsFacts.
Import Js.

Lemma splitUnit_nonempty sep s : splitUnit sep s <> [].
Proof.
  destruct s as [|c r]; simpl; [discriminate|].
  destruct (N.eqb c sep); [discriminate|].
  destruct (splitUnit sep r); discriminate.
Qed.

Lemma mapM_returns A B (f : A -> completion B) (l : list A) :
  (forall x, exists y, f x = Return y) ->
  exists ys, mapM f l = Return ys.
Proof.
  intros Hf. induction l as [|x l [ys IH]]; simpl.
  - exists []. reflexivity.
  - destruct (Hf x) as [y ->]. simpl. rewrite IH. simpl.
    exists (y :: ys). reflexivity.
Qed.

End JsFacts.

(* ================================================================== *)
(** ** Facts about the validator *)
(* ================================================================== *)

Module RulesFacts.
Import Js Re Device ReFacts JsFacts Rules.

Lemma m_Seq f R a b z c (k : cont R) :
  m f (Seq a b) z c k = m f a z c (fun z' c' => m f b z' c' k).
Proof. reflexivity. Qed.

Lemma m_Bol f R z c (k : cont R) :
  m f Bol z c k = if atBol f z then k z c else None.
Proof. reflexivity. Qed.

Lemma m_WordB f R z c (k : cont R) :
  m f WordB z c k = if atWordB z then k z c else None.
Proof. reflexivity. Qed.

Lemma m_Grp f R i a z c (k : cont R) :
  m f (Grp i a) z c k = m f a z c (fun z' c' => k z' ((i, (pos z, pos z')) :: c')).
Proof. reflexivity. Qed.

(** After [(a)b] has matched, the group holds a capture. *)
Lemma grp_captured f R i a b z c (k : cont R) res :
  m f (Seq (Grp i a) b) z c k = Some res ->
  exists z' c', k z' c' = Some res /\ capGet i c' <> None.
Proof.
  rewrite m_Seq, m_Grp. intros H.
  apply m_sound in H. destruct H as (z1 & c1 & H & _).
  apply m_sound in H. destruct H as (z2 & c2 & H & E).
  exists z2, c2. split; [exact H|]. eapply capGet_extends. exact E.
Qed.

Lemma exec_scan re s :
  fst (exec re s 0) =
  match scan re [] s with
  | Some r => Some (result r)
  | None => None
  end.
Proof.
  unfold exec. destruct (global (flag re)); simpl;
    destruct (scan re [] s); reflexivity.
Qed.

Lemma test_scan re s :
  test re s = match scan re [] s with Some _ => true | None => false end.
Proof.
  unfold test. rewrite exec_scan. destruct (scan re [] s); reflexivity.
Qed.

(** [match[1]] is never undefined in the section-order check. *)
Lemma label_group line mt :
  matchFirst re_label_line line = Some mt -> group line mt 1 <> None.
Proof.
  unfold matchFirst. rewrite exec_scan.
  destruct (scan re_label_line [] line) as [[[i z] c]|] eqn:E; [|discriminate].
  intros H. inversion H; subst mt; clear H.
  apply scan_some in E. destruct E as (bef & aft & Hm & _ & _).
  unfold matchAt, re_label_line in Hm. cbn [source flag] in Hm.
  rewrite m_Seq, m_Bol in Hm.
  destruct (atBol fl_i _); [|discriminate].
  apply grp_captured in Hm. destruct Hm as (z' & c' & Hk & Hc).
  inversion Hk; subst. unfold group, result. cbn [captures].
  destruct (capGet 1 c) as [[a b]|]; [discriminate | congruence].
Qed.

Lemma lineSection_returns line : exists o, lineSection line = Return o.
Proof.
  unfold lineSection.
  destruct (matchFirst re_label_line line) as [mt|] eqn:E.
  - apply label_group in E. destruct (group line mt 1); [|congruence].
    eexists. reflexivity.
  - eexists. reflexivity.
Qed.

Lemma validateStructure_returns content vs :
  exists vs', validateStructure content vs = Return vs'.
Proof.
  unfold validateStructure.
  destruct (mapM_returns lineSection (splitLines content) lineSection_returns)
    as [mapped ->].
  simpl. eexists. reflexivity.
Qed.

(** The validator returns, and its verdict is the emptiness of its list. *)
Lemma validateTemplate_returns content :
  exists r,
    validateTemplate content = Return r /\
    isValid r = Nat.eqb (length (violations r)) 0.
Proof.
  unfold validateTemplate, templateSchema_parse.
  destruct (1 <=? length content)%nat; simpl.
  - destruct (validateStructure_returns content []) as [vs ->]. simpl.
    eexists. split; reflexivity.
  - destruct (validateStructure_returns content
                (push [] {| rule := u "schema";
                            message := u "Template content cannot be empty";
                            severity := error |})) as [vs Hvs].
    unfold push in *. simpl in *. rewrite Hvs. simpl.
    eexists. split; reflexivity.
Qed.

(** *** Which part of the validator can add an ambiguous-language entry *)

Section Selection.

(** [P] selects among the entries whose rule is [ambiguous-language]. *)
Variable P : ValidationViolation -> bool.
Hypothesis P_rule :
  forall v, str_eqb (rule v) (u "ambiguous-language") = false -> P v = false.

Lemma filter_push vs v :
  filter P (push vs v) = filter P vs ++ (if P v then [v] else []).
Proof.
  unfold push. rewrite filter_app. simpl. destruct (P v); reflexivity.
Qed.

Lemma filter_push_other vs v :
  str_eqb (rule v) (u "ambiguous-language") = false ->
  filter P (push vs v) = filter P vs.
Proof.
  intros H. rewrite filter_push, (P_rule _ H). apply app_nil_r.
Qed.

Ltac other_rule :=
  repeat (rewrite filter_push_other; [|reflexivity]).

Lemma orderLoop_filter found : forall lastIndex vs,
  filter P (orderLoop found lastIndex vs) = filter P vs.
Proof.
  induction found as [|section rest IH]; intros lastIndex vs; simpl.
  - reflexivity.
  - rewrite IH. destruct (_ <? _)%Z; [|reflexivity]. now other_rule.
Qed.

Lemma validateStructure_filter content vs vs' :
  validateStructure content vs = Return vs' ->
  filter P vs' = filter P vs.
Proof.
  unfold validateStructure.
  destruct (mapM lineSection (splitLines content)) as [mapped|]; [|discriminate].
  simpl. intros H. inversion H; subst vs'; clear H.
  rewrite orderLoop_filter.
  destruct (test re_role content), (test re_context content),
           (test re_task content), (test re_format content);
    simpl; now other_rule.
Qed.

Lemma sentenceLoop_filter sentences : forall vs,
  filter P (sentenceLoop sentences vs) = filter P vs.
Proof.
  induction sentences as [|sentence rest IH]; intros vs; simpl.
  - reflexivity.
  - rewrite IH. destruct (_ <? _)%nat; [|reflexivity]. now other_rule.
Qed.

Lemma termLoop_app content terms : forall vs,
  termLoop content terms vs =
  vs ++ map ambiguousViolation
          (filter (fun term => test (re_term term) content) terms).
Proof.
  induction terms as [|term rest IH]; intros vs; simpl.
  - now rewrite app_nil_r.
  - rewrite IH. destruct (test (re_term term) content); [|reflexivity].
    unfold push. simpl. now rewrite <- app_assoc.
Qed.

Lemma validateContent_filter content vs :
  filter P (validateContent content vs) =
  filter P vs ++ filter P (map ambiguousViolation (Spec.foundTerms content)).
Proof.
  unfold validateContent. rewrite termLoop_app, filter_app. f_equal.
  destruct (test re_nestedParens content).
  - other_rule. apply sentenceLoop_filter.
  - apply sentenceLoop_filter.
Qed.

Lemma variableLoop_filter variables : forall vs,
  filter P (variableLoop variables vs) = filter P vs.
Proof.
  induction variables as [|variable rest IH]; intros vs; simpl.
  - reflexivity.
  - rewrite IH. destruct (negb _); [|reflexivity]. now other_rule.
Qed.

Lemma validateVariables_filter content vs :
  filter P (validateVariables content vs) = filter P vs.
Proof.
  unfold validateVariables.
  destruct (Nat.eqb _ 0 && _); [other_rule|]; rewrite variableLoop_filter;
    (destruct (1 <? _)%nat; [now other_rule | reflexivity]).
Qed.

Lemma validateFormat_filter content vs :
  filter P (validateFormat content vs) = filter P vs.
Proof.
  unfold validateFormat.
  destruct (test re_trailing content); [other_rule|];
    (destruct (matchAll re_blank_run content); [|other_rule]);
    (destruct (existsb _ (matchAll re_headers content)); [other_rule|]);
    (destruct (1 <? _)%nat; [now other_rule | reflexivity]).
Qed.

(** Only the term loop of the content check contributes. *)
Lemma validateTemplate_filter content r :
  validateTemplate content = Return r ->
  filter P (violations r) = filter P (map ambiguousViolation (Spec.foundTerms content)).
Proof.
  unfold validateTemplate.
  set (start := match templateSchema_parse content with
                | Parsed => _ | ZodError _ => _ end).
  assert (Hstart : forall vs, start = Return vs -> filter P vs = []).
  { subst start. unfold templateSchema_parse.
    destruct (1 <=? length content)%nat; simpl; intros vs H;
      inversion H; subst vs; [reflexivity|].
    rewrite filter_push_other; reflexivity. }
  destruct start as [vs0|]; [|discriminate]. simpl.
  destruct (validateStructure content vs0) as [vs1|] eqn:E1; [|discriminate].
  simpl. intros H. inversion H; subst r; clear H. cbn [violations].
  rewrite validateFormat_filter, validateVariables_filter, validateContent_filter.
  rewrite (validateStructure_filter _ _ E1), (Hstart vs0 eq_refl). reflexivity.
Qed.

End Selection.

End RulesFacts.

(* ================================================================== *)
(** ** Word-boundary matching of a term *)
(* ================================================================== *)

Module WordFacts.
Import Js Re Device ReFacts RulesFacts Rules Spec.

Lemma cursor_eq (z z' : cursor) :
  before z = before z' -> after z = after z' -> z = z'.
Proof. destruct z, z'; simpl; intros -> ->; reflexivity. Qed.

Lemma litAdvance_ci term : forall z z',
  litAdvance fl_i term z = Some z' <->
  exists mid,
    toUpperCase mid = toUpperCase term /\
    after z = mid ++ after z' /\
    before z' = rev mid ++ before z.
Proof.
  induction term as [|a term IH]; intros z z'; simpl.
  - split.
    + intros H. inversion H; subst. exists []. auto.
    + intros (mid & Hu & Ha & Hb). destruct mid; [|discriminate].
      simpl in *. f_equal. apply cursor_eq; congruence.
  - destruct (after z) as [|x r] eqn:Ez.
    + split; [discriminate|].
      intros (mid & Hu & Ha & _). destruct mid; discriminate.
    + unfold chrMatches. cbn [ignoreCase fl_i].
      destruct (N.eqb (upperUnit a) (upperUnit x)) eqn:Ex.
      * rewrite IH. cbn [before after]. apply N.eqb_eq in Ex. split.
        -- intros (mid & Hu & Ha & Hb). exists (x :: mid). simpl.
           unfold toUpperCase in *. repeat split.
           ++ congruence.
           ++ congruence.
           ++ rewrite Hb, <- app_assoc. reflexivity.
        -- intros (mid & Hu & Ha & Hb). destruct mid as [|y mid]; [discriminate|].
           simpl in *. inversion Ha; subst. inversion Hu.
           exists mid. repeat split; auto.
           rewrite Hb, <- app_assoc. reflexivity.
      * split; [discriminate|].
        intros (mid & Hu & Ha & _). destruct mid as [|y mid]; [discriminate|].
        simpl in *. inversion Ha; subst. inversion Hu.
        apply N.eqb_neq in Ex. congruence.
Qed.

Lemma matchAt_term term z :
  matchAt (re_term term) z =
  if atWordB z then
    match litAdvance fl_i term z with
    | Some z' => if atWordB z' then Some (z', []) else None
    | None => None
    end
  else None.
Proof.
  unfold matchAt, re_term. cbn [source flag].
  rewrite m_Seq, m_WordB. destruct (atWordB z); [|reflexivity].
  rewrite m_Seq, m_Lit. destruct (litAdvance fl_i term z); [|reflexivity].
  apply m_WordB.
Qed.

(** A unit that equals a letter up to case is a word character. *)
Lemma same_letter_word a x :
  upperUnit x = upperUnit a -> isLetter a = true -> isWordChar x = true.
Proof.
  unfold upperUnit, isLetter, isWordChar, isLower, isUpper, isDigit.
  repeat match goal with
         | |- context [N.leb ?p ?q] => destruct (N.leb_spec p q)
         end; simpl; intros; try reflexivity; try discriminate; lia.
Qed.

Lemma same_letters_words mid : forall term,
  toUpperCase mid = toUpperCase term ->
  forallb isLetter term = true ->
  forall x, In x mid -> isWordChar x = true.
Proof.
  induction mid as [|y mid IH]; intros term Hu Hl x Hin; [destruct Hin|].
  destruct term as [|a term]; [discriminate|].
  simpl in Hu, Hl. inversion Hu. apply andb_prop in Hl. destruct Hl as [Ha Hl].
  destruct Hin as [<-|Hin].
  - eapply same_letter_word; eassumption.
  - eapply IH; eassumption.
Qed.

Lemma same_length mid term :
  toUpperCase mid = toUpperCase term -> length mid = length term.
Proof.
  intros H. apply (f_equal (@length N)) in H.
  unfold toUpperCase in H. now rewrite !length_map in H.
Qed.

Section Term.
Variable term : str.
Hypothesis term_nonempty : term <> [].
Hypothesis term_letters : forallb isLetter term = true.

Lemma mid_head mid rest :
  toUpperCase mid = toUpperCase term ->
  wordAfter {| before := rest; after := mid ++ rest |} = true /\
  forall bef aft, wordBefore {| before := rev mid ++ bef; after := aft |} = true.
Proof.
  intros Hu. pose proof (same_letters_words _ _ Hu term_letters) as Hw.
  pose proof (same_length _ _ Hu) as Hlen.
  destruct mid as [|y mid].
  - destruct term; [congruence | discriminate].
  - split.
    + unfold wordAfter. simpl. apply Hw. now left.
    + intros bef aft. unfold wordBefore. cbn [before].
      destruct (rev (y :: mid)) as [|q qs] eqn:Er.
      * apply (f_equal (@length N)) in Er. rewrite length_rev in Er. discriminate.
      * simpl. apply Hw. apply in_rev. rewrite Er. now left.
Qed.

(** The pattern of a term finds exactly its whole-word occurrences. *)
Lemma test_term_wholeWord t :
  test (re_term term) t = true <-> wholeWord term t.
Proof.
  rewrite test_scan. split.
  - destruct (scan (re_term term) [] t) as [[[i z1] c]|] eqn:E; [|discriminate].
    intros _. apply scan_some in E. destruct E as (bef & aft & Hm & Ht & _).
    simpl in Ht. rewrite matchAt_term in Hm.
    destruct (atWordB _) eqn:B0; [|discriminate].
    destruct (litAdvance fl_i term _) as [z'|] eqn:El; [|discriminate].
    destruct (atWordB z') eqn:B1; [|discriminate].
    inversion Hm; subst z' c; clear Hm.
    apply litAdvance_ci in El. destruct El as (mid & Hu & Ha & Hb).
    cbn [before after] in Ha, Hb.
    exists (rev bef), mid, (after z1). repeat split.
    + now rewrite <- Ht, Ha.
    + exact Hu.
    + unfold endsWithWordChar. rewrite rev_involutive.
      unfold atWordB in B0. destruct (mid_head mid (after z1) Hu) as [Hw _].
      assert (Hwa : wordAfter {| before := bef; after := aft |} = true).
      { rewrite Ha. unfold wordAfter in *. cbn [after] in *. exact Hw. }
      rewrite Hwa in B0. unfold wordBefore in B0. cbn [before] in B0.
      destruct bef; [reflexivity|]. destruct (isWordChar n); [discriminate | reflexivity].
    + unfold atWordB in B1. destruct (mid_head mid [] Hu) as [_ Hw].
      assert (Hwb : wordBefore z1 = true).
      { specialize (Hw bef (after z1)). unfold wordBefore in *.
        cbn [before] in Hw. now rewrite Hb. }
      rewrite Hwb in B1. unfold wordAfter in B1. unfold beginsWithWordChar.
      destruct (after z1); [reflexivity|].
      destruct (isWordChar n); [discriminate | reflexivity].
  - intros (pre & mid & post & -> & Hu & Hpre & Hpost).
    assert (Hs : scan (re_term term) [] (pre ++ mid ++ post) <> None).
    { apply scan_complete. rewrite app_nil_r, matchAt_term.
      destruct (mid_head mid post Hu) as [Hwa Hwb].
      assert (B0 : atWordB {| before := rev pre; after := mid ++ post |} = true).
      { unfold atWordB. unfold wordAfter in *. cbn [after] in *. rewrite Hwa.
        unfold wordBefore. cbn [before]. unfold endsWithWordChar in Hpre.
        destruct (rev pre); [reflexivity|]. now rewrite Hpre. }
      rewrite B0.
      assert (El : litAdvance fl_i term {| before := rev pre; after := mid ++ post |}
                   = Some {| before := rev mid ++ rev pre; after := post |}).
      { apply litAdvance_ci. exists mid. auto. }
      rewrite El.
      assert (B1 : atWordB {| before := rev mid ++ rev pre; after := post |} = true).
      { unfold atWordB. rewrite Hwb. unfold wordAfter. cbn [after].
        unfold beginsWithWordChar in Hpost.
        destruct post; [reflexivity|]. now rewrite Hpost. }
      rewrite B1. discriminate. }
    destruct (scan (re_term term) [] (pre ++ mid ++ post)); congruence.
Qed.

End Term.

End WordFacts.

(* ================================================================== *)
(** ** Facts about the enhancer and the pattern analysis *)
(* ================================================================== *)

Module OptimizerFacts.
Import Js Re JsFacts Optimizer.

Lemma addMissingSections_returns content sections changes :
  exists e ch, addMissingSections content sections changes = Return (e, ch).
Proof.
  unfold addMissingSections.
  destruct (negb (role sections) && negb (context sections) &&
            negb (task sections) && negb (format sections)).
  - destruct (splitLines (trim content)) as [|line0 rest] eqn:E.
    + exfalso. eapply splitUnit_nonempty. exact E.
    + cbn [nth_error]. eexists _, _. reflexivity.
  - destruct (negb (role sections)), (negb (context sections)),
             (negb (task sections)), (negb (format sections));
      cbv beta iota zeta; eexists _, _; reflexivity.
Qed.

(** The enhancer returns, and hands the input back as [originalContent]. *)
Lemma enhanceTemplate_returns content :
  exists r, enhanceTemplate content = Return r /\ originalContent r = content.
Proof.
  unfold enhanceTemplate.
  destruct (addMissingSections_returns content (identifySections content) [])
    as (e & ch & ->).
  unfold bind. cbv beta iota.
  destruct (formatTemplateVariables e ch) as [e1 ch1].
  destruct (improveFormatting e1 ch1) as [e2 ch2].
  destruct (removeRedundancies e2 ch2) as [e3 ch3].
  eexists. split; reflexivity.
Qed.

(** The bullet step logs its entry whenever a line starts with a bullet
    glyph, whatever the replacement did. *)
Lemma improveFormatting_logs_bullets content changes :
  let headed := replace re_headers content (fun mt => toUpperCase (matched content mt)) in
  let spaced :=
    replace re_tight headed
      (fun mt => capture headed mt 1 ++ LF ++ LF ++ capture headed mt 2 ++ u ":") in
  test re_hasBullets spaced = true ->
  In (u "Standardized bullet point format to " ++ DQ ++ u "-" ++ DQ)
     (snd (improveFormatting content changes)).
Proof.
  intros headed spaced Hb. unfold improveFormatting.
  fold headed. fold spaced. rewrite Hb.
  destruct (negb (str_eqb _ _)); cbn [snd].
  - apply in_or_app. left. apply in_or_app. right. now left.
  - apply in_or_app. right. now left.
Qed.

End OptimizerFacts.

Module PatternsFacts.
Import Js Re Types Patterns.

(** A pattern whose [exec] keeps finding a match from [lastIndex] 0 and
    leaves [lastIndex] at 0 keeps its loop running. *)
Lemma execLoop_stuck content p suggest mt :
  exec (rx p) content 0 = (Some mt, 0) ->
  forall n a, execLoop n content p suggest 0 a = None.
Proof.
  intros He n. induction n as [|n IH]; intros a; simpl.
  - reflexivity.
  - rewrite He. apply IH.
Qed.

Lemma forPatterns_stuck content p suggest :
  (forall n a, execLoop n content p suggest 0 a = None) ->
  forall catalogue, In p catalogue ->
  forall n a, forPatterns n content catalogue suggest a = None.
Proof.
  intros Hp catalogue. induction catalogue as [|q rest IH]; intros Hin n a.
  - destruct Hin.
  - simpl. destruct Hin as [->|Hin].
    + now rewrite Hp.
    + destruct (execLoop n content q suggest 0 a); [|reflexivity].
      now apply IH.
Qed.

End PatternsFacts.

(* ================================================================== *)
(** ** Properties of the three operations *)
(* ================================================================== *)

Module Counting.
Import Js Re Spec.

Lemma count_cons (P : Rules.ValidationViolation -> bool) (q : str -> bool) a l :
  length (filter P (map Rules.ambiguousViolation (filter q (a :: l)))) =
  (if q a then (if P (Rules.ambiguousViolation a) then 1 else 0) else 0) +
  length (filter P (map Rules.ambiguousViolation (filter q l))).
Proof.
  simpl. destruct (q a); [|reflexivity].
  simpl. destruct (P (Rules.ambiguousViolation a)); reflexivity.
Qed.

Ltac evaluate_warnings :=
  repeat match goal with
         | |- context [ambiguousWarningAbout ?t (Rules.ambiguousViolation ?a)] =>
             let b := eval vm_compute in
                        (ambiguousWarningAbout t (Rules.ambiguousViolation a)) in
             replace (ambiguousWarningAbout t (Rules.ambiguousViolation a)) with b
               by (vm_compute; reflexivity)
         end.

(** Among the entries the term loop pushes, one is about [term] when the
    term was found, none otherwise. *)
Lemma term_count (q : str -> bool) term :
  In term Rules.ambiguousTerms ->
  length (filter (ambiguousWarningAbout term)
            (map Rules.ambiguousViolation (filter q Rules.ambiguousTerms)))
  = if q term then 1 else 0.
Proof.
  unfold Rules.ambiguousTerms. intros Hin.
  rewrite !count_cons. cbn [filter map length].
  remember (q (u "maybe")) as b1 eqn:E1. remember (q (u "probably")) as b2 eqn:E2.
  remember (q (u "possibly")) as b3 eqn:E3. remember (q (u "might")) as b4 eqn:E4.
  remember (q (u "could")) as b5 eqn:E5. remember (q (u "should")) as b6 eqn:E6.
  remember (q (u "would")) as b7 eqn:E7.
  repeat (destruct Hin as [<-|Hin]);
    try (evaluate_warnings;
         first [rewrite <- E1 | rewrite <- E2 | rewrite <- E3 | rewrite <- E4
               | rewrite <- E5 | rewrite <- E6 | rewrite <- E7];
         destruct b1, b2, b3, b4, b5, b6, b7; reflexivity).
  destruct Hin.
Qed.

Lemma ambiguousTerms_letters term :
  In term Rules.ambiguousTerms -> term <> [] /\ forallb isLetter term = true.
Proof.
  unfold Rules.ambiguousTerms. intros Hin.
  repeat (destruct Hin as [<-|Hin]); try (split; [discriminate | reflexivity]).
  destruct Hin.
Qed.

End Counting.

Import Js Re Spec.

(** C1: for every input, the verdict of validate is true exactly when its
    list of violations is empty: [isValid === (violations.length === 0)].
    The validator returns for every input. *)
Theorem validate_verdict_is_emptiness (t : str) :
  exists r,
    Server.validate t = Return r /\
    Rules.isValid r = Nat.eqb (length (Rules.violations r)) 0.
Proof.
  unfold Server.validate. apply RulesFacts.validateTemplate_returns.
Qed.

(** C2: at the input [{{a}} [b]], which holds a double-brace token and a
    bracket token, validate returns no [variable-format] entry: the bracket
    pattern of the validator finds nothing in it, while the bracket pattern
    of the enhancer finds [[b]].  What the validator's pattern asks for is an
    opening bracket, one word unit, a hyphen and at least two closing
    brackets: it finds nothing in [[b-]] and finds [[b-]]]. *)
Theorem braces_and_brackets_not_flagged :
  exists r,
    Server.validate bracesAndBrackets = Return r /\
    filter (hasRule (u "variable-format")) (Rules.violations r) = [] /\
    map (fun format => length (matchAll format bracesAndBrackets)) Rules.variableFormats
      = [1; 0; 0] /\
    matchAll Optimizer.re_variables bracesAndBrackets = [u "{{a}}"; u "[b]"] /\
    matchAll Rules.re_brackets (u "[b-]") = [] /\
    matchAll Rules.re_brackets (u "[b-]]") = [u "[b-]]"].
Proof.
  eexists. split; [vm_compute; reflexivity|].
  repeat split; vm_compute; reflexivity.
Qed.

(** C3: at the input [my role: helper], where the label and colon stand in
    the middle of a line, analyze reports [hasRole] true, while the
    line-anchored test of the validator and of the enhancer says that no
    ROLE section is present. *)
Theorem analyze_flags_not_anchored :
  Structure.hasRole (Structure.structure (Structure.analyzeTemplate roleMidLine None)) = true /\
  test Rules.re_role roleMidLine = false /\
  Optimizer.role (Optimizer.identifySections roleMidLine) = false /\
  exists a,
    Server.analyze 5 (roleMidLine ++ LF ++ LF) = Some a /\
    Structure.hasRole (Structure.structure (Server.structureAnalysis a)) = true.
Proof.
  split; [vm_compute; reflexivity|].
  split; [vm_compute; reflexivity|].
  split; [vm_compute; reflexivity|].
  eexists. split; vm_compute; reflexivity.
Qed.

(** C4: at an input with three flat parenthesized groups, short sentences
    and no section marker, the clarity score is 0.7, not 1.0: every
    parenthesized group costs 0.1, nested or not. *)
Theorem flat_groups_cost_clarity :
  Structure.calculateClarity threeFlatGroups = 0.7%float /\
  length (matchAll Structure.re_paren_group threeFlatGroups) = 3 /\
  test Rules.re_nestedParens threeFlatGroups = false /\
  test Structure.re_marker threeFlatGroups = false /\
  Structure.sumLengths (split Structure.re_sentence_end threeFlatGroups) = 24.
Proof.
  repeat split; vm_compute; reflexivity.
Qed.

(** C5: at the input [abc], analyze does not return: the loop over the last
    formatting pattern, which has no [g] flag, finds the same match at every
    iteration.  validate and enhance return at that input, and analyze
    returns once the input ends in two line feeds. *)
Theorem analyze_does_not_return :
  (forall n, Server.analyze n (u "abc") = None) /\
  (exists r, Server.validate (u "abc") = Return r) /\
  (exists r, Server.enhance (u "abc") = Return r) /\
  (exists a, Server.analyze 5 (u "abc" ++ LF ++ LF) = Some a).
Proof.
  split.
  - intros n. unfold Server.analyze, Patterns.analyzePatterns.
    destruct (Patterns.forPatterns n (u "abc") Patterns.ANTI_PATTERNS _ _) as [a|];
      [|reflexivity].
    rewrite PatternsFacts.forPatterns_stuck
      with (p := nth 3 Patterns.FORMATTING_PATTERNS
                   {| Patterns.rx := {| source := Eps; flag := no_flags |};
                      Patterns.text := []; Patterns.sev := Types.info;
                      Patterns.msg := [] |}).
    + reflexivity.
    + eapply PatternsFacts.execLoop_stuck. vm_compute. reflexivity.
    + simpl. tauto.
  - split; [|split].
    + destruct (RulesFacts.validateTemplate_returns (u "abc")) as [r [Hr _]].
      exists r. exact Hr.
    + destruct (OptimizerFacts.enhanceTemplate_returns (u "abc")) as [r [Hr _]].
      exists r. exact Hr.
    + eexists. vm_compute. reflexivity.
Qed.

(** C6: at a template that is already normalized and holds a hyphen bullet,
    enhance leaves the content as it is but logs a change: the bullet pass
    adds its entry whenever a bullet is present, whether or not it rewrote
    anything. *)
Theorem normalized_bullet_logged :
  alreadyNormalized normalizedWithBullet = true /\
  Server.enhance normalizedWithBullet =
    Return {| Optimizer.enhancedContent := normalizedWithBullet;
              Optimizer.changes := [bulletsStandardized];
              Optimizer.originalContent := normalizedWithBullet |} /\
  replace Optimizer.re_bullets normalizedWithBullet (fun _ => u "- ")
    = normalizedWithBullet.
Proof.
  split; [vm_compute; reflexivity|].
  split; vm_compute; reflexivity.
Qed.

(** C7: for the input [Please summarize this document.], enhance returns a
    document in which ROLE, CONTEXT, TASK and FORMAT are all present, in
    that order, and its change log holds the entry
    [Added basic template structure (ROLE, CONTEXT, TASK, FORMAT sections)]. *)
Theorem enhance_adds_structure :
  exists r,
    Server.enhance summarize = Return r /\
    Optimizer.enhancedContent r = summarizeEnhanced /\
    Optimizer.identifySections (Optimizer.enhancedContent r) =
      {| Optimizer.role := true; Optimizer.context := true;
         Optimizer.task := true; Optimizer.format := true |} /\
    foundSections (Optimizer.enhancedContent r) =
      Return [u "ROLE"; u "CONTEXT"; u "TASK"; u "FORMAT"] /\
    In structureAdded (Optimizer.changes r).
Proof.
  exists {| Optimizer.enhancedContent := summarizeEnhanced;
            Optimizer.changes := [structureAdded; u "Removed trailing whitespace"];
            Optimizer.originalContent := summarize |}.
  split; [vm_compute; reflexivity|].
  cbn [Optimizer.enhancedContent Optimizer.changes].
  split; [reflexivity|].
  split; [vm_compute; reflexivity|].
  split; [vm_compute; reflexivity|].
  left. reflexivity.
Qed.

(** C8: for every input and every term of the fixed list, validate yields
    exactly one [ambiguous-language] warning mentioning the term when the
    term occurs as a whole word, in any case, and none when it does not; so
    never more than one per term, however often the term occurs. *)
Theorem ambiguous_terms_whole_word (t : str) :
  exists r,
    Server.validate t = Return r /\
    forall term, In term Rules.ambiguousTerms ->
      (wholeWord term t ->
       length (filter (ambiguousWarningAbout term) (Rules.violations r)) = 1) /\
      (~ wholeWord term t ->
       length (filter (ambiguousWarningAbout term) (Rules.violations r)) = 0) /\
      length (filter (ambiguousWarningAbout term) (Rules.violations r)) <= 1.
Proof.
  destruct (RulesFacts.validateTemplate_returns t) as [r [Hr _]].
  exists r. split; [exact Hr|]. intros term Hin.
  assert (Hsel : forall v, str_eqb (Rules.rule v) (u "ambiguous-language") = false ->
                           ambiguousWarningAbout term v = false).
  { intros v Hv. unfold ambiguousWarningAbout. now rewrite Hv. }
  rewrite (RulesFacts.validateTemplate_filter _ Hsel _ Hr).
  unfold foundTerms. rewrite Counting.term_count by exact Hin.
  destruct (Counting.ambiguousTerms_letters Hin) as [Hne Hl].
  pose proof (WordFacts.test_term_wholeWord Hne Hl t) as Hw.
  destruct (test (Rules.re_term term) t).
  - repeat split; auto. intros Hn. exfalso. apply Hn. apply Hw. reflexivity.
  - repeat split; auto. intros Hy. apply Hw in Hy. discriminate.
Qed.

(** C8, at two inputs: [might] twice, in two cases, gives one warning;
    [mighty] gives none. *)
Lemma ambiguous_terms_whole_word_witness :
  (exists r,
     Server.validate (u "It MIGHT rain, or it might not") = Return r /\
     length (filter (ambiguousWarningAbout (u "might")) (Rules.violations r)) = 1) /\
  (exists r,
     Server.validate (u "a mighty wind") = Return r /\
     length (filter (ambiguousWarningAbout (u "might")) (Rules.violations r)) = 0).
Proof.
  split.
  - destruct (ambiguous_terms_whole_word (u "It MIGHT rain, or it might not"))
      as [r [Hr H]].
    exists r. split; [exact Hr|].
    apply (H (u "might")).
    + simpl. tauto.
    + exists (u "It "), (u "MIGHT"), (u " rain, or it might not").
      repeat split; reflexivity.
  - destruct (ambiguous_terms_whole_word (u "a mighty wind")) as [r [Hr H]].
    exists r. split; [exact Hr|].
    apply (H (u "might")).
    + simpl. tauto.
    + intros Hw.
      apply (WordFacts.test_term_wholeWord (term := u "might")) in Hw;
        [vm_compute in Hw; discriminate | discriminate | reflexivity].
Defined.

(** C9, as stated, fails at the empty input: the content analysis reports
    no issue for it, with the full score, and the pattern analysis reports
    none either. *)
Lemma empty_input_is_no_issue :
  Types.issues (Content.analyzeContent []) = [] /\
  Types.score (Content.analyzeContent []) = 100%Z /\
  exists a,
    Server.analyze 1 [] = Some a /\
    Types.issues (Server.content a) = [] /\
    Types.issues (Server.patterns a) = [].
Proof.
  split; [vm_compute; reflexivity|].
  split; [vm_compute; reflexivity|].
  eexists. repeat split; vm_compute; reflexivity.
Qed.

(** C9, amended: for the empty input, validate and analyze return; validate
    reports the emptiness as one [schema] entry of error severity, ahead of
    the four missing-section entries, so [isValid] is false; analyze returns
    a report whose content and pattern analyses hold no issue and the full
    score, whose structure flags are all false, and whose suggestions are
    the ones for the missing sections and variables. *)
Theorem empty_input_reports :
  Server.validate [] =
    Return
      {| Rules.isValid := false;
         Rules.violations :=
           [ {| Rules.rule := u "schema";
                Rules.message := u "Template content cannot be empty";
                Rules.severity := Rules.error |};
             {| Rules.rule := u "required-sections";
                Rules.message := u "Missing ROLE section";
                Rules.severity := Rules.error |};
             {| Rules.rule := u "required-sections";
                Rules.message := u "Missing CONTEXT section";
                Rules.severity := Rules.error |};
             {| Rules.rule := u "required-sections";
                Rules.message := u "Missing TASK section";
                Rules.severity := Rules.error |};
             {| Rules.rule := u "required-sections";
                Rules.message := u "Missing FORMAT/OUTPUT section";
                Rules.severity := Rules.warning |} ] |} /\
  exists a,
    Server.analyze 1 [] = Some a /\
    Structure.structure (Server.structureAnalysis a) =
      {| Structure.hasRole := false; Structure.hasContext := false;
         Structure.hasTask := false; Structure.hasResponseFormat := false |} /\
    Structure.suggestions (Server.structureAnalysis a) = emptySuggestions /\
    Types.issues (Server.content a) = [] /\
    Types.score (Server.content a) = 100%Z /\
    Types.issues (Server.patterns a) = [] /\
    Types.score (Server.patterns a) = 100%Z.
Proof.
  split; [vm_compute; reflexivity|].
  eexists. split; [vm_compute; reflexivity|].
  repeat split; vm_compute; reflexivity.
Qed.

(** C10: for every input, enhance returns, and the [originalContent] of its
    result is the input itself, whatever the passes did to the content. *)
Theorem enhance_keeps_original (t : str) :
  exists r,
    Server.enhance t = Return r /\
    Optimizer.originalContent r = t.
Proof.
  unfold Server.enhance. apply OptimizerFacts.enhanceTemplate_returns.
Qed.

(* ================================================================== *)
(** ** Further properties of the validator *)
(* ================================================================== *)

Module RulesLaws.
Import Js Re JsFacts RulesFacts Rules Spec Laws.

Lemma str_eqb_eq a : forall b, str_eqb a b = true <-> a = b.
Proof.
  induction a as [|x a IH]; intros [|y b]; simpl; split; try discriminate; auto.
  - intros H. apply andb_prop in H. destruct H as [Hx Ha].
    apply N.eqb_eq in Hx. apply IH in Ha. congruence.
  - intros H. inversion H; subst. rewrite N.eqb_refl. simpl. now apply IH.
Qed.

Lemma str_eqb_refl a : str_eqb a a = true.
Proof. now apply str_eqb_eq. Qed.

(** *** Every check only appends *)

Lemma orderLoop_app found : forall lastIndex vs,
  orderLoop found lastIndex vs = vs ++ orderLoop found lastIndex [].
Proof.
  induction found as [|section rest IH]; intros lastIndex vs; simpl.
  - now rewrite app_nil_r.
  - destruct (_ <? _)%Z.
    + rewrite IH. rewrite (IH _ (push [] _)). unfold push. simpl.
      now rewrite <- app_assoc.
    + apply IH.
Qed.

Lemma sentenceLoop_app sentences : forall vs,
  sentenceLoop sentences vs = vs ++ sentenceLoop sentences [].
Proof.
  induction sentences as [|sentence rest IH]; intros vs; simpl.
  - now rewrite app_nil_r.
  - destruct (_ <? _)%nat.
    + rewrite IH. rewrite (IH (push [] _)). unfold push. simpl.
      now rewrite <- app_assoc.
    + apply IH.
Qed.

Lemma variableLoop_app variables : forall vs,
  variableLoop variables vs = vs ++ variableLoop variables [].
Proof.
  induction variables as [|variable rest IH]; intros vs; simpl.
  - now rewrite app_nil_r.
  - destruct (negb _).
    + rewrite IH. rewrite (IH (push [] _)). unfold push. simpl.
      now rewrite <- app_assoc.
    + apply IH.
Qed.

Lemma validateStructure_parts content vs vs' :
  validateStructure content vs = Return vs' ->
  exists found,
    foundSections content = Return found /\
    vs' = vs ++ requiredEntries content ++ orderLoop found (-1) [].
Proof.
  unfold validateStructure, foundSections.
  destruct (mapM lineSection (splitLines content)) as [mapped|]; [|discriminate].
  simpl. intros H. inversion H; subst vs'; clear H.
  exists (keepSome mapped). split; [reflexivity|].
  rewrite orderLoop_app. unfold requiredEntries, push.
  destruct (test re_role content), (test re_context content),
           (test re_task content), (test re_format content);
    simpl; rewrite <- ?app_assoc; reflexivity.
Qed.

Lemma validateContent_app content vs :
  validateContent content vs = vs ++ validateContent content [].
Proof.
  unfold validateContent. rewrite !termLoop_app.
  destruct (test re_nestedParens content); unfold push;
    rewrite sentenceLoop_app; simpl; rewrite <- ?app_assoc; reflexivity.
Qed.

Lemma validateVariables_app content vs :
  validateVariables content vs = vs ++ validateVariables content [].
Proof.
  unfold validateVariables.
  destruct (Nat.eqb _ 0 && _); destruct (1 <? _)%nat; unfold push;
    rewrite variableLoop_app;
    rewrite (variableLoop_app _ ([] ++ _)) || idtac;
    simpl; rewrite <- ?app_assoc; reflexivity.
Qed.

Lemma validateFormat_app content vs :
  validateFormat content vs = vs ++ validateFormat content [].
Proof.
  unfold validateFormat.
  destruct (test re_trailing content); destruct (matchAll re_blank_run content);
    destruct (existsb _ (matchAll re_headers content)); destruct (1 <? _)%nat;
    unfold push; simpl; rewrite <- ?app_assoc; try rewrite app_nil_r; reflexivity.
Qed.

(** The list validate returns, check by check. *)
Lemma validateTemplate_parts t :
  exists r found,
    validateTemplate t = Return r /\
    foundSections t = Return found /\
    isValid r = Nat.eqb (length (violations r)) 0 /\
    violations r =
      schemaEntries t ++ requiredEntries t ++ orderLoop found (-1) [] ++
      validateContent t [] ++ validateVariables t [] ++ validateFormat t [].
Proof.
  destruct (validateTemplate_returns t) as [r [Hr Hv]].
  assert (Hstart :
    match templateSchema_parse t with
    | Parsed => Return []
    | ZodError issues =>
        match nth_error issues 0 with
        | Some i => Return (push [] {| rule := u "schema"; message := issueMessage i;
                                       severity := error |})
        | None => Throw (TypeError "error.issues[0] is undefined")
        end
    end = Return (schemaEntries t)).
  { unfold templateSchema_parse. destruct t; reflexivity. }
  unfold validateTemplate in Hr. rewrite Hstart in Hr. simpl in Hr.
  destruct (validateStructure t (schemaEntries t)) as [vs1|] eqn:E1; [|discriminate].
  apply validateStructure_parts in E1. destruct E1 as (found & Hf & ->).
  simpl in Hr. inversion Hr; subst r; clear Hr.
  exists {| isValid := Nat.eqb (length (validateFormat t (validateVariables t
              (validateContent t (schemaEntries t ++ requiredEntries t ++
                 orderLoop found (-1) []))))) 0;
            violations := validateFormat t (validateVariables t
              (validateContent t (schemaEntries t ++ requiredEntries t ++
                 orderLoop found (-1) []))) |}, found.
  split; [|split; [exact Hf|split; [reflexivity|]]].
  - unfold validateTemplate. rewrite Hstart. simpl.
    destruct (validateStructure_returns t (schemaEntries t)) as [vs Hvs].
    rewrite Hvs. apply validateStructure_parts in Hvs.
    destruct Hvs as (found' & Hf' & ->). simpl.
    rewrite Hf in Hf'. inversion Hf'; subst. reflexivity.
  - cbn [violations].
    rewrite validateFormat_app, validateVariables_app, validateContent_app.
    rewrite <- !app_assoc. reflexivity.
Qed.

(** *** The rules of each check *)

Lemma Forall_push (Q : ValidationViolation -> Prop) vs v :
  Forall Q vs -> Q v -> Forall Q (push vs v).
Proof.
  intros Hvs Hv. unfold push. apply Forall_app. split; [exact Hvs|].
  constructor; [exact Hv | constructor].
Qed.

Ltac in_table :=
  unfold inTable, requiredTable, orderTable, contentTable, variableTable, formatTable;
  cbn [rule severity In];
  repeat (first [left; reflexivity | right]).

Ltac table_list :=
  repeat (first [apply Forall_nil | apply Forall_cons; [in_table|]]).

Lemma schemaEntries_table t : Forall (inTable [(u "schema", error)]) (schemaEntries t).
Proof. destruct t; simpl; table_list. Qed.

Lemma requiredEntries_table t : Forall (inTable requiredTable) (requiredEntries t).
Proof.
  unfold requiredEntries.
  destruct (test re_role t), (test re_context t), (test re_task t), (test re_format t);
    simpl; table_list.
Qed.

Lemma orderLoop_table found : forall lastIndex vs,
  Forall (inTable orderTable) vs ->
  Forall (inTable orderTable) (orderLoop found lastIndex vs).
Proof.
  induction found as [|section rest IH]; intros lastIndex vs Hvs; simpl.
  - exact Hvs.
  - apply IH. destruct (_ <? _)%Z; [|exact Hvs].
    apply Forall_push; [exact Hvs | in_table].
Qed.

Lemma sentenceLoop_table sentences : forall vs,
  Forall (inTable contentTable) vs ->
  Forall (inTable contentTable) (sentenceLoop sentences vs).
Proof.
  induction sentences as [|sentence rest IH]; intros vs Hvs; simpl.
  - exact Hvs.
  - apply IH. destruct (_ <? _)%nat; [|exact Hvs].
    apply Forall_push; [exact Hvs | in_table].
Qed.

Lemma termLoop_table content terms : forall vs,
  Forall (inTable contentTable) vs ->
  Forall (inTable contentTable) (termLoop content terms vs).
Proof.
  induction terms as [|term rest IH]; intros vs Hvs; simpl.
  - exact Hvs.
  - apply IH. destruct (test _ content); [|exact Hvs].
    apply Forall_push; [exact Hvs | in_table].
Qed.

Lemma validateContent_table content :
  Forall (inTable contentTable) (validateContent content []).
Proof.
  unfold validateContent. apply termLoop_table.
  destruct (test re_nestedParens content).
  - apply Forall_push; [|in_table]. apply sentenceLoop_table. constructor.
  - apply sentenceLoop_table. constructor.
Qed.

Lemma variableLoop_table variables : forall vs,
  Forall (inTable variableTable) vs ->
  Forall (inTable variableTable) (variableLoop variables vs).
Proof.
  induction variables as [|variable rest IH]; intros vs Hvs; simpl.
  - exact Hvs.
  - apply IH. destruct (negb _); [|exact Hvs].
    apply Forall_push; [exact Hvs | in_table].
Qed.

Lemma validateVariables_table content :
  Forall (inTable variableTable) (validateVariables content []).
Proof.
  unfold validateVariables.
  assert (H : Forall (inTable variableTable)
                (variableLoop (matchAll re_braces content)
                   (if (1 <? length (filter (fun count => (0 <? count)%nat)
                          (map (fun format => length (matchAll format content))
                               variableFormats)))%nat
                    then push [] {| rule := u "variable-format";
                                    message := u "Inconsistent variable formats detected. Use {{variableName}} format consistently";
                                    severity := error |}
                    else []))).
  { apply variableLoop_table. destruct (1 <? _)%nat; [|constructor].
    apply Forall_push; [constructor | in_table]. }
  destruct (Nat.eqb _ 0 && _); [|exact H].
  apply Forall_push; [exact H | in_table].
Qed.

Lemma validateFormat_table content :
  Forall (inTable formatTable) (validateFormat content []).
Proof.
  unfold validateFormat.
  destruct (test re_trailing content); destruct (matchAll re_blank_run content);
    destruct (existsb _ (matchAll re_headers content)); destruct (1 <? _)%nat;
    unfold push; simpl; table_list.
Qed.

Lemma inTable_weaken tbl tbl' l :
  incl tbl tbl' -> Forall (inTable tbl) l -> Forall (inTable tbl') l.
Proof.
  intros Hi. apply Forall_impl. intros v Hv. apply Hi. exact Hv.
Qed.

(** Entries of a table that avoids a rule are not selected by that rule. *)
Lemma filter_avoided tag tbl l :
  tableAvoids tag tbl = true ->
  Forall (inTable tbl) l ->
  filter (hasRule tag) l = [].
Proof.
  intros Ht Hl. induction Hl as [|v l Hv _ IH]; simpl; [reflexivity|].
  unfold tableAvoids in Ht. rewrite forallb_forall in Ht.
  specialize (Ht _ Hv). simpl in Ht. unfold hasRule at 1.
  destruct (str_eqb (rule v) tag); [discriminate | exact IH].
Qed.

(** Entries that all carry a rule are all selected by it. *)
Lemma filter_all tag sev l :
  Forall (inTable [(tag, sev)]) l -> filter (hasRule tag) l = l.
Proof.
  intros Hl. induction Hl as [|v l Hv _ IH]; simpl; [reflexivity|].
  destruct Hv as [Hv|[]]. injection Hv as Hr Hs.
  unfold hasRule at 1. rewrite <- Hr, str_eqb_refl. now rewrite IH.
Qed.

(** *** The order check counts descents *)

Lemma arrayIndexOf_lower a x : forall i, (0 <= i)%Z -> (-1 <= arrayIndexOf a x i)%Z.
Proof.
  induction a as [|y a IH]; intros i Hi; simpl; [lia|].
  destruct (str_eqb y x); [lia|]. apply IH. lia.
Qed.

Lemma orderLoop_length found : forall lastIndex,
  length (orderLoop found lastIndex []) = descents (lastIndex :: map rank found).
Proof.
  induction found as [|section rest IH]; intros lastIndex; [reflexivity|].
  cbn [orderLoop map]. rewrite orderLoop_app, length_app, IH.
  change (descents (lastIndex :: rank section :: map rank rest))
    with ((if (rank section <? lastIndex)%Z then 1 else 0)
          + descents (rank section :: map rank rest)).
  unfold rank at 1 4. destruct (_ <? _)%Z; reflexivity.
Qed.

Lemma descents_from_below l : descents ((-1)%Z :: map rank l) = descents (map rank l).
Proof.
  destruct l as [|x l]; [reflexivity|].
  cbn [map]. change (descents ((-1)%Z :: rank x :: map rank l))
    with ((if (rank x <? -1)%Z then 1 else 0) + descents (rank x :: map rank l)).
  pose proof (arrayIndexOf_lower sectionOrder x (Z.le_refl 0)) as H.
  unfold rank at 1. destruct (Z.ltb_spec (arrayIndexOf sectionOrder x 0) (-1)); [lia|].
  reflexivity.
Qed.

End RulesLaws.

Import Laws.

(** X1: validate never short-circuits and never touches earlier entries:
    its list is the schema entry of the empty input, then the entries of
    the structure check, of the content check, of the variable check and of
    the format check, in that order, each as the check yields them when run
    on an empty list. *)
Theorem validate_accumulates (t : str) :
  exists r structure,
    Server.validate t = Return r /\
    Rules.validateStructure t [] = Return structure /\
    Rules.violations r =
      schemaEntries t ++ structure ++ Rules.validateContent t [] ++
      Rules.validateVariables t [] ++ Rules.validateFormat t [].
Proof.
  destruct (RulesLaws.validateTemplate_parts t) as (r & found & Hr & Hf & _ & Hv).
  destruct (RulesFacts.validateStructure_returns t []) as [structure Hs].
  exists r, structure. split; [exact Hr|]. split; [exact Hs|].
  apply RulesLaws.validateStructure_parts in Hs.
  destruct Hs as (found' & Hf' & ->). rewrite Hf in Hf'. inversion Hf'; subst found'.
  rewrite Hv. simpl. now rewrite <- !app_assoc.
Qed.

(** X2: validate raises the [schema] error for the input of length 0 and for
    no other input; an input of white space only gets no [schema] entry. *)
Theorem schema_only_for_empty (t : str) :
  exists r,
    Server.validate t = Return r /\
    filter (hasRule (u "schema")) (Rules.violations r) = schemaEntries t.
Proof.
  destruct (RulesLaws.validateTemplate_parts t) as (r & found & Hr & _ & _ & Hv).
  exists r. split; [exact Hr|]. rewrite Hv, !filter_app.
  rewrite (RulesLaws.filter_all (RulesLaws.schemaEntries_table t)).
  rewrite (RulesLaws.filter_avoided (u "schema") (tbl := requiredTable) eq_refl
             (RulesLaws.requiredEntries_table t)).
  rewrite (RulesLaws.filter_avoided (u "schema") (tbl := orderTable) eq_refl
             (RulesLaws.orderLoop_table found (-1) (Forall_nil _))).
  rewrite (RulesLaws.filter_avoided (u "schema") (tbl := contentTable) eq_refl
             (RulesLaws.validateContent_table t)).
  rewrite (RulesLaws.filter_avoided (u "schema") (tbl := variableTable) eq_refl
             (RulesLaws.validateVariables_table t)).
  rewrite (RulesLaws.filter_avoided (u "schema") (tbl := formatTable) eq_refl
             (RulesLaws.validateFormat_table t)).
  now rewrite !app_nil_r.
Qed.

(** X3: every entry validate returns carries one of the thirteen rule names
    of the table, with a severity the table lists for it; so an entry of
    error severity is a [schema], [required-sections], [variable-format] or
    [variable-naming] entry, and the content and format checks only warn. *)
Theorem validate_rules_and_severities (t : str) :
  exists r,
    Server.validate t = Return r /\
    Forall (inTable ruleTable) (Rules.violations r) /\
    forall v, In v (Rules.violations r) ->
      Rules.severity v = Rules.error -> In (Rules.rule v) errorRules.
Proof.
  destruct (RulesLaws.validateTemplate_parts t) as (r & found & Hr & _ & _ & Hv).
  exists r. split; [exact Hr|].
  assert (Ht : Forall (inTable ruleTable) (Rules.violations r)).
  { rewrite Hv.
    apply Forall_app; split;
      [|apply Forall_app; split;
         [|apply Forall_app; split;
            [|apply Forall_app; split; [|apply Forall_app; split]]]].
    - eapply RulesLaws.inTable_weaken; [|apply RulesLaws.schemaEntries_table].
      intros e He. unfold ruleTable. simpl in *. tauto.
    - eapply RulesLaws.inTable_weaken; [|apply RulesLaws.requiredEntries_table].
      intros e He. unfold ruleTable, requiredTable in *. simpl in *. tauto.
    - eapply RulesLaws.inTable_weaken;
        [|apply RulesLaws.orderLoop_table; constructor].
      intros e He. unfold ruleTable, orderTable in *. simpl in *. tauto.
    - eapply RulesLaws.inTable_weaken; [|apply RulesLaws.validateContent_table].
      intros e He. unfold ruleTable, contentTable in *. simpl in *. tauto.
    - eapply RulesLaws.inTable_weaken; [|apply RulesLaws.validateVariables_table].
      intros e He. unfold ruleTable, variableTable in *. simpl in *. tauto.
    - eapply RulesLaws.inTable_weaken; [|apply RulesLaws.validateFormat_table].
      intros e He. unfold ruleTable, formatTable in *. simpl in *. tauto. }
  split; [exact Ht|].
  intros v Hin Hsev. rewrite Forall_forall in Ht. specialize (Ht v Hin).
  unfold inTable, ruleTable in Ht. cbn [In] in Ht. rewrite Hsev in Ht.
  unfold errorRules. cbn [In].
  repeat (destruct Ht as [Ht|Ht];
          [first [discriminate Ht
                 | injection Ht as Hrule; rewrite <- Hrule;
                   repeat (first [left; reflexivity | right])]|]).
  destruct Ht.
Qed.

(** X4: a template that validate accepts has its four sections at line
    starts, holds none of the ambiguous terms as a whole word, and has no
    trailing white space. *)
Theorem valid_template_is_complete (t : str) (r : Rules.ValidationResult) :
  Server.validate t = Return r ->
  Rules.isValid r = true ->
  allSectionsPresent t = true /\
  (forall term, In term Rules.ambiguousTerms -> ~ wholeWord term t) /\
  noTrailingWhitespace t = true.
Proof.
  intros Hr Hvalid.
  destruct (RulesLaws.validateTemplate_parts t) as (r' & found & Hr' & _ & Hiv & Hv).
  unfold Server.validate in Hr. rewrite Hr in Hr'. inversion Hr'; subst r'; clear Hr'.
  rewrite Hvalid in Hiv. symmetry in Hiv. apply Nat.eqb_eq in Hiv.
  apply length_zero_iff_nil in Hiv. rewrite Hiv in Hv. symmetry in Hv.
  apply app_eq_nil in Hv. destruct Hv as [_ Hv].
  apply app_eq_nil in Hv. destruct Hv as [Hreq Hv].
  apply app_eq_nil in Hv. destruct Hv as [_ Hv].
  apply app_eq_nil in Hv. destruct Hv as [Hcontent Hv].
  apply app_eq_nil in Hv. destruct Hv as [_ Hformat].
  split; [|split].
  - unfold requiredEntries in Hreq. unfold allSectionsPresent, Optimizer.identifySections.
    cbn [Optimizer.role Optimizer.context Optimizer.task Optimizer.format].
    change (test Rules.re_role t && test Rules.re_context t &&
            test Rules.re_task t && test Rules.re_format t = true).
    destruct (test Rules.re_role t), (test Rules.re_context t),
             (test Rules.re_task t), (test Rules.re_format t);
      simpl in Hreq; try discriminate; reflexivity.
  - intros term Hin Hw.
    destruct (Counting.ambiguousTerms_letters Hin) as [Hne Hl].
    apply (WordFacts.test_term_wholeWord Hne Hl) in Hw.
    unfold Rules.validateContent in Hcontent.
    rewrite RulesFacts.termLoop_app in Hcontent.
    apply app_eq_nil in Hcontent. destruct Hcontent as [_ Hterms].
    apply map_eq_nil in Hterms.
    assert (Hf : In term (filter (fun term => test (Rules.re_term term) t)
                                 Rules.ambiguousTerms)).
    { apply filter_In. split; assumption. }
    rewrite Hterms in Hf. destruct Hf.
  - unfold noTrailingWhitespace. unfold Rules.validateFormat in Hformat.
    destruct (test Rules.re_trailing t); [|reflexivity].
    unfold Rules.push in Hformat. apply app_eq_nil in Hformat.
    destruct Hformat as [_ Hformat]. discriminate.
Qed.

(** X4, at a template with the four sections and nothing else to report. *)
Lemma valid_template_is_complete_witness :
  allSectionsPresent
    (u "ROLE: a" ++ LF ++ LF ++ u "CONTEXT: b" ++ LF ++ LF ++
     u "TASK: c" ++ LF ++ LF ++ u "FORMAT: d") = true /\
  (forall term, In term Rules.ambiguousTerms ->
     ~ wholeWord term
         (u "ROLE: a" ++ LF ++ LF ++ u "CONTEXT: b" ++ LF ++ LF ++
          u "TASK: c" ++ LF ++ LF ++ u "FORMAT: d")) /\
  noTrailingWhitespace
    (u "ROLE: a" ++ LF ++ LF ++ u "CONTEXT: b" ++ LF ++ LF ++
     u "TASK: c" ++ LF ++ LF ++ u "FORMAT: d") = true.
Proof.
  apply (@valid_template_is_complete _
           {| Rules.isValid := true; Rules.violations := [] |}).
  - vm_compute. reflexivity.
  - reflexivity.
Defined.

(** X5: validate raises one [section-order] warning for each section label
    that ranks below the label found just before it, in the order ROLE,
    CONTEXT, TASK, FORMAT, OUTPUT, and no other: their number is the number
    of descents in the ranks of the labels found line by line. *)
Theorem section_order_counts_descents (t : str) :
  exists r found,
    Server.validate t = Return r /\
    foundSections t = Return found /\
    length (filter (hasRule (u "section-order")) (Rules.violations r))
      = descents (map rank found).
Proof.
  destruct (RulesLaws.validateTemplate_parts t) as (r & found & Hr & Hf & _ & Hv).
  exists r, found. split; [exact Hr|]. split; [exact Hf|].
  rewrite Hv, !filter_app.
  rewrite (RulesLaws.filter_avoided (u "section-order") (tbl := [(u "schema", Rules.error)])
             eq_refl (RulesLaws.schemaEntries_table t)).
  rewrite (RulesLaws.filter_avoided (u "section-order") (tbl := requiredTable) eq_refl
             (RulesLaws.requiredEntries_table t)).
  rewrite (RulesLaws.filter_all
             (RulesLaws.orderLoop_table found (-1) (Forall_nil _))).
  rewrite (RulesLaws.filter_avoided (u "section-order") (tbl := contentTable) eq_refl
             (RulesLaws.validateContent_table t)).
  rewrite (RulesLaws.filter_avoided (u "section-order") (tbl := variableTable) eq_refl
             (RulesLaws.validateVariables_table t)).
  rewrite (RulesLaws.filter_avoided (u "section-order") (tbl := formatTable) eq_refl
             (RulesLaws.validateFormat_table t)).
  simpl. rewrite app_nil_r, RulesLaws.orderLoop_length.
  apply RulesLaws.descents_from_below.
Qed.

(* ================================================================== *)
(** ** What a match consumes *)
(* ================================================================== *)

Module ReLaws.
Import Js Re Device ReFacts.

Lemma moved_refl z : moved z [] z.
Proof. split; reflexivity. Qed.

Lemma moved_trans z1 w1 z2 w2 z3 :
  moved z1 w1 z2 -> moved z2 w2 z3 -> moved z1 (w1 ++ w2) z3.
Proof.
  intros [A1 B1] [A2 B2]. split.
  - rewrite A1, A2. now rewrite app_assoc.
  - rewrite B2, B1, rev_app_distr. now rewrite app_assoc.
Qed.

Lemma moved_step z x r :
  after z = x :: r -> moved z [x] {| before := x :: before z; after := r |}.
Proof. intros H. split; simpl; [exact H | reflexivity]. Qed.

Lemma moved_length z w z' :
  moved z w z' -> length (after z) = length w + length (after z').
Proof. intros [A _]. rewrite A. apply length_app. Qed.

Lemma moved_pos z w z' : moved z w z' -> pos z' = length w + pos z.
Proof.
  intros [_ B]. unfold pos. rewrite B, length_app, length_rev. reflexivity.
Qed.

(** Whatever a matcher returns, its continuation returned, at a cursor
    moved over a text of the pattern. *)
Definition consuming R (body : matcher R) (L : str -> Prop) : Prop :=
  forall z c k res,
    body z c k = Some res ->
    exists w z' c', L w /\ moved z w z' /\ k z' c' = Some res.

Lemma repeat_consuming R g (body : matcher R) (L : str -> Prop) :
  consuming body L ->
  forall k n z c res,
    repeat g body k n z c = Some res ->
    exists ws z' c',
      Forall L ws /\ moved z (concat ws) z' /\ k z' c' = Some res.
Proof.
  intros Hb k n. induction n as [|n IH]; simpl; intros z c res H.
  - exists [], z, c. split; [constructor|]. split; [apply moved_refl | exact H].
  - assert (Hagain :
      body z c (fun z' c' =>
        if (length (after z') <? length (after z))%nat
        then repeat g body k n z' c' else None) = Some res ->
      exists ws z' c',
        Forall L ws /\ moved z (concat ws) z' /\ k z' c' = Some res).
    { intros E. apply Hb in E. destruct E as (w & z1 & c1 & Hw & Hm & Hk).
      destruct (length (after z1) <? length (after z))%nat; [|discriminate].
      apply IH in Hk. destruct Hk as (ws & z2 & c2 & Hws & Hm2 & Hk2).
      exists (w :: ws), z2, c2. split; [constructor; assumption|].
      split; [|exact Hk2]. simpl. eapply moved_trans; eassumption. }
    destruct g.
    + destruct (body z c _).
      * apply Hagain. exact H.
      * exists [], z, c. split; [constructor|].
        split; [apply moved_refl | exact H].
    + destruct (k z c) eqn:E.
      * inversion H; subst. exists [], z, c. split; [constructor|].
        split; [apply moved_refl | exact E].
      * apply Hagain. exact H.
Qed.

Lemma m_denote f R (r : regex) : consuming (m f (R := R) r) (denote f r).
Proof.
  induction r; intros z cs k res H; pose proof H as H0; simpl in H.
  - exists [], z, cs. split; [reflexivity|]. split; [apply moved_refl | exact H].
  - apply step_some in H. destruct H as (x & r & Ha & Hok & H).
    eexists [x], _, cs. split; [exists x; auto|].
    split; [apply moved_step; exact Ha | exact H].
  - apply step_some in H. destruct H as (x & r & Ha & Hok & H).
    eexists [x], _, cs. split; [exists x; split; auto; now apply negb_true_iff|].
    split; [apply moved_step; exact Ha | exact H].
  - apply step_some in H. destruct H as (x & r & Ha & Hok & H).
    eexists [x], _, cs. split; [exists x; auto|].
    split; [apply moved_step; exact Ha | exact H].
  - apply step_some in H. destruct H as (x & r & Ha & Hok & H).
    eexists [x], _, cs. split; [exists x; split; auto; now apply negb_true_iff|].
    split; [apply moved_step; exact Ha | exact H].
  - apply IHr1 in H. destruct H as (w1 & z1 & c1 & Hw1 & Hm1 & H).
    apply IHr2 in H. destruct H as (w2 & z2 & c2 & Hw2 & Hm2 & H).
    exists (w1 ++ w2), z2, c2. split; [exists w1, w2; auto|].
    split; [eapply moved_trans; eassumption | exact H].
  - destruct (m f r1 z cs k) eqn:E.
    + inversion H; subst. apply IHr1 in E.
      destruct E as (w & z1 & c1 & Hw & Hm & Hk).
      exists w, z1, c1. split; [left; exact Hw|]. auto.
    + apply IHr2 in H. destruct H as (w & z1 & c1 & Hw & Hm & Hk).
      exists w, z1, c1. split; [right; exact Hw|]. auto.
  - change (repeat true (m f r) k (S (length (after z))) z cs = Some res) in H0.
    eapply repeat_consuming in H0; [|exact IHr].
    destruct H0 as (ws & z1 & c1 & Hws & Hm & Hk).
    exists (concat ws), z1, c1. split; [exists ws; auto|]. auto.
  - change (repeat false (m f r) k (S (length (after z))) z cs = Some res) in H0.
    eapply repeat_consuming in H0; [|exact IHr].
    destruct H0 as (ws & z1 & c1 & Hws & Hm & Hk).
    exists (concat ws), z1, c1. split; [exists ws; auto|]. auto.
  - apply IHr in H. destruct H as (w & z1 & c1 & Hw & Hm & Hk).
    eexists w, z1, _. split; [exact Hw|]. split; [exact Hm | exact Hk].
  - destruct (atBol f z); [|discriminate].
    exists [], z, cs. split; [reflexivity|]. split; [apply moved_refl | exact H].
  - destruct (atEol f z); [|discriminate].
    exists [], z, cs. split; [reflexivity|]. split; [apply moved_refl | exact H].
  - destruct (atWordB z); [|discriminate].
    exists [], z, cs. split; [reflexivity|]. split; [apply moved_refl | exact H].
Qed.

Lemma denote_nonEmpty f r : forall w, nonEmpty r = true -> denote f r w -> w <> [].
Proof.
  induction r; intros w Hn Hw; simpl in Hn, Hw; try discriminate.
  - destruct Hw as (x & -> & _). discriminate.
  - destruct Hw as (x & -> & _). discriminate.
  - destruct Hw as (x & -> & _). discriminate.
  - destruct Hw as (x & -> & _). discriminate.
  - destruct Hw as (w1 & w2 & -> & H1 & H2).
    apply orb_prop in Hn. destruct Hn as [Hn|Hn].
    + specialize (IHr1 _ Hn H1). destruct w1; [congruence | discriminate].
    + specialize (IHr2 _ Hn H2). destruct w2; [congruence|].
      destruct w1; discriminate.
  - apply andb_prop in Hn. destruct Hn as [Hn1 Hn2].
    destruct Hw as [Hw|Hw]; [eapply IHr1 | eapply IHr2]; eassumption.
  - eapply IHr; eassumption.
Qed.

(** Under [i], a literal consumes the texts that equal it up to case. *)
Lemma denote_Lit f s : ignoreCase f = true ->
  forall w, denote f (Lit s) w -> toUpperCase w = toUpperCase s.
Proof.
  intros Hi. induction s as [|a s IH]; intros w Hw; simpl in Hw.
  - now subst.
  - destruct Hw as (w1 & w2 & -> & (x & -> & Hx) & H2).
    unfold chrMatches in Hx. rewrite Hi in Hx. apply N.eqb_eq in Hx.
    simpl. rewrite (IH _ H2). unfold toUpperCase. simpl. congruence.
Qed.

(** A successful match, seen from the input: the text before it, the text
    it consumed, and the text after it. *)
Lemma scan_denote re bef aft i z c :
  scan re bef aft = Some (i, z, c) ->
  exists skipped w,
    denote (flag re) (source re) w /\
    aft = skipped ++ w ++ after z /\
    before z = rev w ++ rev skipped ++ bef /\
    i = length bef + length skipped.
Proof.
  revert bef. induction aft as [|x aft IH]; intros bef; simpl.
  - destruct (matchAt re _) as [[z' c']|] eqn:E; [|discriminate].
    intros H. inversion H; subst. unfold matchAt in E.
    apply m_denote in E. destruct E as (w & z1 & c1 & Hw & [Ha Hb] & Hk).
    inversion Hk; subst. cbn [before after] in *.
    exists [], w. repeat split; auto; try (simpl; lia).
  - destruct (matchAt re _) as [[z' c']|] eqn:E.
    + intros H. inversion H; subst. unfold matchAt in E.
      apply m_denote in E. destruct E as (w & z1 & c1 & Hw & [Ha Hb] & Hk).
      inversion Hk; subst. cbn [before after] in *.
      exists [], w. repeat split; auto; try (simpl; lia).
    + intros H. apply IH in H. destruct H as (skipped & w & Hw & Ha & Hb & Hi).
      exists (x :: skipped), w. split; [exact Hw|]. split; [|split].
      * simpl. now rewrite Ha.
      * rewrite Hb. simpl. now rewrite <- !app_assoc.
      * simpl in *. lia.
Qed.

End ReLaws.

(* ================================================================== *)
(** ** The analyzer against the anchored detection *)
(* ================================================================== *)

Module StructureLaws.
Import Js Re Device ReFacts RulesFacts ReLaws.

Lemma startsWith_app p rest : startsWith p (p ++ rest) = true.
Proof.
  induction p as [|a p IH]; simpl; [reflexivity|].
  now rewrite N.eqb_refl, IH.
Qed.

Lemma indexOfFrom_app p post pre : forall i,
  indexOfFrom p (pre ++ p ++ post) i <> None.
Proof.
  induction pre as [|x pre IH]; intros i.
  - simpl. destruct (p ++ post) eqn:E; simpl;
      rewrite <- ?E, startsWith_app; discriminate.
  - simpl. destruct (startsWith p (x :: pre ++ p ++ post)); [discriminate|].
    apply IH.
Qed.

Lemma includes_app pre p post : includes (pre ++ p ++ post) p = true.
Proof.
  unfold includes, indexOf.
  pose proof (indexOfFrom_app p post pre 0) as H.
  destruct (indexOfFrom p (pre ++ p ++ post) 0); congruence.
Qed.

Lemma same_upper_same_lower x a : upperUnit x = upperUnit a -> lowerUnit x = lowerUnit a.
Proof.
  unfold upperUnit, lowerUnit, isLower, isUpper.
  repeat match goal with
         | |- context [N.leb ?p ?q] => destruct (N.leb_spec p q)
         end; simpl; intros; lia.
Qed.

Lemma toUpperCase_toLowerCase w : forall s,
  toUpperCase w = toUpperCase s -> toLowerCase w = toLowerCase s.
Proof.
  induction w as [|x w IH]; intros [|a s] H; try discriminate; [reflexivity|].
  simpl in *. inversion H. f_equal; [now apply same_upper_same_lower | now apply IH].
Qed.

(** A text found by a pattern is a substring of the lower-cased content,
    lower-cased. *)
Lemma found_text_included re content w :
  (forall v, denote (flag re) (source re) v -> toLowerCase v = w) ->
  test re content = true ->
  includes (toLowerCase content) w = true.
Proof.
  intros Hd. rewrite test_scan.
  destruct (scan re [] content) as [[[i z] c]|] eqn:E; [|discriminate].
  intros _. apply scan_denote in E. destruct E as (skipped & v & Hv & Ha & _ & _).
  rewrite Ha. unfold toLowerCase. rewrite !map_app.
  rewrite <- (Hd v Hv). apply includes_app.
Qed.

Lemma anchored_label lit content :
  test {| source := Seq Bol (Lit lit); flag := fl_im |} content = true ->
  includes (toLowerCase content) (toLowerCase lit) = true.
Proof.
  apply found_text_included. cbn [flag source]. intros v Hv.
  destruct Hv as (w1 & w2 & -> & -> & H2). simpl.
  apply toUpperCase_toLowerCase. now apply denote_Lit with (f := fl_im).
Qed.

Lemma anchored_format content :
  test {| source := Seq Bol (Seq (Grp 1 (Alt (L "FORMAT") (L "OUTPUT"))) (Chr 58));
          flag := fl_im |} content = true ->
  includes (toLowerCase content) (u "format:") ||
  includes (toLowerCase content) (u "output:") = true.
Proof.
  rewrite test_scan.
  destruct (scan _ [] content) as [[[i z] c]|] eqn:E; [|discriminate].
  intros _. apply scan_denote in E. destruct E as (skipped & v & Hv & Ha & _ & _).
  cbn [flag source] in Hv.
  destruct Hv as (w1 & w2 & -> & -> & (w3 & w4 & -> & Hlab & (x & -> & Hx))).
  unfold chrMatches in Hx. cbn [ignoreCase fl_im] in Hx. apply N.eqb_eq in Hx.
  assert (Hcolon : lowerUnit x = 58%N).
  { symmetry in Hx. apply same_upper_same_lower in Hx. exact Hx. }
  rewrite Ha. unfold toLowerCase. rewrite !map_app. simpl. rewrite Hcolon.
  apply orb_true_iff. cbn [denote] in Hlab. destruct Hlab as [Hl|Hl].
  - left. apply denote_Lit with (f := fl_im) in Hl; [|reflexivity].
    apply toUpperCase_toLowerCase in Hl. unfold toLowerCase in Hl. rewrite Hl.
    change (includes (map lowerUnit skipped ++ u "format:" ++ map lowerUnit (after z))
                     (u "format:") = true).
    apply includes_app.
  - right. apply denote_Lit with (f := fl_im) in Hl; [|reflexivity].
    apply toUpperCase_toLowerCase in Hl. unfold toLowerCase in Hl. rewrite Hl.
    change (includes (map lowerUnit skipped ++ u "output:" ++ map lowerUnit (after z))
                     (u "output:") = true).
    apply includes_app.
Qed.

End StructureLaws.

(** X6: whenever the line-anchored detection of the enhancer and the
    validator finds a section, the substring detection of the analyzer
    reports it too: each flag of analyze is implied by the matching field of
    identifySections. *)
Theorem anchored_section_sets_flag (content : str)
    (metadata : option Structure.TemplateMetadata) :
  (Optimizer.role (Optimizer.identifySections content) = true ->
   Structure.hasRole (Structure.structure (Structure.analyzeTemplate content metadata)) = true) /\
  (Optimizer.context (Optimizer.identifySections content) = true ->
   Structure.hasContext (Structure.structure (Structure.analyzeTemplate content metadata)) = true) /\
  (Optimizer.task (Optimizer.identifySections content) = true ->
   Structure.hasTask (Structure.structure (Structure.analyzeTemplate content metadata)) = true) /\
  (Optimizer.format (Optimizer.identifySections content) = true ->
   Structure.hasResponseFormat
     (Structure.structure (Structure.analyzeTemplate content metadata)) = true).
Proof.
  repeat split; intros H.
  - apply (StructureLaws.anchored_label (u "ROLE:")). exact H.
  - apply (StructureLaws.anchored_label (u "CONTEXT:")). exact H.
  - apply (StructureLaws.anchored_label (u "TASK:")). exact H.
  - apply StructureLaws.anchored_format. exact H.
Qed.

(** X6, at a template whose four labels are in mixed case, with OUTPUT for
    the response format. *)
Lemma anchored_section_sets_flag_witness :
  Structure.structure
    (Structure.analyzeTemplate
       (u "role: a" ++ LF ++ u "CONTEXT: b" ++ LF ++ u "Task: c" ++ LF ++ u "output: d")
       None)
  = {| Structure.hasRole := true; Structure.hasContext := true;
       Structure.hasTask := true; Structure.hasResponseFormat := true |}.
Proof.
  destruct (anchored_section_sets_flag
              (u "role: a" ++ LF ++ u "CONTEXT: b" ++ LF ++ u "Task: c" ++ LF ++ u "output: d")
              None) as (H1 & H2 & H3 & H4).
  specialize (H1 eq_refl). specialize (H2 eq_refl).
  specialize (H3 eq_refl). specialize (H4 eq_refl).
  destruct (Structure.structure _) as [a b c d].
  cbn [Structure.hasRole Structure.hasContext Structure.hasTask
       Structure.hasResponseFormat] in *.
  now rewrite H1, H2, H3, H4.
Defined.

(* ================================================================== *)
(** ** The content and pattern analyses *)
(* ================================================================== *)

Module ContentLaws.
Import Js Re Types Content.

Lemma vagueLoop_lengths content terms : forall acc,
  exists k,
    k <= length terms /\
    length (fst (vagueLoop content terms acc)) = length (fst acc) + k /\
    length (snd (vagueLoop content terms acc)) = length (snd acc) + k.
Proof.
  induction terms as [|term rest IH]; intros acc; cbn [vagueLoop].
  - exists 0. cbn [length]. repeat split; lia.
  - destruct (includes (toLowerCase content) term).
    + destruct (IH (fst acc ++ [u "Contains vague term: " ++ DQ ++ term ++ DQ],
                    snd acc ++ [u "Be more specific and explicit"]))
        as (k & Hk & Hi & Hs).
      exists (S k). rewrite Hi, Hs. cbn [fst snd]. rewrite !length_app.
      cbn [length]. repeat split; lia.
    + destruct (IH acc) as (k & Hk & Hi & Hs). exists k. cbn [length].
      repeat split; auto.
Qed.

End ContentLaws.

Module PatternsLaws.
Import Js Re Types Patterns Device ReFacts RulesFacts ReLaws JsFacts Laws.

Lemma some_inj (A : Type) (x y : A) : Some x = Some y -> x = y.
Proof. congruence. Qed.

Lemma NoDup_snoc (A : Type) (l : list A) x : NoDup l -> ~ In x l -> NoDup (l ++ [x]).
Proof.
  induction l as [|y l IH]; intros Hn Hx; simpl.
  - constructor; [intros [] | constructor].
  - inversion Hn; subst. constructor.
    + intros Hin. apply in_app_or in Hin. destruct Hin as [Hin|[<-|[]]].
      * contradiction.
      * apply Hx. now left.
    + apply IH; [assumption|]. intros Hin. apply Hx. now right.
Qed.

Lemma setHas_In x l : setHas x l = true <-> In x l.
Proof.
  unfold setHas. rewrite existsb_exists. split.
  - intros (y & Hy & He). apply RulesLaws.str_eqb_eq in He. now subst.
  - intros H. exists x. split; [exact H | apply RulesLaws.str_eqb_refl].
Qed.

Lemma lastIndexOfUnit_upper c s : forall i from acc,
  (acc <= Z.of_nat from)%Z ->
  (lastIndexOfUnit c s i from acc <= Z.of_nat from)%Z.
Proof.
  induction s as [|x s IH]; intros i from acc Ha; simpl; [exact Ha|].
  destruct (Nat.ltb_spec from i); [exact Ha|].
  apply IH. destruct (N.eqb x c); [lia | exact Ha].
Qed.

Lemma record_wellFormed content p suggest mt a :
  wellFormed a -> wellFormed (record content p suggest mt a).
Proof.
  intros (Hn & Hl & Hm). unfold record.
  assert (Hline : 1 <= length (splitLines (firstn (index mt) content))).
  { pose proof (@splitUnit_nonempty 10%N (firstn (index mt) content)) as H.
    unfold splitLines. destruct (splitUnit 10 _); [congruence | simpl; lia]. }
  assert (Hcol : (0 <= Z.of_nat (index mt)
                      - lastIndexOfUnit 10%N content 0 (index mt) (-1))%Z).
  { pose proof (@lastIndexOfUnit_upper 10%N content 0 (index mt) (-1)%Z) as H.
    lia. }
  destruct (setHas (msg p) (accIssues a)) eqn:E; cbn [negb];
    unfold wellFormed; cbn [accIssues accSuggestions accMatches].
  - apply setHas_In in E. repeat split; auto.
    apply Forall_app. split; [exact Hm|]. constructor; [|constructor].
    cbn [message line column]. auto.
  - assert (Hnot : ~ In (msg p) (accIssues a)).
    { intros Hin. apply setHas_In in Hin. congruence. }
    repeat split.
    + now apply NoDup_snoc.
    + rewrite !length_app. simpl. lia.
    + apply Forall_app. split.
      * eapply Forall_impl; [|exact Hm]. intros x (Hx & Hxl & Hxc).
        repeat split; auto. apply in_or_app. now left.
      * constructor; [|constructor]. cbn [message line column].
        repeat split; auto. apply in_or_app. right. now left.
Qed.

Lemma execLoop_wellFormed content p suggest n : forall lastIndex a a',
  wellFormed a ->
  execLoop n content p suggest lastIndex a = Some a' ->
  wellFormed a'.
Proof.
  induction n as [|n IH]; intros lastIndex a a' Ha; simpl; [discriminate|].
  destruct (exec (rx p) content lastIndex) as [[mt|] li].
  - apply IH. now apply record_wellFormed.
  - intros H. inversion H; subst. exact Ha.
Qed.

Lemma forPatterns_wellFormed content suggest n catalogue : forall a a',
  wellFormed a ->
  forPatterns n content catalogue suggest a = Some a' ->
  wellFormed a'.
Proof.
  induction catalogue as [|p rest IH]; intros a a' Ha; simpl.
  - intros H. inversion H; subst. exact Ha.
  - destruct (execLoop n content p suggest 0 a) as [a1|] eqn:E; [|discriminate].
    apply IH. eapply execLoop_wellFormed; eassumption.
Qed.

End PatternsLaws.

(** X7: analyzeContent gives one suggestion per issue and raises at most
    seven issues (tone, sentence length, jargon, four vague terms); its
    score is 100 minus 10 per issue, so it lies between 30 and 100 and the
    floor at 0 is never reached. *)
Theorem content_score_bounds (content : str) :
  length (Types.issues (Content.analyzeContent content))
    = length (Types.suggestions (Content.analyzeContent content)) /\
  length (Types.issues (Content.analyzeContent content)) <= 7 /\
  Types.score (Content.analyzeContent content)
    = (100 - 10 * Z.of_nat (length (Types.issues (Content.analyzeContent content))))%Z /\
  (30 <= Types.score (Content.analyzeContent content) <= 100)%Z.
Proof.
  unfold Content.analyzeContent.
  destruct (includes (toLowerCase content) (u "you must") || _);
    destruct (PrimFloat.ltb 25 _);
    destruct (0 <? length (matchAll Content.re_complexWord content))%nat;
    match goal with
    | |- context [Content.vagueLoop content Content.vagueTerms ?acc] =>
        destruct (ContentLaws.vagueLoop_lengths content Content.vagueTerms acc)
          as (k & Hk & Hi & Hs);
        destruct (Content.vagueLoop content Content.vagueTerms acc) as [found hints]
    end;
    cbn [fst snd Types.score Types.issues Types.suggestions] in *;
    simpl in Hk, Hi, Hs; lia.
Qed.

(** X8: when the pattern analysis returns, its issue list holds no message
    twice and has one suggestion per issue, every recorded match is listed
    under its message, at a line from 1 and a column from 0, and the score
    lies between 0 and 100. *)
Theorem patterns_report_wellformed (n : nat) (content : str)
    (r : Types.AnalysisResult Patterns.PatternDetails) :
  Patterns.analyzePatterns n content = Some r ->
  NoDup (Types.issues r) /\
  length (Types.issues r) = length (Types.suggestions r) /\
  (forall mt, In mt (Patterns.patternMatches (Types.details r)) ->
     In (Types.message mt) (Types.issues r) /\
     1 <= Types.line mt /\ (0 <= Types.column mt)%Z) /\
  (0 <= Types.score r <= 100)%Z.
Proof.
  unfold Patterns.analyzePatterns.
  destruct (Patterns.forPatterns n content Patterns.ANTI_PATTERNS _ _) as [a1|] eqn:E1;
    [|discriminate].
  destruct (Patterns.forPatterns n content Patterns.FORMATTING_PATTERNS _ a1)
    as [a2|] eqn:E2; [|discriminate].
  intros H. apply PatternsLaws.some_inj in H. subst r.
  cbn [Types.issues Types.suggestions Types.details Types.score Patterns.patternMatches].
  assert (H0 : wellFormed {| Patterns.accIssues := []; Patterns.accSuggestions := [];
                             Patterns.accMatches := [] |}).
  { repeat split; constructor. }
  apply (PatternsLaws.forPatterns_wellFormed _ _ _ _ H0) in E1.
  apply (PatternsLaws.forPatterns_wellFormed _ _ _ _ E1) in E2.
  destruct E2 as (Hn & Hl & Hm).
  repeat split; auto.
  - rewrite Forall_forall in Hm. apply Hm. assumption.
  - rewrite Forall_forall in Hm. apply Hm. assumption.
  - rewrite Forall_forall in Hm. apply Hm. assumption.
  - lia.
  - assert (Hc : forall sv, (0 <= Patterns.countSeverity sv (Patterns.accMatches a2))%Z).
    { intros sv. unfold Patterns.countSeverity. apply Nat2Z.is_nonneg. }
    pose proof (Hc Types.error). pose proof (Hc Types.warning).
    pose proof (Hc Types.info). lia.
Qed.

(** X8, at a content with a [let] and a blank line at its end. *)
Lemma patterns_report_wellformed_witness :
  exists r,
    Patterns.analyzePatterns 5 (u "let x" ++ LF ++ LF) = Some r /\
    NoDup (Types.issues r) /\
    length (Types.issues r) = length (Types.suggestions r) /\
    (0 <= Types.score r <= 100)%Z.
Proof.
  destruct (Patterns.analyzePatterns 5 (u "let x" ++ LF ++ LF)) as [r|] eqn:E.
  - exists r. split; [reflexivity|].
    destruct (patterns_report_wellformed _ _ E) as (H1 & H2 & _ & H4). auto.
  - vm_compute in E. discriminate.
Defined.

(* ================================================================== *)
(** ** When the pattern analysis returns *)
(* ================================================================== *)

Module LoopLaws.
Import Js Re Types Patterns Device ReFacts RulesFacts ReLaws JsFacts Laws.

(** With [g], a match of a pattern that consumes something moves
    [lastIndex] forward, within the content. *)
Lemma exec_advances re s li mt li' :
  global (flag re) = true ->
  nonEmpty (source re) = true ->
  exec re s li = (Some mt, li') ->
  li < li' /\ li' <= length s.
Proof.
  intros Hg Hne. unfold exec. rewrite Hg.
  destruct (Nat.ltb_spec (length s) li) as [Hlt|Hle]; [discriminate|].
  destruct (scan re (rev (firstn li s)) (skipn li s)) as [[[i z] c]|] eqn:E;
    [|discriminate].
  intros H. injection H as _ Hli. subst li'. unfold result. cbn [endIndex].
  apply scan_denote in E. destruct E as (skipped & w & Hw & Ha & Hb & _).
  pose proof (@denote_nonEmpty (flag re) (source re) w Hne Hw) as Hnw.
  assert (Hlw : 1 <= length w) by (destruct w; [congruence | simpl; lia]).
  unfold pos. rewrite Hb, !length_app, !length_rev, length_firstn.
  apply (f_equal (@length N)) in Ha. rewrite length_skipn, !length_app in Ha.
  lia.
Qed.

Lemma execLoop_returns content p suggest :
  advancing p ->
  forall n li a,
    length content + 1 - li < n ->
    exists a', execLoop n content p suggest li a = Some a'.
Proof.
  intros [Hg Hne] n. induction n as [|n IH]; intros li a Hn; [lia|].
  cbn [execLoop]. destruct (exec (rx p) content li) as [[mt|] li'] eqn:E.
  - destruct (@exec_advances _ _ _ _ _ Hg Hne E) as [H1 H2].
    apply IH. lia.
  - exists a. reflexivity.
Qed.

Lemma forPatterns_returns content suggest n catalogue :
  Forall advancing catalogue ->
  length content + 1 < n ->
  forall a, exists a', forPatterns n content catalogue suggest a = Some a'.
Proof.
  intros Hc Hn. induction Hc as [|p rest Hp _ IH]; intros a; cbn [forPatterns].
  - exists a. reflexivity.
  - destruct (@execLoop_returns content p suggest Hp n 0 a) as [a1 ->]; [lia|].
    apply IH.
Qed.

Lemma forPatterns_app content suggest n c1 c2 : forall a,
  forPatterns n content (c1 ++ c2) suggest a =
  match forPatterns n content c1 suggest a with
  | None => None
  | Some a1 => forPatterns n content c2 suggest a1
  end.
Proof.
  induction c1 as [|p c1 IH]; intros a; cbn [forPatterns app]; [reflexivity|].
  destruct (execLoop n content p suggest 0 a); [apply IH | reflexivity].
Qed.

Lemma anti_patterns_advancing : Forall advancing ANTI_PATTERNS.
Proof. repeat constructor. Qed.

Lemma formatting_patterns_split :
  FORMATTING_PATTERNS = firstn 3 FORMATTING_PATTERNS ++ [lastPattern].
Proof. reflexivity. Qed.

Lemma formatting_patterns_advancing : Forall advancing (firstn 3 FORMATTING_PATTERNS).
Proof. repeat constructor. Qed.

(** Without [g], [exec] leaves [lastIndex] alone. *)
Lemma exec_keeps_lastIndex re s li :
  global (flag re) = false -> snd (exec re s li) = li.
Proof.
  intros Hg. unfold exec. rewrite Hg.
  destruct (length s <? 0)%nat; [reflexivity|].
  destruct (scan re _ _); reflexivity.
Qed.

Lemma lastPattern_loop_returns content suggest n a :
  test (rx lastPattern) content = false ->
  execLoop (S n) content lastPattern suggest 0 a = Some a.
Proof.
  unfold test. intros Ht. cbn [execLoop].
  destruct (exec (rx lastPattern) content 0) as [[mt|] li]; [discriminate|].
  reflexivity.
Qed.

Lemma lastPattern_loop_stuck content suggest :
  test (rx lastPattern) content = true ->
  forall n a, execLoop n content lastPattern suggest 0 a = None.
Proof.
  unfold test. intros Ht.
  pose proof (@exec_keeps_lastIndex (rx lastPattern) content 0 eq_refl) as Hk.
  destruct (exec (rx lastPattern) content 0) as [[mt|] li] eqn:E; [|discriminate].
  cbn [snd] in Hk. subst li.
  eapply PatternsFacts.execLoop_stuck. exact E.
Qed.

(** Where the last pattern matches: at a unit other than a line feed that
    ends the content, alone or followed by one line feed. *)
Lemma lastPattern_matchAt bef aft :
  matchAt (rx lastPattern) {| before := bef; after := aft |} <> None <->
  exists x, x <> 10%N /\ (aft = [x] \/ aft = [x; 10%N]).
Proof.
  unfold matchAt. cbn [rx lastPattern source flag].
  destruct aft as [|x [|y [|y' r]]]; cbn -[N.eqb];
    unfold chrMatches, atEol; cbn -[N.eqb].
  - split; [congruence|]. intros (x & _ & [H|H]); discriminate.
  - destruct (N.eqb_spec x 10); cbn -[N.eqb].
    + split; [congruence|]. intros (x' & Hx & [H|H]); inversion H; congruence.
    + split; [|discriminate]. intros _. exists x. auto.
  - destruct (N.eqb_spec x 10); cbn -[N.eqb].
    + split; [congruence|]. intros (x' & Hx & [H|H]); inversion H; congruence.
    + destruct (N.eqb_spec 10 y); cbn -[N.eqb].
      * split; [|discriminate]. intros _. exists x. subst. auto.
      * split; [congruence|]. intros (x' & Hx & [H|H]); inversion H; congruence.
  - destruct (N.eqb_spec x 10); cbn -[N.eqb].
    + split; [congruence|]. intros (x' & Hx & [H|H]); inversion H.
    + destruct (N.eqb_spec 10 y); cbn -[N.eqb];
        (split; [congruence|]; intros (x' & Hx & [H|H]); inversion H).
Qed.

Lemma lastPattern_test content :
  test (rx lastPattern) content = true <-> endsOpen content.
Proof.
  rewrite test_scan. split.
  - destruct (scan (rx lastPattern) [] content) as [[[i z] c]|] eqn:E; [|discriminate].
    intros _. apply scan_some in E. destruct E as (bef & aft & Hm & Hs & _).
    simpl in Hs.
    assert (Hn : matchAt (rx lastPattern) {| before := bef; after := aft |} <> None)
      by congruence.
    apply lastPattern_matchAt in Hn. destruct Hn as (x & Hx & Haft).
    exists (rev bef), x. split; [exact Hx|].
    destruct Haft as [->| ->]; [left | right]; now rewrite <- Hs.
  - intros (pre & x & Hx & Hc).
    assert (Hs : exists aft, content = pre ++ aft /\
                   matchAt (rx lastPattern) {| before := rev pre ++ []; after := aft |}
                   <> None).
    { destruct Hc as [->| ->]; eexists; (split; [reflexivity|]);
        apply lastPattern_matchAt; exists x; auto. }
    destruct Hs as (aft & -> & Hm). apply scan_complete in Hm.
    destruct (scan (rx lastPattern) [] (pre ++ aft)); congruence.
Qed.

Lemma analyzePatterns_stuck content :
  test (rx lastPattern) content = true ->
  forall n, analyzePatterns n content = None.
Proof.
  intros Ht n. unfold analyzePatterns.
  destruct (forPatterns n content ANTI_PATTERNS _ _) as [a|]; [|reflexivity].
  rewrite formatting_patterns_split, forPatterns_app.
  destruct (forPatterns n content (firstn 3 FORMATTING_PATTERNS) _ a) as [a1|];
    [|reflexivity].
  cbn [forPatterns]. now rewrite (lastPattern_loop_stuck _ _ Ht).
Qed.

Lemma analyzePatterns_returns content :
  test (rx lastPattern) content = false ->
  exists r, analyzePatterns (length content + 2) content = Some r.
Proof.
  intros Ht. unfold analyzePatterns.
  edestruct (forPatterns_returns content) as [a1 ->];
    [apply anti_patterns_advancing | |]; [lia|].
  rewrite formatting_patterns_split, forPatterns_app.
  edestruct (forPatterns_returns content) as [a2 ->];
    [apply formatting_patterns_advancing | |]; [lia|].
  cbn [forPatterns]. replace (length content + 2) with (S (length content + 1)) by lia.
  rewrite (lastPattern_loop_returns _ _ _ _ Ht).
  eexists. reflexivity.
Qed.

End LoopLaws.

(** X9: analyze returns exactly for the contents that do not end in a unit
    other than a line feed, alone or followed by one line feed (so: for the
    empty content, a single line feed, and contents that end in two line
    feeds).  For the others no number of iterations is enough; for these,
    the length of the content plus two iterations per loop are. *)
Theorem analyze_returns_iff (content : str) :
  (endsOpen content -> forall n, Server.analyze n content = None) /\
  (~ endsOpen content ->
   exists a, Server.analyze (length content + 2) content = Some a).
Proof.
  split.
  - intros He n. apply LoopLaws.lastPattern_test in He.
    unfold Server.analyze. now rewrite (LoopLaws.analyzePatterns_stuck _ He).
  - intros He.
    assert (Ht : test (Patterns.rx lastPattern) content = false).
    { destruct (test (Patterns.rx lastPattern) content) eqn:E; [|reflexivity].
      apply LoopLaws.lastPattern_test in E. contradiction. }
    destruct (LoopLaws.analyzePatterns_returns _ Ht) as [r Hr].
    unfold Server.analyze. rewrite Hr. eexists. reflexivity.
Qed.

(** X9, at a content that ends in a letter and at one that ends in a blank
    line. *)
Lemma analyze_returns_iff_witness :
  (forall n, Server.analyze n (u "Summarize the text") = None) /\
  (exists a, Server.analyze 22 (u "Summarize the text" ++ LF ++ LF) = Some a).
Proof.
  split.
  - apply (proj1 (analyze_returns_iff (u "Summarize the text"))).
    exists (u "Summarize the tex"), 116%N. split; [discriminate | now left].
  - apply (proj2 (analyze_returns_iff (u "Summarize the text" ++ LF ++ LF))).
    intros He. apply LoopLaws.lastPattern_test in He. vm_compute in He. discriminate.
Defined.

(* ================================================================== *)
(** ** Lines, and the duplicate filter of the enhancer *)
(* ================================================================== *)

Module LineLaws.
Import Js Re JsFacts Optimizer Laws.

Lemma join_cons sep x y l : join sep (x :: y :: l) = x ++ sep ++ join sep (y :: l).
Proof. reflexivity. Qed.

(** Joining the lines of a text gives the text back. *)
Lemma join_splitUnit sep s : join [sep] (splitUnit sep s) = s.
Proof.
  induction s as [|c r IH]; [reflexivity|].
  cbn [splitUnit]. pose proof (@splitUnit_nonempty sep r) as Hne.
  destruct (N.eqb_spec c sep) as [->|Hc].
  - destruct (splitUnit sep r) as [|h t]; [congruence|].
    rewrite join_cons. cbn [app]. now rewrite IH.
  - destruct (splitUnit sep r) as [|h t]; [congruence|].
    destruct t as [|h' t].
    + cbn [join] in *. now rewrite IH.
    + rewrite join_cons in *. rewrite <- IH. reflexivity.
Qed.

Lemma splitUnit_lines sep s : Forall (fun line => ~ In sep line) (splitUnit sep s).
Proof.
  induction s as [|c r IH]; cbn [splitUnit].
  - constructor; [intros [] | constructor].
  - destruct (N.eqb_spec c sep) as [->|Hc].
    + constructor; [intros [] | exact IH].
    + destruct (splitUnit sep r) as [|h t]; [repeat constructor; intros [H|[]]; congruence|].
      inversion IH; subst. constructor; [|assumption].
      intros [H|H]; [congruence | contradiction].
Qed.

Lemma splitUnit_app sep x rest :
  ~ In sep x -> splitUnit sep (x ++ sep :: rest) = x :: splitUnit sep rest.
Proof.
  induction x as [|c x IH]; intros Hx; cbn [app splitUnit].
  - now rewrite N.eqb_refl.
  - destruct (N.eqb_spec c sep) as [->|Hc]; [exfalso; apply Hx; now left|].
    rewrite IH; [reflexivity|]. intros H. apply Hx. now right.
Qed.

Lemma splitUnit_single sep x : ~ In sep x -> splitUnit sep x = [x].
Proof.
  induction x as [|c x IH]; intros Hx; cbn [splitUnit]; [reflexivity|].
  destruct (N.eqb_spec c sep) as [->|Hc]; [exfalso; apply Hx; now left|].
  rewrite IH; [reflexivity|]. intros H. apply Hx. now right.
Qed.

(** Splitting joined lines gives the lines back. *)
Lemma splitUnit_join sep l :
  l <> [] -> Forall (fun line => ~ In sep line) l ->
  splitUnit sep (join [sep] l) = l.
Proof.
  induction l as [|x l IH]; intros Hne Hl; [congruence|].
  inversion Hl as [|? ? Hx Hl']; subst.
  destruct l as [|y l].
  - simpl. now apply splitUnit_single.
  - rewrite join_cons. change ([sep] ++ join [sep] (y :: l)) with (sep :: join [sep] (y :: l)).
    rewrite splitUnit_app by exact Hx. f_equal. apply IH; [discriminate | exact Hl'].
Qed.

Lemma setAdd_In x y s : In x (setAdd y s) <-> x = y \/ In x s.
Proof.
  unfold setAdd. destruct (setHas y s) eqn:E.
  - apply PatternsLaws.setHas_In in E. split; [auto|]. intros [->|H]; assumption.
  - rewrite in_app_iff. simpl. split.
    + intros [H|[H|[]]]; auto.
    + intros [H|H]; auto.
Qed.

Lemma setAdd_nonempty y s : setAdd y s <> [].
Proof.
  unfold setAdd. destruct (setHas y s) eqn:E.
  - apply PatternsLaws.setHas_In in E. destruct s; [destruct E | discriminate].
  - destruct s; discriminate.
Qed.

(** One step of the filter, by the three cases of its callback. *)
Lemma filterLoop_cons line rest U D :
  filterLoop (line :: rest) U D =
  if exempt line then
    (line :: fst (filterLoop rest U D), snd (filterLoop rest U D))
  else if setHas (normalize line) U then
    filterLoop rest U (setAdd (normalize line) D)
  else
    (line :: fst (filterLoop rest (setAdd (normalize line) U) D),
     snd (filterLoop rest (setAdd (normalize line) U) D)).
Proof.
  cbn [filterLoop]. unfold exempt, normalize.
  destruct (Nat.eqb _ 0 || _).
  - destruct (filterLoop rest U D); reflexivity.
  - destruct (setHas _ U); [reflexivity|].
    destruct (filterLoop rest _ D); reflexivity.
Qed.

Lemma filterLoop_kept lines : forall U D,
  subseq (fst (filterLoop lines U D)) lines /\
  filter exempt (fst (filterLoop lines U D)) = filter exempt lines /\
  NoDup (map normalize (filter (fun l => negb (exempt l)) (fst (filterLoop lines U D)))) /\
  (forall l, In l (fst (filterLoop lines U D)) -> exempt l = false ->
             ~ In (normalize l) U).
Proof.
  induction lines as [|line rest IH]; intros U D.
  - simpl. repeat split; try constructor. intros l [].
  - rewrite filterLoop_cons. destruct (exempt line) eqn:Ex.
    + destruct (IH U D) as (Hs & He & Hn & Hu). cbn [fst filter]. rewrite Ex.
      cbn [negb]. repeat split.
      * now constructor.
      * now rewrite He.
      * exact Hn.
      * intros l [<-|Hl] Hl'; [congruence | now apply Hu].
    + destruct (setHas (normalize line) U) eqn:Eh.
      * destruct (IH U (setAdd (normalize line) D)) as (Hs & He & Hn & Hu).
        cbn [filter]. rewrite Ex. repeat split; auto. now constructor.
      * destruct (IH (setAdd (normalize line) U) D) as (Hs & He & Hn & Hu).
        cbn [fst filter]. rewrite Ex. cbn [negb map]. repeat split.
        -- now constructor.
        -- exact He.
        -- constructor; [|exact Hn]. intros Hin. apply in_map_iff in Hin.
           destruct Hin as (l & Hl & Hin). apply filter_In in Hin.
           destruct Hin as [Hin Hne]. apply negb_true_iff in Hne.
           apply (Hu l Hin Hne). apply setAdd_In. left. exact Hl.
        -- intros l [<-|Hl] Hl'.
           ++ intros Hin. apply PatternsLaws.setHas_In in Hin. congruence.
           ++ intros Hin. apply (Hu l Hl Hl'). apply setAdd_In. now right.
Qed.

(** Running the filter on what it kept keeps everything. *)
Lemma filterLoop_fixed lines : forall U D D0,
  filterLoop (fst (filterLoop lines U D)) U D0 = (fst (filterLoop lines U D), D0).
Proof.
  induction lines as [|line rest IH]; intros U D D0; [reflexivity|].
  rewrite filterLoop_cons. destruct (exempt line) eqn:Ex.
  - cbn [fst]. rewrite filterLoop_cons, Ex, IH. reflexivity.
  - destruct (setHas (normalize line) U) eqn:Eh.
    + apply IH.
    + cbn [fst]. rewrite filterLoop_cons, Ex, Eh, IH. reflexivity.
Qed.

(** When nothing was recorded as a duplicate, nothing was dropped. *)
Lemma filterLoop_nothing lines : forall U D,
  snd (filterLoop lines U D) = [] -> fst (filterLoop lines U D) = lines /\ D = [].
Proof.
  induction lines as [|line rest IH]; intros U D; [simpl; auto|].
  rewrite filterLoop_cons. destruct (exempt line).
  - cbn [fst snd]. intros H. destruct (IH _ _ H) as [-> ->]. auto.
  - destruct (setHas (normalize line) U).
    + intros H. destruct (IH _ _ H) as [_ Hd]. exfalso.
      eapply setAdd_nonempty. exact Hd.
    + cbn [fst snd]. intros H. destruct (IH _ _ H) as [-> ->]. auto.
Qed.

Lemma subseq_incl (A : Type) (l l' : list A) : subseq l l' -> incl l l'.
Proof.
  induction 1; intros y Hy.
  - exact Hy.
  - destruct Hy as [<-|Hy]; [now left | right; now apply IHsubseq].
  - right. now apply IHsubseq.
Qed.

(** The first line always survives. *)
Lemma filterLoop_first line rest D :
  exists kept, fst (filterLoop (line :: rest) [] D) = line :: kept.
Proof.
  rewrite filterLoop_cons. destruct (exempt line); cbn [setHas existsb fst];
    eexists; reflexivity.
Qed.

(** The lines of the result of [removeRedundancies] are the lines the filter
    kept. *)
Lemma removeRedundancies_lines content changes :
  splitLines (fst (removeRedundancies content changes))
  = fst (filterLoop (splitLines content) [] []).
Proof.
  unfold removeRedundancies.
  destruct (filterLoop (splitLines content) [] []) as [kept D] eqn:E.
  assert (Hk : kept = fst (filterLoop (splitLines content) [] [])) by now rewrite E.
  assert (Hd : D = snd (filterLoop (splitLines content) [] [])) by now rewrite E.
  cbn [fst]. destruct (0 <? length D)%nat eqn:El; cbn [fst].
  - unfold splitLines, LF. apply splitUnit_join.
    + pose proof (@splitUnit_nonempty 10%N content) as Hne.
      unfold splitLines in Hk. destruct (splitUnit 10 content) as [|l0 rest];
        [congruence|].
      destruct (filterLoop_first l0 rest []) as [k Hk']. rewrite Hk' in Hk.
      subst kept. discriminate.
    + apply Forall_forall. intros l Hl.
      pose proof (splitUnit_lines 10%N content) as Hall.
      rewrite Forall_forall in Hall. apply Hall.
      destruct (filterLoop_kept (splitLines content) [] []) as (Hs & _).
      rewrite <- Hk in Hs. apply (subseq_incl Hs). exact Hl.
  - apply Nat.ltb_ge in El.
    assert (Hnil : snd (filterLoop (splitLines content) [] []) = []).
    { rewrite <- Hd. destruct D; [reflexivity | simpl in El; lia]. }
    destruct (filterLoop_nothing _ _ _ Hnil) as [Hf _]. rewrite Hk, Hf. reflexivity.
Qed.

End LineLaws.

(** X10: the duplicate pass only leaves lines out, in place: the lines of
    its result are a subsequence of the lines of its input, every blank
    line and every line that starts with a section label is kept, and no
    two of the other lines that remain are equal after trimming and
    lower-casing. *)
Theorem removeRedundancies_keeps_first (content : str) (changes : list str) :
  subseq (splitLines (fst (Optimizer.removeRedundancies content changes)))
         (splitLines content) /\
  filter exempt (splitLines (fst (Optimizer.removeRedundancies content changes)))
    = filter exempt (splitLines content) /\
  NoDup (map normalize
           (filter (fun l => negb (exempt l))
              (splitLines (fst (Optimizer.removeRedundancies content changes))))).
Proof.
  rewrite LineLaws.removeRedundancies_lines.
  destruct (LineLaws.filterLoop_kept (splitLines content) [] []) as (Hs & He & Hn & _).
  auto.
Qed.

(** X11: the duplicate pass is idempotent: run on its own result, it returns
    that result unchanged and adds nothing to the change log. *)
Theorem removeRedundancies_idempotent (content : str) (changes changes' : list str) :
  Optimizer.removeRedundancies
    (fst (Optimizer.removeRedundancies content changes)) changes'
  = (fst (Optimizer.removeRedundancies content changes), changes').
Proof.
  unfold Optimizer.removeRedundancies at 1.
  rewrite LineLaws.removeRedundancies_lines, LineLaws.filterLoop_fixed.
  reflexivity.
Qed.

(* ================================================================== *)
(** ** The structure pass on a content without sections *)
(* ================================================================== *)

Module SectionLaws.
Import Js Re Device ReFacts RulesFacts JsFacts Optimizer.

Lemma chrMatches_refl f a : chrMatches f a a = true.
Proof. unfold chrMatches. destruct (ignoreCase f); apply N.eqb_refl. Qed.

Lemma litAdvance_self f lit : forall bef rest,
  litAdvance f lit {| before := bef; after := lit ++ rest |}
  = Some {| before := rev lit ++ bef; after := rest |}.
Proof.
  induction lit as [|a lit IH]; intros bef rest; [reflexivity|].
  cbn [litAdvance after before app]. rewrite chrMatches_refl, IH.
  cbn [rev]. now rewrite <- app_assoc.
Qed.

Lemma test_at re pre post :
  matchAt re {| before := rev pre; after := post |} <> None ->
  test re (pre ++ post) = true.
Proof.
  intros H. rewrite test_scan.
  assert (Hs : scan re [] (pre ++ post) <> None).
  { apply scan_complete. now rewrite app_nil_r. }
  destruct (scan re [] (pre ++ post)); congruence.
Qed.

(** A label at the very start of the content, or right after a line feed,
    is found by the anchored pattern. *)
Lemma label_at_start lit rest :
  test {| source := Seq Bol (Lit lit); flag := fl_im |} (lit ++ rest) = true.
Proof.
  apply (test_at _ []). unfold matchAt. cbn [source flag rev].
  rewrite m_Seq, m_Bol. cbn [atBol before].
  rewrite m_Lit, litAdvance_self. discriminate.
Qed.

Lemma label_after_LF lit pre rest :
  test {| source := Seq Bol (Lit lit); flag := fl_im |}
       ((pre ++ [10%N]) ++ lit ++ rest) = true.
Proof.
  apply test_at. unfold matchAt. cbn [source flag].
  rewrite rev_unit, m_Seq, m_Bol. cbn [atBol before].
  rewrite m_Lit, litAdvance_self. discriminate.
Qed.

Lemma format_after_LF pre rest :
  test {| source := Seq Bol (Seq (Grp 1 (Alt (L "FORMAT") (L "OUTPUT"))) (Chr 58));
          flag := fl_im |}
       ((pre ++ [10%N]) ++ u "FORMAT" ++ 58%N :: rest) = true.
Proof.
  apply test_at. unfold matchAt. cbn [source flag].
  rewrite rev_unit, m_Seq, m_Bol. cbn [atBol before].
  rewrite m_Seq, m_Grp. cbn [m]. unfold L.
  rewrite m_Lit, litAdvance_self. cbn. discriminate.
Qed.

End SectionLaws.

(** X12: on a content in which no section was found, the structure pass
    returns a document in which ROLE, CONTEXT, TASK and FORMAT are all found
    at line starts, whatever the content holds, and logs the one entry
    about the added structure. *)
Theorem unstructured_gets_all_sections (content : str) (sections : Optimizer.Sections)
    (changes : list str) :
  Optimizer.role sections = false ->
  Optimizer.context sections = false ->
  Optimizer.task sections = false ->
  Optimizer.format sections = false ->
  exists e,
    Optimizer.addMissingSections content sections changes
      = Return (e, changes ++ [structureAdded]) /\
    allSectionsPresent e = true.
Proof.
  intros Hr Hc Ht Hf. unfold Optimizer.addMissingSections.
  rewrite Hr, Hc, Ht, Hf. cbn [negb andb].
  destruct (splitLines (trim content)) as [|line0 rest] eqn:E.
  - exfalso. eapply JsFacts.splitUnit_nonempty. exact E.
  - cbn [nth_error]. eexists. split; [reflexivity|].
    set (ctx := join (u " ") (firstn (Nat.min 3 (length (line0 :: rest))) (line0 :: rest))).
    set (tsk := join (u " ") (skipn (Nat.min 3 (length (line0 :: rest))) (line0 :: rest))).
    set (who := Optimizer.inferRole line0).
    unfold allSectionsPresent, Optimizer.identifySections.
    cbn [Optimizer.role Optimizer.context Optimizer.task Optimizer.format].
    repeat (apply andb_true_intro; split).
    + apply (SectionLaws.label_at_start (u "ROLE:")).
    + replace (_ ++ _) with
        (((u "ROLE: You are an AI assistant tasked with " ++ who ++ LF) ++ [10%N]) ++
         u "CONTEXT:" ++ u " " ++ ctx ++ LF ++ LF ++ u "TASK: " ++ tsk ++ LF ++ LF ++
         u "FORMAT: Provide your response in a clear, structured manner.")
        by (rewrite <- !app_assoc; reflexivity).
      apply SectionLaws.label_after_LF.
    + replace (_ ++ _) with
        (((u "ROLE: You are an AI assistant tasked with " ++ who ++ LF ++ LF ++
           u "CONTEXT: " ++ ctx ++ LF) ++ [10%N]) ++
         u "TASK:" ++ u " " ++ tsk ++ LF ++ LF ++
         u "FORMAT: Provide your response in a clear, structured manner.")
        by (rewrite <- !app_assoc; reflexivity).
      apply SectionLaws.label_after_LF.
    + replace (_ ++ _) with
        (((u "ROLE: You are an AI assistant tasked with " ++ who ++ LF ++ LF ++
           u "CONTEXT: " ++ ctx ++ LF ++ LF ++ u "TASK: " ++ tsk ++ LF) ++ [10%N]) ++
         u "FORMAT" ++ 58%N :: u " Provide your response in a clear, structured manner.")
        by (rewrite <- !app_assoc; reflexivity).
      apply SectionLaws.format_after_LF.
Qed.

(** X12, at the content [Please summarize this document.]. *)
Lemma unstructured_gets_all_sections_witness :
  exists e,
    Optimizer.addMissingSections summarize (Optimizer.identifySections summarize) []
      = Return (e, [] ++ [structureAdded]) /\
    allSectionsPresent e = true.
Proof.
  apply unstructured_gets_all_sections; reflexivity.
Defined.

(* ================================================================== *)
(** ** The range of the quality scores *)
(* ================================================================== *)

Module ScoreLaws.
Import Structure.

Lemma ltb_leb (x y : float) : PrimFloat.ltb x y = true -> PrimFloat.leb x y = true.
Proof.
  rewrite FloatAxioms.ltb_spec, FloatAxioms.leb_spec.
  unfold SpecFloat.SFltb, SpecFloat.SFleb.
  destruct (SpecFloat.SFcompare _ _) as [[| |]|]; congruence.
Qed.

(** [Math.max(0, Math.min(1, score))] lies between 0 and 1. *)
Lemma clamp_range (score : float) :
  PrimFloat.leb 0 (mathMax 0 (mathMin 1 score)) = true /\
  PrimFloat.leb (mathMax 0 (mathMin 1 score)) 1 = true.
Proof.
  unfold mathMax, mathMin.
  destruct (PrimFloat.ltb score 1) eqn:E1.
  - destruct (PrimFloat.ltb 0 score) eqn:E0.
    + split; now apply ltb_leb.
    + split; reflexivity.
  - destruct (PrimFloat.ltb 0 1) eqn:E0; split; reflexivity.
Qed.

End ScoreLaws.

(** X13: the three quality scores of analyze lie between 0 and 1 for every
    content, whatever the penalties and the bonus add up to. *)
Theorem quality_scores_in_range (content : str)
    (metadata : option Structure.TemplateMetadata) :
  PrimFloat.leb 0 (Structure.clarity
                     (Structure.quality (Structure.analyzeTemplate content metadata))) = true /\
  PrimFloat.leb (Structure.clarity
                   (Structure.quality (Structure.analyzeTemplate content metadata))) 1 = true /\
  PrimFloat.leb 0 (Structure.conciseness
                     (Structure.quality (Structure.analyzeTemplate content metadata))) = true /\
  PrimFloat.leb (Structure.conciseness
                   (Structure.quality (Structure.analyzeTemplate content metadata))) 1 = true /\
  PrimFloat.leb 0 (Structure.consistency
                     (Structure.quality (Structure.analyzeTemplate content metadata))) = true /\
  PrimFloat.leb (Structure.consistency
                   (Structure.quality (Structure.analyzeTemplate content metadata))) 1 = true.
Proof.
  cbn [Structure.analyzeTemplate Structure.quality Structure.clarity
       Structure.conciseness Structure.consistency].
  repeat split;
    first [apply (proj1 (ScoreLaws.clamp_range _)) | apply (proj2 (ScoreLaws.clamp_range _))].
Qed.

(** X14: through [main], a text template that is not empty is always
    answered on standard output by [validate_template] and by
    [enhance_template]; the validation written never holds a [schema]
    entry, since the empty template is refused before the validator runs;
    and the enhancement written hands the template back as
    [originalContent]. *)
Theorem main_answers_text_templates (n : nat) (template : str) :
  template <> [] ->
  (exists r,
     Main.main n (Some (u "validate_template")) (Main.Object (Main.Text template))
       = Some (Main.Written (Main.Validated r)) /\
     filter (hasRule (u "schema")) (Rules.violations r) = []) /\
  (exists r,
     Main.main n (Some (u "enhance_template")) (Main.Object (Main.Text template))
       = Some (Main.Written (Main.Enhanced r)) /\
     Optimizer.originalContent r = template) /\
  (forall mode,
     Main.main n (Some mode) (Main.Object (Main.Text []))
       = Main.main n (Some mode) (Main.Object Main.Missing)).
Proof.
  intros Hne. destruct template as [|c template]; [congruence|]. split; [|split].
  - destruct (RulesLaws.validateTemplate_parts (c :: template))
      as (r & found & Hr & _ & _ & Hv).
    exists r. split.
    + unfold Main.main. cbn [str_eqb]. unfold Server.validate.
      change (str_eqb (u "validate_template") (u "analyze_template")) with false.
      change (str_eqb (u "validate_template") (u "enhance_template")) with false.
      change (str_eqb (u "validate_template") (u "validate_template")) with true.
      cbv iota. rewrite Hr. reflexivity.
    + rewrite Hv, !filter_app.
      rewrite (RulesLaws.filter_avoided (u "schema") (tbl := requiredTable) eq_refl
                 (RulesLaws.requiredEntries_table _)).
      rewrite (RulesLaws.filter_avoided (u "schema") (tbl := orderTable) eq_refl
                 (RulesLaws.orderLoop_table found (-1) (Forall_nil _))).
      rewrite (RulesLaws.filter_avoided (u "schema") (tbl := contentTable) eq_refl
                 (RulesLaws.validateContent_table _)).
      rewrite (RulesLaws.filter_avoided (u "schema") (tbl := variableTable) eq_refl
                 (RulesLaws.validateVariables_table _)).
      rewrite (RulesLaws.filter_avoided (u "schema") (tbl := formatTable) eq_refl
                 (RulesLaws.validateFormat_table _)).
      reflexivity.
  - destruct (OptimizerFacts.enhanceTemplate_returns (c :: template)) as [r [Hr Ho]].
    exists r. split; [|exact Ho].
    unfold Main.main. unfold Server.enhance.
    change (str_eqb (u "enhance_template") (u "analyze_template")) with false.
    change (str_eqb (u "enhance_template") (u "enhance_template")) with true.
    cbv iota. rewrite Hr. reflexivity.
  - intros mode. destruct mode; reflexivity.
Qed.

(** X14, at the template [abc]. *)
Lemma main_answers_text_templates_witness :
  exists r,
    Main.main 0 (Some (u "validate_template")) (Main.Object (Main.Text (u "abc")))
      = Some (Main.Written (Main.Validated r)) /\
    filter (hasRule (u "schema")) (Rules.violations r) = [].
Proof.
  apply (main_answers_text_templates 0 (template := u "abc")). discriminate.
Defined.

(* ================================================================== *)
(** ** Variables and trailing blanks in the validator *)
(* ================================================================== *)

Module TokenLaws.
Import Js Re Device ReFacts RulesFacts ReLaws JsFacts Rules Spec Laws.

Lemma variableLoop_entries variables :
  variableLoop variables [] =
  map namingEntry (filter (fun v => negb (test re_canonical v)) variables).
Proof.
  induction variables as [|variable rest IH]; [reflexivity|].
  cbn [variableLoop filter]. destruct (negb (test re_canonical variable)).
  - rewrite RulesLaws.variableLoop_app, IH. reflexivity.
  - exact IH.
Qed.

Lemma filter_naming l :
  filter (hasRule (u "variable-naming")) (map namingEntry l) = map namingEntry l.
Proof.
  induction l as [|x l IH]; [reflexivity|].
  cbn [map filter]. now rewrite IH.
Qed.

Lemma validateVariables_naming t :
  filter (hasRule (u "variable-naming")) (validateVariables t [])
  = map namingEntry (malformedTokens t).
Proof.
  unfold validateVariables, malformedTokens.
  destruct (Nat.eqb _ 0 && _); destruct (1 <? _)%nat; unfold push;
    rewrite RulesLaws.variableLoop_app, variableLoop_entries, !filter_app, filter_naming;
    cbn [app]; rewrite ?app_nil_r; reflexivity.
Qed.

Lemma validateFormat_trailing t :
  filter (hasRule (u "trailing-whitespace")) (validateFormat t [])
  = if test re_trailing t
    then [ {| rule := u "trailing-whitespace"; message := u "Remove trailing whitespace";
              severity := warning |} ]
    else [].
Proof.
  unfold validateFormat.
  destruct (test re_trailing t); destruct (matchAll re_blank_run t);
    destruct (existsb _ (matchAll re_headers t)); destruct (1 <? _)%nat;
    reflexivity.
Qed.

Lemma terminator_not_blank l :
  isLineTerminator l = true -> inClass l [One 32; One 9] = false.
Proof.
  unfold isLineTerminator, inClass. cbn [existsb inItem].
  destruct (N.eqb_spec l 10); [subst; reflexivity|].
  destruct (N.eqb_spec l 13); [subst; reflexivity|].
  destruct (N.eqb_spec l 8232); [subst; reflexivity|].
  destruct (N.eqb_spec l 8233); [subst; reflexivity|].
  discriminate.
Qed.

Lemma blank_in_class c : c = 32%N \/ c = 9%N -> inClass c [One 32; One 9] = true.
Proof. intros [->| ->]; reflexivity. Qed.

Lemma class_blank c : inClass c [One 32; One 9] = true -> c = 32%N \/ c = 9%N.
Proof.
  unfold inClass. cbn [existsb inItem].
  destruct (N.eqb_spec c 32); [auto|]. destruct (N.eqb_spec c 9); [auto|].
  discriminate.
Qed.

Lemma atEol_cases z :
  atEol fl_m z = true <->
  after z = [] \/ exists l rest, after z = l :: rest /\ isLineTerminator l = true.
Proof.
  unfold atEol. destruct (after z) as [|l rest]; cbn [multiline fl_m andb].
  - split; auto.
  - split.
    + intros H. right. exists l, rest. auto.
    + intros [H|(l' & rest' & H & Hl)]; [discriminate|]. inversion H; subst. exact Hl.
Qed.

(** The units a run of blanks consumes; the last of them is a blank. *)
Lemma run_last w :
  denote fl_m (Plus (Cls [One 32; One 9])) w ->
  exists w0 c, w = w0 ++ [c] /\ (c = 32%N \/ c = 9%N).
Proof.
  intros (w1 & w2 & -> & (x & -> & Hx) & (ws & -> & Hws)).
  induction Hws as [|y ws (y' & -> & Hy) _ IH] in x, Hx |- *.
  - exists [], x. split; [reflexivity | now apply class_blank].
  - destruct (IH y' Hy) as (w0 & c & Hw & Hc).
    exists (x :: w0), c. split; [|exact Hc].
    cbn [concat app] in *. now rewrite Hw.
Qed.

Lemma trailing_test t : test re_trailing t = true <-> hasTrailingBlank t.
Proof.
  rewrite test_scan. split.
  - destruct (scan re_trailing [] t) as [[[i z1] c]|] eqn:E; [|discriminate].
    intros _. apply scan_some in E. destruct E as (bef & aft & Hm & Hs & _).
    simpl in Hs. unfold matchAt, re_trailing in Hm. cbn [source flag] in Hm.
    rewrite m_Seq in Hm. apply m_denote in Hm.
    destruct Hm as (w & z' & c' & Hw & [Ha Hb] & Hk).
    cbn [m] in Hk. destruct (atEol fl_m z') eqn:He; [|discriminate].
    apply run_last in Hw. destruct Hw as (w0 & b & -> & Hblank).
    cbn [after] in Ha. exists (rev bef ++ w0), b, (after z'). split; [|split].
    + rewrite <- Hs, Ha. now rewrite <- !app_assoc.
    + exact Hblank.
    + now apply atEol_cases.
  - intros (pre & b & post & -> & Hb & Hpost).
    assert (Hs : scan re_trailing [] (pre ++ b :: post) <> None).
    { apply scan_complete. rewrite app_nil_r. unfold matchAt, re_trailing.
      cbn [source flag]. unfold Plus. cbn [m]. unfold step at 1. cbn [after before].
      rewrite (blank_in_class Hb). cbn [repeat].
      assert (He : atEol fl_m {| before := b :: rev pre; after := post |} = true).
      { apply atEol_cases. exact Hpost. }
      destruct Hpost as [->|(l & rest & -> & Hl)].
      - unfold step. cbn [after]. rewrite He. discriminate.
      - unfold step at 1. cbn [after]. rewrite (terminator_not_blank _ Hl).
        rewrite He. discriminate. }
    destruct (scan re_trailing [] (pre ++ b :: post)); congruence.
Qed.

End TokenLaws.

(** X15: validate raises one [variable-naming] error for each double-brace
    token that the canonical pattern rejects, in the order of the tokens and
    with the token in the message; a token that occurs twice is reported
    twice. *)
Theorem naming_errors_per_occurrence (t : str) :
  exists r,
    Server.validate t = Return r /\
    filter (hasRule (u "variable-naming")) (Rules.violations r)
      = map namingEntry (malformedTokens t).
Proof.
  destruct (RulesLaws.validateTemplate_parts t) as (r & found & Hr & _ & _ & Hv).
  exists r. split; [exact Hr|]. rewrite Hv, !filter_app.
  rewrite (RulesLaws.filter_avoided (u "variable-naming")
             (tbl := [(u "schema", Rules.error)]) eq_refl
             (RulesLaws.schemaEntries_table t)).
  rewrite (RulesLaws.filter_avoided (u "variable-naming") (tbl := requiredTable) eq_refl
             (RulesLaws.requiredEntries_table t)).
  rewrite (RulesLaws.filter_avoided (u "variable-naming") (tbl := orderTable) eq_refl
             (RulesLaws.orderLoop_table found (-1) (Forall_nil _))).
  rewrite (RulesLaws.filter_avoided (u "variable-naming") (tbl := contentTable) eq_refl
             (RulesLaws.validateContent_table t)).
  rewrite (RulesLaws.filter_avoided (u "variable-naming") (tbl := formatTable) eq_refl
             (RulesLaws.validateFormat_table t)).
  rewrite TokenLaws.validateVariables_naming. cbn [app]. now rewrite app_nil_r.
Qed.

(** X16: validate raises the [trailing-whitespace] warning, once, exactly
    when a space or a tab stands right before a line terminator or at the
    very end of the input. *)
Theorem trailing_warning_iff (t : str) :
  exists r,
    Server.validate t = Return r /\
    (hasTrailingBlank t ->
     length (filter (hasRule (u "trailing-whitespace")) (Rules.violations r)) = 1) /\
    (~ hasTrailingBlank t ->
     filter (hasRule (u "trailing-whitespace")) (Rules.violations r) = []).
Proof.
  destruct (RulesLaws.validateTemplate_parts t) as (r & found & Hr & _ & _ & Hv).
  exists r. split; [exact Hr|].
  assert (Hf : filter (hasRule (u "trailing-whitespace")) (Rules.violations r)
               = filter (hasRule (u "trailing-whitespace")) (Rules.validateFormat t [])).
  { rewrite Hv, !filter_app.
    rewrite (RulesLaws.filter_avoided (u "trailing-whitespace")
               (tbl := [(u "schema", Rules.error)]) eq_refl
               (RulesLaws.schemaEntries_table t)).
    rewrite (RulesLaws.filter_avoided (u "trailing-whitespace") (tbl := requiredTable)
               eq_refl (RulesLaws.requiredEntries_table t)).
    rewrite (RulesLaws.filter_avoided (u "trailing-whitespace") (tbl := orderTable)
               eq_refl (RulesLaws.orderLoop_table found (-1) (Forall_nil _))).
    rewrite (RulesLaws.filter_avoided (u "trailing-whitespace") (tbl := contentTable)
               eq_refl (RulesLaws.validateContent_table t)).
    rewrite (RulesLaws.filter_avoided (u "trailing-whitespace") (tbl := variableTable)
               eq_refl (RulesLaws.validateVariables_table t)).
    reflexivity. }
  rewrite Hf, TokenLaws.validateFormat_trailing.
  pose proof (TokenLaws.trailing_test t) as Ht.
  destruct (test Rules.re_trailing t).
  - split; [reflexivity|]. intros Hn. exfalso. apply Hn. now apply Ht.
  - split; [|reflexivity]. intros Hy. apply Ht in Hy. discriminate.
Qed.

(** X16, at a line that ends in a space before its line feed, and at a text
    whose only space is inside a line. *)
Lemma trailing_warning_iff_witness :
  (exists r,
     Server.validate (u "TASK: go " ++ LF ++ u "now") = Return r /\
     length (filter (hasRule (u "trailing-whitespace")) (Rules.violations r)) = 1) /\
  (exists r,
     Server.validate (u "TASK: go") = Return r /\
     filter (hasRule (u "trailing-whitespace")) (Rules.violations r) = []).
Proof.
  split.
  - destruct (trailing_warning_iff (u "TASK: go " ++ LF ++ u "now")) as (r & Hr & H1 & _).
    exists r. split; [exact Hr|]. apply H1.
    exists (u "TASK: go"), 32%N, (LF ++ u "now"). split; [reflexivity|].
    split; [now left|]. right. exists 10%N, (u "now"). split; reflexivity.
  - destruct (trailing_warning_iff (u "TASK: go")) as (r & Hr & _ & H2).
    exists r. split; [exact Hr|]. apply H2.
    intros Hw. apply TokenLaws.trailing_test in Hw. vm_compute in Hw. discriminate.
Defined.

(* ================================================================== *)
(** ** The change log of the enhancer *)
(* ================================================================== *)

Module LogLaws.
Import Js Re JsFacts Optimizer Spec Laws.





End LogLaws.


(* ================================================================== *)
(** ** Global replacement by a fixed text *)
(* ================================================================== *)

Module ReplaceLaws.
Import Js Re Device Laws.

Lemma substring_skip (bef kept rest : str) :
  substring (rev bef ++ kept ++ rest) (length bef) (length bef + length kept) = kept.
Proof.
  unfold substring. replace (length bef + length kept - length bef) with (length kept) by lia.
  rewrite <- (length_rev bef) at 1. rewrite skipn_app, skipn_all, Nat.sub_diag.
  cbn [app skipn]. rewrite firstn_app, firstn_all, Nat.sub_diag. cbn [firstn].
  now rewrite app_nil_r.
Qed.

Lemma skipn_before (bef aft : str) : skipn (length bef) (rev bef ++ aft) = aft.
Proof.
  rewrite <- (length_rev bef) at 1. rewrite skipn_app, skipn_all, Nat.sub_diag.
  reflexivity.
Qed.

Section Rewriting.
Variable re : RegExp.
Variable rep : str.
Variable out : str -> str.

Hypothesis re_global : global (flag re) = true.

(** Where the scan stops, what it passes on the way, and what [out] makes
    of it; a match is never empty. *)
Hypothesis out_scan : forall aft bef,
  match scan re bef aft with
  | None => out aft = aft
  | Some (i, z, _) =>
      exists kept run,
        aft = kept ++ run ++ after z /\
        run <> [] /\
        i = length bef + length kept /\
        before z = rev run ++ rev kept ++ bef /\
        out aft = kept ++ rep ++ out (after z)
  end.

Lemma rebuild_out n : forall bef aft,
  length aft < n ->
  rebuild (rev bef ++ aft) (fun _ => rep) (findAllFrom re n bef aft) (length bef)
  = out aft.
Proof.
  induction n as [|n IH]; intros bef aft Hn; [lia|].
  cbn [findAllFrom]. pose proof (out_scan aft bef) as Hs.
  destruct (scan re bef aft) as [[[i z] c]|].
  - destruct Hs as (kept & run & Ha & Hr & Hi & Hb & Hst).
    assert (Hpos : pos z = length bef + length kept + length run).
    { unfold pos. rewrite Hb, !length_app, !length_rev. lia. }
    assert (Hne : Nat.eqb (pos z) i = false).
    { apply Nat.eqb_neq. destruct run; [congruence | simpl in Hpos; lia]. }
    rewrite Hne. cbn [rebuild result index endIndex].
    assert (Hsame : rev bef ++ aft = rev (before z) ++ after z).
    { rewrite Hb, !rev_app_distr, !rev_involutive, Ha, <- !app_assoc. reflexivity. }
    rewrite Hst. f_equal.
    + rewrite Ha, Hi. apply substring_skip.
    + f_equal. rewrite Hsame. apply IH.
      apply (f_equal (@length N)) in Ha. rewrite !length_app in Ha.
      destruct run; [congruence | simpl in Ha; lia].
  - cbn [rebuild]. rewrite skipn_before. now rewrite Hs.
Qed.

Lemma replace_out s : replace re s (fun _ => rep) = out s.
Proof.
  unfold replace. rewrite re_global. unfold findAll.
  apply (rebuild_out (n := length s + 2) [] s). lia.
Qed.

End Rewriting.

(** *** Deleting the units of a class *)

Lemma class_scan items aft : forall bef,
  match scan {| source := Cls items; flag := fl_g |} bef aft with
  | None => filter (fun c => negb (inClass c items)) aft = aft
  | Some (i, z, _) =>
      exists kept run,
        aft = kept ++ run ++ after z /\
        run <> [] /\
        i = length bef + length kept /\
        before z = rev run ++ rev kept ++ bef /\
        filter (fun c => negb (inClass c items)) aft
        = kept ++ [] ++ filter (fun c => negb (inClass c items)) (after z)
  end.
Proof.
  induction aft as [|x r IH]; intros bef; [reflexivity|].
  cbn [scan]. unfold matchAt at 1. cbn [source flag m]. unfold step. cbn [after before].
  destruct (inClass x items) eqn:E.
  - exists [], [x]. cbn [after before app length rev filter]. rewrite E. cbn [negb].
    split; [reflexivity|]. split; [discriminate|]. split; [lia|]. split; reflexivity.
  - specialize (IH (x :: bef)).
    destruct (scan _ (x :: bef) r) as [[[i z] c]|].
    + destruct IH as (kept & run & Ha & Hr & Hi & Hb & Hs).
      exists (x :: kept), run. cbn [app length rev filter]. rewrite E. cbn [negb].
      split; [now rewrite Ha at 1|]. split; [exact Hr|]. split; [simpl in Hi; lia|]. split.
      * rewrite Hb. now rewrite <- !app_assoc.
      * now rewrite Hs.
    + cbn [filter]. rewrite E. cbn [negb]. now rewrite IH.
Qed.

Lemma replace_class items s :
  replace {| source := Cls items; flag := fl_g |} s (fun _ => [])
  = filter (fun c => negb (inClass c items)) s.
Proof. apply replace_out; [reflexivity | apply class_scan]. Qed.

(** *** Runs of white space *)

Lemma take_drop_white s : s = takeWhite s ++ dropWhite s.
Proof.
  induction s as [|c r IH]; [reflexivity|].
  cbn [takeWhite dropWhite]. destruct (isWhiteSpace c); [|reflexivity].
  cbn [app]. now rewrite <- IH.
Qed.

Lemma underscored_run s : underscored true s = underscored false (dropWhite s).
Proof.
  induction s as [|c r IH]; [reflexivity|].
  cbn [underscored dropWhite]. destruct (isWhiteSpace c) eqn:E; [exact IH|].
  cbn [underscored]. now rewrite E.
Qed.

Lemma white_run r : forall n bef c,
  length r < n ->
  repeat true (m fl_g (Cls [Space])) (fun z' c' => Some (z', c')) n
         {| before := bef; after := r |} c
  = Some ({| before := rev (takeWhite r) ++ bef; after := dropWhite r |}, c).
Proof.
  induction r as [|x r IH]; intros n bef c Hn; destruct n as [|n]; try (simpl in Hn; lia).
  - reflexivity.
  - cbn [repeat m]. unfold step. cbn [after before takeWhite dropWhite].
    unfold inClass. cbn [existsb inItem]. rewrite orb_false_r.
    destruct (isWhiteSpace x); [|reflexivity].
    assert (Hl : (length r <? length (x :: r))%nat = true)
      by (apply Nat.ltb_lt; simpl; lia).
    rewrite Hl, IH by (simpl in Hn; lia).
    cbn [rev]. now rewrite <- app_assoc.
Qed.

Lemma spaces_matchAt bef aft :
  matchAt Optimizer.re_spaces_g {| before := bef; after := aft |} =
  match aft with
  | [] => None
  | x :: r =>
      if isWhiteSpace x
      then Some ({| before := rev (takeWhite r) ++ x :: bef; after := dropWhite r |}, [])
      else None
  end.
Proof.
  unfold matchAt, Optimizer.re_spaces_g. cbn [source flag]. unfold Plus. cbn [m].
  unfold step at 1. cbn [after before]. destruct aft as [|x r]; [reflexivity|].
  unfold inClass at 1. cbn [existsb inItem]. rewrite orb_false_r.
  destruct (isWhiteSpace x); [|reflexivity].
  apply white_run. simpl. lia.
Qed.

Lemma spaces_scan aft : forall bef,
  match scan Optimizer.re_spaces_g bef aft with
  | None => underscored false aft = aft
  | Some (i, z, _) =>
      exists kept run,
        aft = kept ++ run ++ after z /\
        run <> [] /\
        i = length bef + length kept /\
        before z = rev run ++ rev kept ++ bef /\
        underscored false aft = kept ++ u "_" ++ underscored false (after z)
  end.
Proof.
  induction aft as [|x r IH]; intros bef.
  - cbn [scan]. rewrite spaces_matchAt. reflexivity.
  - cbn [scan]. rewrite spaces_matchAt. destruct (isWhiteSpace x) eqn:E.
    + exists [], (x :: takeWhite r). cbn [after before app length rev].
      split; [f_equal; apply take_drop_white|].
      split; [discriminate|]. split; [lia|]. split.
      * rewrite <- !app_assoc. reflexivity.
      * cbn [underscored]. rewrite E. now rewrite underscored_run.
    + specialize (IH (x :: bef)).
      destruct (scan Optimizer.re_spaces_g (x :: bef) r) as [[[i z] c]|].
      * destruct IH as (kept & run & Ha & Hr & Hi & Hb & Hs).
        exists (x :: kept), run. cbn [app length rev]. split; [now rewrite Ha at 1|].
        split; [exact Hr|]. split; [simpl in Hi; lia|]. split.
        -- rewrite Hb. now rewrite <- !app_assoc.
        -- cbn [underscored]. rewrite E. now rewrite Hs.
      * cbn [underscored]. rewrite E. now rewrite IH.
Qed.

Lemma replace_spaces s :
  replace Optimizer.re_spaces_g s (fun _ => u "_") = underscored false s.
Proof. apply replace_out; [reflexivity | apply spaces_scan]. Qed.

(** The name the enhancer extracts from a token, without the patterns. *)
Lemma cleanName_direct v :
  Optimizer.cleanName v
  = underscored false (trim (filter (fun c => negb (isDelimiter c)) v)).
Proof.
  unfold Optimizer.cleanName. rewrite replace_spaces.
  unfold Optimizer.re_delims. now rewrite replace_class.
Qed.

End ReplaceLaws.

(* ================================================================== *)
(** ** Trailing blanks after the formatting pass *)
(* ================================================================== *)

Module BlankLaws.
Import Js Re Device ReFacts RulesFacts ReLaws JsFacts Optimizer Spec Laws.

Lemma blank_not_terminator c : isBlank c = true -> isLineTerminator c = false.
Proof.
  intros H. apply TokenLaws.class_blank in H. destruct H as [->| ->]; reflexivity.
Qed.

Lemma terminator_is_no_blank c : isLineTerminator c = true -> isBlank c = false.
Proof. apply TokenLaws.terminator_not_blank. Qed.

Lemma take_drop_blanks s : s = takeBlanks s ++ dropBlanks s.
Proof.
  induction s as [|c r IH]; [reflexivity|].
  cbn [takeBlanks dropBlanks]. destruct (isBlank c); [|reflexivity].
  cbn [app]. now rewrite <- IH.
Qed.

Lemma stripped_blanks s : blankToEol s = true -> stripped s = stripped (dropBlanks s).
Proof.
  induction s as [|c r IH]; [reflexivity|].
  cbn [blankToEol dropBlanks]. destruct (isLineTerminator c) eqn:Et.
  - rewrite (terminator_is_no_blank _ Et). reflexivity.
  - destruct (isBlank c) eqn:Eb; [|discriminate].
    intros H. cbn [stripped]. rewrite Eb, H. cbn [andb]. now apply IH.
Qed.

(** The greedy run of blanks, followed by [$]. *)
Lemma run_to_eol r : forall n bef c,
  length r < n ->
  repeat true (m fl_gm (Cls [One 32; One 9])) atLineEnd n
         {| before := bef; after := r |} c
  = if blankToEol r
    then Some ({| before := rev (takeBlanks r) ++ bef; after := dropBlanks r |}, c)
    else None.
Proof.
  induction r as [|x r IH]; intros n bef c Hn; destruct n as [|n]; try (simpl in Hn; lia).
  - reflexivity.
  - cbn [repeat m]. unfold step. cbn [after before].
    fold (isBlank x). cbn [blankToEol takeBlanks dropBlanks].
    destruct (isBlank x) eqn:Eb.
    + rewrite (blank_not_terminator _ Eb).
      assert (Hl : (length r <? length (x :: r))%nat = true)
        by (apply Nat.ltb_lt; simpl; lia).
      rewrite Hl, IH by (simpl in Hn; lia).
      destruct (blankToEol r).
      * cbn [rev]. now rewrite <- app_assoc.
      * unfold atLineEnd, atEol. cbn [after multiline fl_gm andb].
        now rewrite (blank_not_terminator _ Eb).
    + unfold atLineEnd, atEol. cbn [after multiline fl_gm andb].
      destruct (isLineTerminator x); reflexivity.
Qed.

(** The trailing-blank pattern at a cursor. *)
Lemma trailing_matchAt bef aft :
  matchAt re_trailing {| before := bef; after := aft |} =
  match aft with
  | [] => None
  | x :: r =>
      if isBlank x && blankToEol r
      then Some ({| before := rev (takeBlanks r) ++ x :: bef; after := dropBlanks r |}, [])
      else None
  end.
Proof.
  unfold matchAt, re_trailing. cbn [source flag]. unfold Plus. cbn [m].
  unfold step at 1. cbn [after before]. destruct aft as [|x r]; [reflexivity|].
  fold (isBlank x). destruct (isBlank x); [|reflexivity]. cbn [andb].
  change (fun z' c' => if atEol fl_gm z' then Some (z', c') else None) with atLineEnd.
  apply run_to_eol. simpl. lia.
Qed.

(** Where the scan stops, and what it passes on the way. *)
Lemma trailing_scan aft : forall bef,
  match scan re_trailing bef aft with
  | None => stripped aft = aft
  | Some (i, z, _) =>
      exists kept run,
        aft = kept ++ run ++ after z /\
        run <> [] /\
        i = length bef + length kept /\
        before z = rev run ++ rev kept ++ bef /\
        stripped aft = kept ++ stripped (after z)
  end.
Proof.
  induction aft as [|x r IH]; intros bef.
  - cbn [scan]. rewrite trailing_matchAt. reflexivity.
  - cbn [scan]. rewrite trailing_matchAt.
    destruct (isBlank x && blankToEol r) eqn:E.
    + apply andb_prop in E. destruct E as [Eb Et].
      exists [], (x :: takeBlanks r). cbn [after before app length rev].
      split; [f_equal; apply take_drop_blanks|].
      split; [discriminate|]. split; [lia|]. split.
      * rewrite <- !app_assoc. reflexivity.
      * cbn [stripped]. rewrite Eb, Et. cbn [andb]. now apply stripped_blanks.
    + specialize (IH (x :: bef)).
      destruct (scan re_trailing (x :: bef) r) as [[[i z] c]|].
      * destruct IH as (kept & run & Ha & Hr & Hi & Hb & Hs).
        exists (x :: kept), run. cbn [app length rev]. split; [now rewrite Ha|].
        split; [exact Hr|]. split; [simpl in Hi; lia|]. split.
        -- rewrite Hb. now rewrite <- !app_assoc.
        -- cbn [stripped]. rewrite E. now rewrite Hs.
      * cbn [stripped]. rewrite E. now rewrite IH.
Qed.

Lemma replace_trailing s : replace re_trailing s (fun _ => []) = stripped s.
Proof.
  apply ReplaceLaws.replace_out; [reflexivity | apply trailing_scan].
Qed.

(** The formatting pass returns a stripped text. *)
Lemma improveFormatting_stripped content changes :
  exists e, fst (improveFormatting content changes) = stripped e.
Proof.
  unfold improveFormatting.
  match goal with
  | |- context [if test re_hasBullets ?x then _ else _] =>
      destruct (test re_hasBullets x)
  end;
    match goal with
    | |- context [str_eqb (replace re_trailing ?e ?f) ?e] =>
        destruct (str_eqb (replace re_trailing e f) e) eqn:E;
        cbn [negb fst]; exists e;
        [apply RulesLaws.str_eqb_eq in E; rewrite <- E at 1 |];
        apply replace_trailing
    end.
Qed.

(** *** A stripped text has no trailing blank *)

Lemma hasTrailingBlank_nil : ~ hasTrailingBlank [].
Proof. intros (pre & c & post & H & _). destruct pre; discriminate. Qed.

Lemma hasTrailingBlank_cons c r :
  hasTrailingBlank (c :: r) <-> (isBlank c = true /\ eolHead r) \/ hasTrailingBlank r.
Proof.
  split.
  - intros (pre & b & post & H & Hb & Hp). destruct pre as [|x pre].
    + inversion H; subst. left. split; [now apply TokenLaws.blank_in_class | exact Hp].
    + inversion H; subst. right. exists pre, b, post. auto.
  - intros [[Hb Hp]|(pre & b & post & -> & Hb & Hp)].
    + exists [], c, r. split; [reflexivity|]. split; [now apply TokenLaws.class_blank | exact Hp].
    + exists (c :: pre), b, post. auto.
Qed.

Lemma eolHead_blankToEol s : eolHead s -> blankToEol s = true.
Proof.
  intros [->|(l & rest & -> & Hl)]; [reflexivity|]. cbn [blankToEol]. now rewrite Hl.
Qed.

(** When the blanks do not run to the end of a line, the stripped text
    starts with a unit that is not a line terminator. *)
Lemma stripped_head s :
  blankToEol s = false ->
  exists x rest, stripped s = x :: rest /\ isLineTerminator x = false.
Proof.
  destruct s as [|x r]; [discriminate|]. cbn [blankToEol stripped].
  destruct (isLineTerminator x) eqn:Et; [discriminate|].
  destruct (isBlank x); cbn [andb]; [|eauto].
  intros H. rewrite H. eauto.
Qed.

Lemma stripped_clean s : ~ hasTrailingBlank (stripped s).
Proof.
  induction s as [|c r IH]; [apply hasTrailingBlank_nil|].
  cbn [stripped]. destruct (isBlank c && blankToEol r) eqn:E; [exact IH|].
  intros H. apply hasTrailingBlank_cons in H. destruct H as [[Hb Hp]|H]; [|contradiction].
  rewrite Hb in E. cbn [andb] in E.
  destruct (stripped_head _ E) as (x & rest & Hx & Ht).
  destruct Hp as [Hp|(l & rest' & Hp & Hl)]; rewrite Hx in Hp; [discriminate|].
  inversion Hp; subst. congruence.
Qed.

(** *** Leaving lines out brings no trailing blank *)

Lemma eolHead_app_LF a b : eolHead (a ++ 10%N :: b) <-> eolHead a.
Proof.
  destruct a as [|x a]; cbn [app].
  - split; [left; reflexivity|]. intros _. right. exists 10%N, b. auto.
  - split; intros [H|(l & rest & H & Hl)]; try discriminate;
      right; inversion H; subst; eauto.
Qed.

Lemma hasTrailingBlank_app_LF a b :
  hasTrailingBlank (a ++ 10%N :: b) <-> hasTrailingBlank a \/ hasTrailingBlank b.
Proof.
  induction a as [|c a IH]; cbn [app].
  - rewrite hasTrailingBlank_cons. split.
    + intros [[Hb _]|H]; [discriminate | now right].
    + intros [H|H]; [exfalso; now apply hasTrailingBlank_nil in H | now right].
  - rewrite !hasTrailingBlank_cons, IH, eolHead_app_LF. tauto.
Qed.

Lemma hasTrailingBlank_join l :
  hasTrailingBlank (join LF l) <-> Exists hasTrailingBlank l.
Proof.
  induction l as [|a l IH].
  - simpl. split; [intros H; exfalso; now apply hasTrailingBlank_nil in H|].
    intros H. inversion H.
  - destruct l as [|b l].
    + simpl. split; [now constructor|]. intros H. inversion H; subst; [assumption|].
      match goal with H' : Exists _ [] |- _ => inversion H' end.
    + rewrite LineLaws.join_cons. unfold LF at 1. cbn [app].
      rewrite hasTrailingBlank_app_LF, IH. split.
      * intros [H|H]; [now constructor | now apply Exists_cons_tl].
      * intros H. inversion H; subst; auto.
Qed.

Lemma subseq_Exists (A : Type) (P : A -> Prop) l l' :
  subseq l l' -> Exists P l -> Exists P l'.
Proof.
  induction 1; intros Hex.
  - exact Hex.
  - inversion Hex; subst; [now constructor | apply Exists_cons_tl; auto].
  - apply Exists_cons_tl. auto.
Qed.

Lemma removeRedundancies_clean content changes :
  ~ hasTrailingBlank content ->
  ~ hasTrailingBlank (fst (removeRedundancies content changes)).
Proof.
  intros Hc H. apply Hc.
  rewrite <- (LineLaws.join_splitUnit 10%N content).
  rewrite <- (LineLaws.join_splitUnit 10%N (fst (removeRedundancies content changes))) in H.
  change [10%N] with LF in *. apply hasTrailingBlank_join in H.
  apply hasTrailingBlank_join.
  refine (subseq_Exists _ H).
  change (splitUnit 10) with splitLines. rewrite LineLaws.removeRedundancies_lines.
  apply LineLaws.filterLoop_kept.
Qed.

Lemma validate_trailing_clean t :
  ~ hasTrailingBlank t ->
  exists v,
    Server.validate t = Return v /\
    filter (hasRule (u "trailing-whitespace")) (Rules.violations v) = [].
Proof.
  intros Hclean.
  destruct (RulesLaws.validateTemplate_parts t) as (r & found & Hr & _ & _ & Hv).
  exists r. split; [exact Hr|]. rewrite Hv, !filter_app.
  rewrite (RulesLaws.filter_avoided (u "trailing-whitespace")
             (tbl := [(u "schema", Rules.error)]) eq_refl
             (RulesLaws.schemaEntries_table t)).
  rewrite (RulesLaws.filter_avoided (u "trailing-whitespace") (tbl := requiredTable)
             eq_refl (RulesLaws.requiredEntries_table t)).
  rewrite (RulesLaws.filter_avoided (u "trailing-whitespace") (tbl := orderTable)
             eq_refl (RulesLaws.orderLoop_table found (-1) (Forall_nil _))).
  rewrite (RulesLaws.filter_avoided (u "trailing-whitespace") (tbl := contentTable)
             eq_refl (RulesLaws.validateContent_table t)).
  rewrite (RulesLaws.filter_avoided (u "trailing-whitespace") (tbl := variableTable)
             eq_refl (RulesLaws.validateVariables_table t)).
  cbn [app]. rewrite TokenLaws.validateFormat_trailing.
  pose proof (TokenLaws.trailing_test t) as Ht.
  destruct (test Rules.re_trailing t); [|reflexivity].
  exfalso. apply Hclean. now apply Ht.
Qed.

End BlankLaws.

(** X18: whatever the input, the content enhance returns has no trailing
    blank: no space or tab stands right before a line terminator or at its
    end; so validate raises no [trailing-whitespace] warning on it. *)
Theorem enhanced_content_has_no_trailing_blank (t : str) :
  exists r v,
    Server.enhance t = Return r /\
    ~ hasTrailingBlank (Optimizer.enhancedContent r) /\
    Server.validate (Optimizer.enhancedContent r) = Return v /\
    filter (hasRule (u "trailing-whitespace")) (Rules.violations v) = [].
Proof.
  assert (H : exists r, Server.enhance t = Return r /\
                        ~ hasTrailingBlank (Optimizer.enhancedContent r)).
  { unfold Server.enhance, Optimizer.enhanceTemplate.
    destruct (OptimizerFacts.addMissingSections_returns t
                (Optimizer.identifySections t) []) as (e0 & ch0 & ->).
    unfold bind. cbv beta iota.
    destruct (Optimizer.formatTemplateVariables e0 ch0) as [e1 ch1].
    destruct (BlankLaws.improveFormatting_stripped e1 ch1) as (e & He).
    destruct (Optimizer.improveFormatting e1 ch1) as [e2 ch2]. cbn [fst] in He.
    pose proof (@BlankLaws.removeRedundancies_clean e2 ch2) as Hc.
    destruct (Optimizer.removeRedundancies e2 ch2) as [e3 ch3]. cbn [fst] in Hc.
    eexists. split; [reflexivity|]. cbn [Optimizer.enhancedContent].
    apply Hc. rewrite He. apply BlankLaws.stripped_clean. }
  destruct H as (r & Hr & Hclean).
  destruct (BlankLaws.validate_trailing_clean Hclean) as (v & Hv & Hnone).
  exists r, v. auto.
Qed.

(* ================================================================== *)
(** ** Variable names *)
(* ================================================================== *)

Module NameLaws.
Import Js Re Device ReFacts RulesFacts Optimizer Spec Laws.

Lemma nameUnit_range c :
  nameUnit c = true ->
  (c = 45 \/ c = 95 \/ (48 <= c <= 57) \/ (65 <= c <= 90) \/ (97 <= c <= 122))%N.
Proof.
  unfold nameUnit, inClass. cbn [existsb inItem].
  unfold isWordChar, isLower, isUpper, isDigit.
  rewrite !orb_true_iff, !andb_true_iff, !N.leb_le, !N.eqb_eq. intuition lia.
Qed.

Lemma nameUnit_plain c :
  nameUnit c = true -> isDelimiter c = false /\ isWhiteSpace c = false.
Proof.
  intros H. apply nameUnit_range in H.
  unfold isDelimiter, inClass, isWhiteSpace, isLineTerminator. cbn [existsb inItem].
  repeat match goal with
         | |- context [N.eqb c ?k] => destruct (N.eqb_spec c k); [exfalso; lia|]
         end.
  destruct (N.leb_spec 8192 c); [exfalso; lia|]. split; reflexivity.
Qed.

Lemma name_plain name :
  forallb nameUnit name = true ->
  forallb (fun c => negb (isDelimiter c)) name = true /\
  forallb (fun c => negb (isWhiteSpace c)) name = true.
Proof.
  induction name as [|c r IH]; [split; reflexivity|].
  cbn [forallb]. intros H. apply andb_prop in H. destruct H as [Hc Hr].
  destruct (nameUnit_plain _ Hc) as [-> ->]. cbn [negb andb]. now apply IH.
Qed.

Lemma filter_all_kept (f : N -> bool) s : forallb f s = true -> filter f s = s.
Proof.
  induction s as [|c r IH]; [reflexivity|]. cbn [forallb filter].
  intros H. apply andb_prop in H. destruct H as [-> Hr]. now rewrite IH.
Qed.

Lemma forallb_rev (f : N -> bool) s : forallb f s = true -> forallb f (rev s) = true.
Proof.
  rewrite !forallb_forall. intros H x Hx. apply H. now apply in_rev.
Qed.

Lemma trimStart_plain s :
  forallb (fun c => negb (isWhiteSpace c)) s = true -> trimStart s = s.
Proof.
  destruct s as [|c r]; [reflexivity|]. cbn [forallb trimStart].
  intros H. apply andb_prop in H. destruct H as [Hc _].
  now destruct (isWhiteSpace c).
Qed.

Lemma trim_plain s :
  forallb (fun c => negb (isWhiteSpace c)) s = true -> trim s = s.
Proof.
  intros H. unfold trim, trimEnd. rewrite (trimStart_plain _ H).
  rewrite (trimStart_plain _ (forallb_rev _ _ H)). apply rev_involutive.
Qed.

Lemma underscored_plain s :
  forallb (fun c => negb (isWhiteSpace c)) s = true -> underscored false s = s.
Proof.
  induction s as [|c r IH]; [reflexivity|]. cbn [forallb underscored].
  intros H. apply andb_prop in H. destruct H as [Hc Hr].
  destruct (isWhiteSpace c); [discriminate|]. now rewrite IH.
Qed.

(** A well-formed name between delimiters is what [cleanName] returns. *)
Lemma cleanName_between opening closing name :
  forallb isDelimiter opening = true ->
  forallb isDelimiter closing = true ->
  forallb nameUnit name = true ->
  cleanName (opening ++ name ++ closing) = name.
Proof.
  intros Ho Hc Hn. destruct (name_plain _ Hn) as [Hd Hw].
  assert (Hnone : forall d, forallb isDelimiter d = true ->
                            filter (fun c => negb (isDelimiter c)) d = []).
  { induction d as [|x d IH]; [reflexivity|]. cbn [forallb filter].
    intros H. apply andb_prop in H. destruct H as [-> Hr]. cbn [negb]. now apply IH. }
  rewrite ReplaceLaws.cleanName_direct, !filter_app, (Hnone _ Ho), (Hnone _ Hc).
  rewrite (filter_all_kept _ _ Hd). cbn [app]. rewrite app_nil_r.
  rewrite (trim_plain _ Hw). now apply underscored_plain.
Qed.

(** The greedy run over a name stops where the name does. *)
Lemma name_run (R : Type) f name : forall n bef rest c (k : cont R) res,
  forallb nameUnit name = true ->
  match rest with [] => True | x :: _ => nameUnit x = false end ->
  length (name ++ rest) < n ->
  k {| before := rev name ++ bef; after := rest |} c = Some res ->
  repeat true (m f (Cls [Word; One 45])) k n {| before := bef; after := name ++ rest |} c
  = Some res.
Proof.
  induction name as [|y name IH]; intros n bef rest c k res Hn Hrest Hlen Hk;
    (destruct n as [|n]; [simpl in Hlen; lia|]).
  - cbn [app rev] in *. cbn [repeat m]. unfold step. cbn [after before].
    destruct rest as [|x rest]; [exact Hk|].
    fold (nameUnit x). rewrite Hrest. exact Hk.
  - cbn [forallb] in Hn. apply andb_prop in Hn. destruct Hn as [Hy Hn].
    cbn [app]. cbn [repeat m]. unfold step. cbn [after before].
    fold (nameUnit y). rewrite Hy.
    assert (Hl : (length (name ++ rest) <? length (y :: name ++ rest))%nat = true)
      by (apply Nat.ltb_lt; simpl; lia).
    rewrite Hl.
    assert (E : repeat true (m f (Cls [Word; One 45])) k n
                  {| before := y :: bef; after := name ++ rest |} c = Some res).
    { apply IH; [exact Hn | exact Hrest | simpl in Hlen; lia |].
      cbn [rev] in Hk. now rewrite <- app_assoc in Hk. }
    match goal with
    | |- match ?t with _ => _ end = _ =>
        change t with (repeat true (m f (Cls [Word; One 45])) k n
                         {| before := y :: bef; after := name ++ rest |} c)
    end.
    now rewrite E.
Qed.

(** The canonical pattern accepts a double-brace token with a well-formed
    name. *)
Lemma canonical_test name :
  name <> [] ->
  forallb nameUnit name = true ->
  test Rules.re_canonical (u "{{" ++ name ++ u "}}") = true.
Proof.
  intros Hne Hn. destruct name as [|y name]; [congruence|].
  cbn [forallb] in Hn. apply andb_prop in Hn. destruct Hn as [Hy Hn].
  apply (@SectionLaws.test_at Rules.re_canonical [] (u "{{" ++ (y :: name) ++ u "}}")).
  unfold matchAt, Rules.re_canonical. cbn [source flag rev].
  rewrite m_Seq, m_Bol. cbn [atBol before]. unfold L.
  rewrite m_Seq, m_Lit, SectionLaws.litAdvance_self.
  unfold Plus. rewrite !m_Seq. cbn [app].
  change (m no_flags (Cls [Word; One 45])) with
    (fun (z : cursor) (c : caps) (k : cont (cursor * caps)) =>
       step (fun x => inClass x [Word; One 45]) z (fun z' => k z' c)).
  cbv beta. unfold step at 1. cbn [after before]. fold (nameUnit y). rewrite Hy.
  change (m no_flags (Star (Cls [Word; One 45]))) with
    (fun (z : cursor) (c : caps) (k : cont (cursor * caps)) =>
       repeat true (m no_flags (Cls [Word; One 45])) k (S (length (after z))) z c).
  cbv beta. cbn [after].
  erewrite name_run; [discriminate | exact Hn | reflexivity | simpl; lia |].
  rewrite m_Seq, m_Lit.
  rewrite <- (app_nil_r (u "}}")) at 2. rewrite SectionLaws.litAdvance_self.
  reflexivity.
Qed.

Lemma trimStart_Forall (P : N -> Prop) s : Forall P s -> Forall P (trimStart s).
Proof.
  induction 1 as [|c r Hc Hr IH]; [constructor|].
  cbn [trimStart]. destruct (isWhiteSpace c); [exact IH | now constructor].
Qed.

Lemma trim_Forall (P : N -> Prop) s : Forall P s -> Forall P (trim s).
Proof.
  intros H. unfold trim, trimEnd.
  apply Forall_rev, trimStart_Forall, Forall_rev, trimStart_Forall, H.
Qed.

Lemma underscored_Forall inRun s :
  Forall (fun c => isDelimiter c = false) s ->
  Forall (fun c => isDelimiter c = false /\ isWhiteSpace c = false) (underscored inRun s).
Proof.
  intros H. revert inRun. induction H as [|c r Hc Hr IH]; intros inRun; [constructor|].
  cbn [underscored]. destruct (isWhiteSpace c) eqn:E.
  - destruct inRun; [apply IH|]. constructor; [split; reflexivity | apply IH].
  - constructor; [split; assumption | apply IH].
Qed.

(** *** White space around and inside a name *)

Lemma white_not_delimiter c : isWhiteSpace c = true -> isDelimiter c = false.
Proof.
  intros H. unfold isDelimiter, inClass. cbn [existsb inItem].
  repeat match goal with
         | |- context [N.eqb c ?k] =>
             destruct (N.eqb_spec c k); [subst c; discriminate H|]
         end.
  reflexivity.
Qed.

Lemma white_kept s :
  forallb isWhiteSpace s = true -> filter (fun c => negb (isDelimiter c)) s = s.
Proof.
  intros H. apply filter_all_kept. rewrite forallb_forall in *. intros c Hc.
  now rewrite (white_not_delimiter _ (H c Hc)).
Qed.

Lemma trimStart_white w s : forallb isWhiteSpace w = true -> trimStart (w ++ s) = trimStart s.
Proof.
  induction w as [|c w IH]; [reflexivity|]. cbn [forallb app trimStart].
  intros H. apply andb_prop in H. destruct H as [-> Hw]. now apply IH.
Qed.

Lemma trimStart_word a s :
  forallb nameUnit a = true -> a <> [] -> trimStart (a ++ s) = a ++ s.
Proof.
  destruct a as [|c a]; [congruence|]. cbn [forallb app trimStart].
  intros H _. apply andb_prop in H. destruct H as [Hc _].
  destruct (nameUnit_plain _ Hc) as [_ ->]. reflexivity.
Qed.

Lemma underscored_app_plain a s :
  forallb (fun c => negb (isWhiteSpace c)) a = true ->
  underscored false (a ++ s) = a ++ underscored false s.
Proof.
  induction a as [|c a IH]; [reflexivity|]. cbn [forallb app underscored].
  intros H. apply andb_prop in H. destruct H as [Hc Ha].
  destruct (isWhiteSpace c); [discriminate|]. now rewrite IH.
Qed.

Lemma dropWhite_white w s :
  forallb isWhiteSpace w = true -> dropWhite (w ++ s) = dropWhite s.
Proof.
  induction w as [|c w IH]; [reflexivity|]. cbn [forallb app dropWhite].
  intros H. apply andb_prop in H. destruct H as [-> Hw]. now apply IH.
Qed.

Lemma dropWhite_word a :
  forallb nameUnit a = true -> dropWhite a = a.
Proof.
  destruct a as [|c a]; [reflexivity|]. cbn [forallb dropWhite].
  intros H. apply andb_prop in H. destruct H as [Hc _].
  destruct (nameUnit_plain _ Hc) as [_ ->]. reflexivity.
Qed.

(** Two words with white space before, between and after them. *)
Lemma cleanName_spaced leading first inner second trailing :
  forallb nameUnit first = true -> first <> [] ->
  forallb nameUnit second = true -> second <> [] ->
  forallb isWhiteSpace leading = true ->
  forallb isWhiteSpace inner = true -> inner <> [] ->
  forallb isWhiteSpace trailing = true ->
  cleanName (u "{{" ++ leading ++ first ++ inner ++ second ++ trailing ++ u "}}")
  = first ++ u "_" ++ second.
Proof.
  intros Hf Hfn Hs Hsn Hl Hi Hin Ht.
  destruct (name_plain _ Hf) as [Hfd Hfw]. destruct (name_plain _ Hs) as [Hsd Hsw].
  rewrite ReplaceLaws.cleanName_direct, !filter_app.
  rewrite (@white_kept leading Hl), (@white_kept inner Hi), (@white_kept trailing Ht).
  rewrite (filter_all_kept _ _ Hfd), (filter_all_kept _ _ Hsd).
  change (filter (fun c => negb (isDelimiter c)) (u "{{")) with (@nil N).
  change (filter (fun c => negb (isDelimiter c)) (u "}}")) with (@nil N).
  cbn [app]. rewrite app_nil_r.
  assert (Htrim : trim (leading ++ first ++ inner ++ second ++ trailing)
                  = first ++ inner ++ second).
  { unfold trim, trimEnd.
    rewrite (@trimStart_white leading _ Hl), (@trimStart_word first _ Hf Hfn).
    replace (first ++ inner ++ second ++ trailing)
      with ((first ++ inner) ++ second ++ trailing) by (now rewrite <- !app_assoc).
    rewrite !rev_app_distr, <- !app_assoc.
    rewrite (@trimStart_white (rev trailing) _ (forallb_rev _ _ Ht)).
    rewrite (@trimStart_word (rev second)).
    - rewrite <- !rev_app_distr, rev_involutive. now rewrite <- !app_assoc.
    - now apply forallb_rev.
    - intros E. apply Hsn. apply (f_equal (@rev N)) in E.
      now rewrite rev_involutive in E. }
  rewrite Htrim, (@underscored_app_plain first _ Hfw). f_equal.
  destruct inner as [|c inner]; [congruence|].
  cbn [forallb] in Hi. apply andb_prop in Hi. destruct Hi as [Hc Hi].
  cbn [app underscored]. rewrite Hc.
  rewrite ReplaceLaws.underscored_run, (@dropWhite_white inner _ Hi), (@dropWhite_word second Hs).
  now rewrite (underscored_plain _ Hsw).
Qed.

End NameLaws.

(** X19: a token with a well-formed name (units of [[\w-]], at least one),
    written with brackets, with dollar and brace or with double braces, has
    the double-brace token of that name as the enhancer's normal form, and
    the validator's canonical pattern accepts that form; a canonical token
    is its own normal form, so the variable pass leaves it alone. *)
Theorem wellnamed_tokens_normalize (name content : str) :
  name <> [] ->
  forallb nameUnit name = true ->
  Optimizer.normalizedVar (u "[" ++ name ++ u "]") = u "{{" ++ name ++ u "}}" /\
  Optimizer.normalizedVar (u "${" ++ name ++ u "}") = u "{{" ++ name ++ u "}}" /\
  Optimizer.normalizedVar (u "{{" ++ name ++ u "}}") = u "{{" ++ name ++ u "}}" /\
  test Rules.re_canonical (u "{{" ++ name ++ u "}}") = true /\
  Optimizer.normalizeLoop [u "{{" ++ name ++ u "}}"] content [] = (content, []).
Proof.
  intros Hne Hn. unfold Optimizer.normalizedVar.
  assert (H1 : Optimizer.cleanName (u "[" ++ name ++ u "]") = name)
    by (now apply NameLaws.cleanName_between).
  assert (H2 : Optimizer.cleanName (u "${" ++ name ++ u "}") = name)
    by (now apply NameLaws.cleanName_between).
  assert (H3 : Optimizer.cleanName (u "{{" ++ name ++ u "}}") = name)
    by (now apply NameLaws.cleanName_between).
  rewrite H1, H2, H3. repeat split.
  - now apply NameLaws.canonical_test.
  - cbn [Optimizer.normalizeLoop]. unfold Optimizer.normalizedVar. rewrite H3.
    now rewrite RulesLaws.str_eqb_refl.
Qed.

(** X19, at the name [user-name]. *)
Lemma wellnamed_tokens_normalize_witness :
  Optimizer.normalizedVar (u "[user-name]") = u "{{user-name}}" /\
  Optimizer.normalizedVar (u "${user-name}") = u "{{user-name}}" /\
  Optimizer.normalizedVar (u "{{user-name}}") = u "{{user-name}}" /\
  test Rules.re_canonical (u "{{user-name}}") = true /\
  Optimizer.normalizeLoop [u "{{user-name}}"] (u "TASK: greet {{user-name}}") []
  = (u "TASK: greet {{user-name}}", []).
Proof.
  apply (@wellnamed_tokens_normalize (u "user-name") (u "TASK: greet {{user-name}}")).
  - discriminate.
  - reflexivity.
Defined.

(** X20: whatever the token, the name the enhancer puts between the double
    braces is the token with its braces, brackets and dollar signs deleted,
    its ends trimmed and every run of white space turned into one
    underscore; that name holds no brace, bracket or dollar sign and no white
    space.  So a run of several white-space units inside the name leaves one
    underscore, and white space at the ends leaves none. *)
Theorem normalized_name_is_plain (variable : str) :
  Optimizer.normalizedVar variable = u "{{" ++ plainName variable ++ u "}}" /\
  Forall (fun c => isDelimiter c = false /\ Js.isWhiteSpace c = false)
         (plainName variable) /\
  (forall leading first inner second trailing,
     forallb nameUnit first = true -> first <> [] ->
     forallb nameUnit second = true -> second <> [] ->
     forallb Js.isWhiteSpace leading = true ->
     forallb Js.isWhiteSpace inner = true -> inner <> [] ->
     forallb Js.isWhiteSpace trailing = true ->
     Optimizer.normalizedVar
       (u "{{" ++ leading ++ first ++ inner ++ second ++ trailing ++ u "}}")
     = u "{{" ++ first ++ u "_" ++ second ++ u "}}").
Proof.
  split; [|split].
  - unfold Optimizer.normalizedVar, plainName.
    now rewrite ReplaceLaws.cleanName_direct.
  - unfold plainName.
    apply NameLaws.underscored_Forall, NameLaws.trim_Forall.
    apply Forall_forall. intros c Hc. apply filter_In in Hc. destruct Hc as [_ Hc].
    now destruct (isDelimiter c).
  - intros leading first inner second trailing Hf Hfn Hs Hsn Hl Hi Hin Ht.
    unfold Optimizer.normalizedVar.
    rewrite (@NameLaws.cleanName_spaced leading first inner second trailing
               Hf Hfn Hs Hsn Hl Hi Hin Ht).
    now rewrite <- !app_assoc.
Qed.

(** X20, at the token [{{ user   name }}]: three spaces between the words
    leave one underscore, and the spaces at the ends leave none. *)
Lemma normalized_name_is_plain_witness :
  Optimizer.normalizedVar (u "{{ user   name }}") = u "{{user_name}}" /\
  Optimizer.normalizedVar (u "{{ user   name }}")
  = u "{{" ++ plainName (u "{{ user   name }}") ++ u "}}".
Proof.
  destruct (normalized_name_is_plain (u "{{ user   name }}")) as (Hform & _ & Hrun).
  split; [|exact Hform].
  apply (Hrun (u " ") (u "user") (u "   ") (u "name") (u " "));
    first [reflexivity | discriminate].
Defined.

(* ================================================================== *)
(** ** The sections the structure pass adds one by one *)
(* ================================================================== *)

Module InsertLaws.
Import Js Re Device ReFacts RulesFacts Optimizer Spec Laws.

(** The lazy run [.*?] before a line feed stops at the first line feed. *)
Lemma lazy_line (R : Type) body : forall n bef rest c (k : cont R),
  forallb (fun x => negb (isLineTerminator x)) body = true ->
  length (body ++ 10%N :: rest) < n ->
  repeat false (m fl_m Dot) (fun z' c' => m fl_m (Chr 10) z' c' k) n
         {| before := bef; after := body ++ 10%N :: rest |} c
  = k {| before := 10%N :: rev body ++ bef; after := rest |} c.
Proof.
  induction body as [|x body IH]; intros n bef rest c k Hb Hlen;
    (destruct n as [|n]; [simpl in Hlen; lia|]).
  - cbn [app rev repeat]. cbn [m]. unfold step. cbn [after before].
    change (chrMatches fl_m 10 10) with true. cbv iota.
    destruct (k _ c); reflexivity.
  - cbn [forallb] in Hb. apply andb_prop in Hb. destruct Hb as [Hx Hb].
    apply negb_true_iff in Hx.
    assert (Hne : chrMatches fl_m 10 x = false).
    { unfold chrMatches. cbn [ignoreCase fl_m]. apply N.eqb_neq. intros <-.
      discriminate. }
    cbn [app repeat]. cbn [m]. unfold step. cbn [after before].
    rewrite Hne, Hx. cbn [negb].
    assert (Hl : (length (body ++ 10%N :: rest) <? length (x :: body ++ 10%N :: rest))%nat
                 = true) by (apply Nat.ltb_lt; simpl; lia).
    rewrite Hl.
    assert (E := IH n (x :: bef) rest c k Hb ltac:(simpl in Hlen; lia)).
    cbn [rev]. rewrite <- app_assoc. cbn [app]. rewrite <- E. reflexivity.
Qed.

(** Where the pattern of [insertAfterSection] matches when the content
    starts with the section and its line ends in a line feed. *)
Lemma first_line_scan section body rest :
  forallb (fun x => negb (isLineTerminator x)) body = true ->
  scan {| source := Grp 1 (Seq Bol (Seq (Lit section) (Seq (StarLazy Dot) (Chr 10))));
          flag := fl_m |} [] (section ++ body ++ 10%N :: rest)
  = Some (0, {| before := 10%N :: rev body ++ rev section; after := rest |},
          [(1, (0, S (length section + length body)))]).
Proof.
  intros Hb.
  assert (Hm : matchAt {| source := Grp 1 (Seq Bol (Seq (Lit section)
                                     (Seq (StarLazy Dot) (Chr 10))));
                          flag := fl_m |}
                 {| before := []; after := section ++ body ++ 10%N :: rest |}
               = Some ({| before := 10%N :: rev body ++ rev section; after := rest |},
                       [(1, (0, S (length section + length body)))])).
  { unfold matchAt. cbn [source flag].
    rewrite m_Grp, m_Seq, m_Bol. cbn [atBol before].
    rewrite m_Seq, m_Lit, SectionLaws.litAdvance_self, m_Seq.
    change (m fl_m (StarLazy Dot)) with
      (fun (z : cursor) (c : caps) (k : cont (cursor * caps)) =>
         repeat false (m fl_m Dot) k (S (length (after z))) z c).
    cbv beta. cbn [after].
    rewrite (@lazy_line (cursor * caps) body (S (length (body ++ 10%N :: rest)))
               (rev section ++ []) rest [] _ Hb (Nat.lt_succ_diag_r _)).
    unfold pos. cbn [before length]. rewrite app_nil_r.
    rewrite length_app, !length_rev.
    replace (length body + length section) with (length section + length body) by lia.
    reflexivity. }
  destruct (section ++ body ++ 10%N :: rest) eqn:E; cbn [scan]; rewrite Hm; reflexivity.
Qed.

Lemma insertAfterSection_first_line section body rest insertion :
  forallb (fun x => negb (isLineTerminator x)) body = true ->
  insertAfterSection (section ++ body ++ 10%N :: rest) section insertion
  = section ++ body ++ LF ++ LF ++ insertion ++ rest.
Proof.
  intros Hb. unfold insertAfterSection, replace, matchFirst. cbn [flag global fl_m].
  rewrite exec_scan, (@first_line_scan section body rest Hb).
  cbn [result rebuild index endIndex]. unfold group.
  cbn [captures capGet Nat.eqb]. unfold substring, pos. cbn [before length].
  assert (Hlen : S (length (rev body ++ rev section))
                 = length ((section ++ body) ++ [10%N])).
  { rewrite !length_app, !length_rev. simpl. lia. }
  assert (Hlen' : S (length section + length body)
                  = length ((section ++ body) ++ [10%N])).
  { rewrite !length_app. simpl. lia. }
  rewrite Hlen, Hlen', !Nat.sub_0_r. cbn [skipn firstn].
  replace (section ++ body ++ 10%N :: rest) with (((section ++ body) ++ [10%N]) ++ rest)
    by (rewrite <- !app_assoc; reflexivity).
  rewrite firstn_app, firstn_all, Nat.sub_diag, skipn_app, skipn_all, Nat.sub_diag.
  cbn [firstn skipn]. rewrite app_nil_r. cbn [app]. rewrite <- !app_assoc. reflexivity.
Qed.

(** *** What [trim] keeps *)

Lemma trimStart_app a b y r :
  b = y :: r -> isWhiteSpace y = false -> exists a', trimStart (a ++ b) = a' ++ b.
Proof.
  intros -> Hy. induction a as [|x a IH].
  - exists []. cbn [app trimStart]. now rewrite Hy.
  - cbn [app trimStart]. destruct (isWhiteSpace x); [exact IH|].
    exists (x :: a). reflexivity.
Qed.

Lemma trim_prefixed p e : plainEnds p -> prefixed p e -> prefixed p (trim e).
Proof.
  intros [(x & r & Hp & Hx) (y & r' & Hrev & Hy)] [rest ->]. unfold trim, trimEnd.
  assert (Hs : trimStart (p ++ rest) = p ++ rest).
  { rewrite Hp. cbn [app trimStart]. now rewrite Hx. }
  rewrite Hs, rev_app_distr.
  destruct (trimStart_app (rev rest) Hrev Hy) as (a' & ->).
  exists (rev a'). now rewrite rev_app_distr, rev_involutive.
Qed.

Lemma app_prefixed p e t : prefixed p e -> prefixed p (e ++ t).
Proof. intros [rest ->]. exists (rest ++ t). now rewrite app_assoc. Qed.

Lemma trimStart_head s :
  trimStart s = [] \/ exists x r, trimStart s = x :: r /\ isWhiteSpace x = false.
Proof.
  induction s as [|c s IH]; [now left|]. cbn [trimStart].
  destruct (isWhiteSpace c) eqn:E; [exact IH|]. right. eauto.
Qed.

Lemma trim_head s :
  trim s = [] \/ exists x r, trim s = x :: r /\ isWhiteSpace x = false.
Proof.
  unfold trim, trimEnd. destruct (trimStart_head s) as [->|(x & r & -> & Hx)]; [now left|].
  right. cbn [rev].
  destruct (@trimStart_app (rev r) [x] x [] eq_refl Hx) as (a' & ->).
  rewrite rev_app_distr. cbn [rev app]. eauto.
Qed.

(** A block appended after two line feeds and closed by one: [trim] takes
    the closing line feed, and the two in front when nothing stands before
    them. *)
Lemma trim_block x t :
  plainEnds t ->
  (x = [] \/ exists c r, x = c :: r /\ isWhiteSpace c = false) ->
  trim (x ++ LF ++ LF ++ t ++ LF) = match x with [] => t | _ => x ++ LF ++ LF ++ t end.
Proof.
  intros [(c0 & r0 & Ht & Hc0) (y & r' & Hrev & Hy)] Hx.
  assert (Hend : forall a, trimEnd (a ++ t ++ LF) = a ++ t).
  { intros a. unfold trimEnd. rewrite !rev_app_distr, Hrev. cbn [rev LF app trimStart].
    change (isWhiteSpace 10) with true. cbv iota. rewrite Hy.
    change (y :: r' ++ rev a) with ((y :: r') ++ rev a).
    rewrite <- Hrev, <- rev_app_distr. apply rev_involutive. }
  unfold trim. destruct Hx as [->|(c & r & -> & Hc)].
  - assert (Hs : trimStart (t ++ LF) = t ++ LF).
    { rewrite Ht. cbn [app trimStart]. now rewrite Hc0. }
    cbn [app LF trimStart]. change (isWhiteSpace 10) with true. cbv iota.
    fold LF. rewrite Hs. apply (Hend []).
  - assert (Hs : trimStart ((c :: r) ++ LF ++ LF ++ t ++ LF)
                 = ((c :: r) ++ LF ++ LF) ++ t ++ LF).
    { cbn [app trimStart]. rewrite Hc. now rewrite <- !app_assoc. }
    rewrite Hs, Hend. now rewrite <- !app_assoc.
Qed.

(** *** The texts the pass writes *)

Lemma inferRole_cases content :
  In (inferRole content)
     [u "reviewing and analyzing content"; u "creating and generating content";
      u "improving and enhancing content"; u "explaining concepts and teaching";
      u "assisting with the specified task"].
Proof.
  unfold inferRole.
  repeat match goal with
         | |- context [if ?b then _ else _] => destruct b
         end; cbn [In]; auto 10.
Qed.

Lemma roleLine_plainEnds content : plainEnds (roleLine content).
Proof.
  unfold roleLine. pose proof (inferRole_cases content) as H. cbn [In] in H.
  split.
  - eexists _, _. split; reflexivity.
  - rewrite rev_app_distr.
    destruct H as [<-|[<-|[<-|[<-|[<-|[]]]]]]; eexists _, _; split; reflexivity.
Qed.

Lemma contextPrefix_plainEnds content :
  plainEnds (roleLine content ++ LF ++ LF ++ contextText).
Proof.
  split.
  - unfold roleLine. eexists _, _. split; reflexivity.
  - rewrite !rev_app_distr. eexists _, _. split; reflexivity.
Qed.

Lemma roleLine_one_line content :
  forallb (fun x => negb (isLineTerminator x))
          (u " You are an AI assistant tasked with " ++ inferRole content) = true.
Proof.
  pose proof (inferRole_cases content) as H. cbn [In] in H.
  destruct H as [<-|[<-|[<-|[<-|[<-|[]]]]]]; reflexivity.
Qed.

Lemma role_base content :
  prefixed (roleLine content)
    (u "ROLE: You are an AI assistant tasked with " ++ inferRole content ++ LF ++ LF ++
     content).
Proof. exists (LF ++ LF ++ content). unfold roleLine. now rewrite <- app_assoc. Qed.

(** The CONTEXT text goes right after the ROLE line the pass has written. *)
Lemma insert_after_roleLine content insertion :
  insertAfterSection
    (u "ROLE: You are an AI assistant tasked with " ++ inferRole content ++ LF ++ LF ++
     content) (u "ROLE:") insertion
  = roleLine content ++ LF ++ LF ++ insertion ++ LF ++ content.
Proof.
  replace (u "ROLE: You are an AI assistant tasked with " ++ inferRole content ++ LF ++ LF ++
           content)
    with (u "ROLE:" ++ (u " You are an AI assistant tasked with " ++ inferRole content) ++
          10%N :: LF ++ content)
    by (rewrite <- app_assoc; reflexivity).
  rewrite (@insertAfterSection_first_line (u "ROLE:") _ (LF ++ content) insertion
             (roleLine_one_line content)).
  unfold roleLine. rewrite <- !app_assoc. reflexivity.
Qed.

Lemma role_insert_base content insertion :
  prefixed (roleLine content)
    (insertAfterSection
       (u "ROLE: You are an AI assistant tasked with " ++ inferRole content ++ LF ++ LF ++
        content) (u "ROLE:") insertion).
Proof. rewrite insert_after_roleLine. eexists. reflexivity. Qed.

Lemma context_insert_base content :
  prefixed (roleLine content ++ LF ++ LF ++ contextText)
    (insertAfterSection
       (u "ROLE: You are an AI assistant tasked with " ++ inferRole content ++ LF ++ LF ++
        content) (u "ROLE:")
       (u "CONTEXT: Working with the following information and requirements." ++ LF ++ LF)).
Proof.
  rewrite insert_after_roleLine. exists (LF ++ LF ++ LF ++ content).
  unfold contextText. rewrite <- !app_assoc. reflexivity.
Qed.

(** *** The sections found afterwards *)

Lemma role_found content e :
  prefixed (roleLine content) e -> role (identifySections e) = true.
Proof.
  intros [rest ->]. unfold identifySections. cbn [role]. unfold roleLine.
  replace ((u "ROLE: You are an AI assistant tasked with " ++ inferRole content) ++ rest)
    with (u "ROLE:" ++ u " You are an AI assistant tasked with " ++ inferRole content ++ rest)
    by (rewrite <- !app_assoc; reflexivity).
  apply (SectionLaws.label_at_start (u "ROLE:")).
Qed.

Lemma context_found content e :
  prefixed (roleLine content ++ LF ++ LF ++ contextText) e ->
  context (identifySections e) = true.
Proof.
  intros [rest ->]. unfold identifySections. cbn [context].
  replace ((roleLine content ++ LF ++ LF ++ contextText) ++ rest)
    with (((roleLine content ++ LF) ++ [10%N]) ++ u "CONTEXT:" ++
          u " Working with the following information and requirements." ++ rest)
    by (unfold contextText; rewrite <- !app_assoc; reflexivity).
  apply SectionLaws.label_after_LF.
Qed.

Lemma task_found_last x :
  task (identifySections
          (trim x ++ LF ++ LF ++ u "TASK: Complete the following objectives." ++ LF)) = true.
Proof.
  unfold identifySections. cbn [task].
  replace (trim x ++ LF ++ LF ++ u "TASK: Complete the following objectives." ++ LF)
    with (((trim x ++ LF) ++ [10%N]) ++ u "TASK:" ++
          u " Complete the following objectives." ++ LF)
    by (rewrite <- !app_assoc; reflexivity).
  apply SectionLaws.label_after_LF.
Qed.

Lemma task_found_inner x t :
  task (identifySections
          (trim (trim x ++ LF ++ LF ++ u "TASK: Complete the following objectives." ++ LF)
           ++ t)) = true.
Proof.
  unfold identifySections. cbn [task].
  rewrite (@trim_block (trim x) (u "TASK: Complete the following objectives.")).
  - destruct (trim x) as [|c r].
    + apply (SectionLaws.label_at_start (u "TASK:")).
    + replace (((c :: r) ++ LF ++ LF ++ u "TASK: Complete the following objectives.") ++ t)
        with ((((c :: r) ++ LF) ++ [10%N]) ++ u "TASK:" ++
              u " Complete the following objectives." ++ t)
        by (rewrite <- !app_assoc; reflexivity).
      apply SectionLaws.label_after_LF.
  - split; eexists _, _; split; reflexivity.
  - apply trim_head.
Qed.

Lemma format_found y :
  format (identifySections
            (trim y ++ LF ++ LF ++
             u "FORMAT: Provide your response in a clear, structured manner." ++ LF)) = true.
Proof.
  unfold identifySections. cbn [format].
  replace (trim y ++ LF ++ LF ++
           u "FORMAT: Provide your response in a clear, structured manner." ++ LF)
    with (((trim y ++ LF) ++ [10%N]) ++ u "FORMAT" ++
          58%N :: u " Provide your response in a clear, structured manner." ++ LF)
    by (rewrite <- !app_assoc; reflexivity).
  apply SectionLaws.format_after_LF.
Qed.

Ltac keeps_prefix :=
  first
    [ apply role_base
    | apply role_insert_base
    | apply context_insert_base
    | apply app_prefixed; keeps_prefix
    | apply trim_prefixed;
      [ first [apply roleLine_plainEnds | apply contextPrefix_plainEnds] | keeps_prefix ] ].

(** The partial branch of the structure pass. *)
Lemma partial_sections content r c t f changes :
  r || c || t || f = true ->
  exists e log,
    addMissingSections content
      {| role := r; context := c; task := t; format := f |} changes = Return (e, log) /\
    (r = false -> prefixed (roleLine content) e) /\
    (r = false -> c = false ->
     prefixed (roleLine content ++ LF ++ LF ++ contextText) e) /\
    (t = false -> task (identifySections e) = true) /\
    (f = false -> format (identifySections e) = true).
Proof.
  intros H. unfold addMissingSections. cbn [role context task format].
  destruct r, c, t, f; try discriminate H; cbn [negb andb]; cbv beta iota zeta;
    (eexists _, _; split; [reflexivity|]);
    (split; [|split; [|split]]); intros; try discriminate;
    first [ keeps_prefix | apply task_found_last | apply task_found_inner
          | apply format_found ].
Qed.

End InsertLaws.

(** X21: when at least one section was found, the structure pass adds the
    missing ones one by one, and what it adds is there afterwards: a missing
    ROLE makes the result start with the sentence written for it, and the
    pattern of ROLE finds it; when CONTEXT is missing too, its text stands
    two line feeds after that sentence, and the pattern of CONTEXT finds it;
    a missing TASK and a missing FORMAT are found at a line start after the
    pass. *)
Theorem added_sections_are_found (content : str) (sections : Optimizer.Sections)
    (changes : list str) :
  Optimizer.role sections || Optimizer.context sections ||
  Optimizer.task sections || Optimizer.format sections = true ->
  exists e log,
    Optimizer.addMissingSections content sections changes = Return (e, log) /\
    (Optimizer.role sections = false ->
     prefixed (roleLine content) e /\
     Optimizer.role (Optimizer.identifySections e) = true) /\
    (Optimizer.role sections = false -> Optimizer.context sections = false ->
     prefixed (roleLine content ++ LF ++ LF ++ contextText) e /\
     Optimizer.context (Optimizer.identifySections e) = true) /\
    (Optimizer.task sections = false ->
     Optimizer.task (Optimizer.identifySections e) = true) /\
    (Optimizer.format sections = false ->
     Optimizer.format (Optimizer.identifySections e) = true).
Proof.
  destruct sections as [r c t f]. cbn [Optimizer.role Optimizer.context Optimizer.task
                                        Optimizer.format].
  intros H.
  destruct (InsertLaws.partial_sections content r c t f changes H)
    as (e & log & He & Hr & Hc & Ht & Hf).
  exists e, log. split; [exact He|]. split; [|split; [|split]].
  - intros Hr0. split; [auto|]. eapply InsertLaws.role_found. auto.
  - intros Hr0 Hc0. split; [auto|]. eapply InsertLaws.context_found. auto.
  - exact Ht.
  - exact Hf.
Qed.

(** X21, at the content [TASK: Summarize the report], in which only TASK is
    found. *)
Lemma added_sections_are_found_witness :
  exists e log,
    Optimizer.addMissingSections (u "TASK: Summarize the report")
      (Optimizer.identifySections (u "TASK: Summarize the report")) [] = Return (e, log) /\
    (prefixed (roleLine (u "TASK: Summarize the report")) e /\
     Optimizer.role (Optimizer.identifySections e) = true) /\
    (prefixed (roleLine (u "TASK: Summarize the report") ++ LF ++ LF ++ contextText) e /\
     Optimizer.context (Optimizer.identifySections e) = true) /\
    Optimizer.format (Optimizer.identifySections e) = true.
Proof.
  destruct (@added_sections_are_found (u "TASK: Summarize the report")
              (Optimizer.identifySections (u "TASK: Summarize the report")) [] eq_refl)
    as (e & log & He & Hr & Hc & _ & Hf).
  exists e, log. split; [exact He|]. split; [|split].
  - apply Hr. reflexivity.
  - apply Hc; reflexivity.
  - apply Hf. reflexivity.
Defined.
